(** * Bin packing: bound estimator, greedy packers, branch and bound,
      genetic solver

    Shallow embedding of [Algoritmos.py] and [Genetico.py].

    Conventions of the embedding.
    - Python integers are [Z]; lengths and loop counters are [nat]
      ([range] of a negative number is empty, as [range(0)]).
    - A bin is a [list Z] in placement order, a packing a list of bins in
      the order the bins were opened.
    - [math.ceil(a / b)] goes through a double in Python: [ceil_true_div]
      follows that computation, with its rounding and its
      [OverflowError], and the functions with the suffix [_doble] are the
      functions of [Algoritmos.py] evaluated with it. The functions
      without the suffix use the exact ceiling [ceil_div]; for a capacity
      and a total size below 2^53 the two families agree
      ([ceil_true_div_exacto], [resultado_optimo_doble_exacto]). Beyond
      that the double can only fall below the exact ceiling while the
      quotient stays under 2^53, which it does for items that fit a bin.
    - [mutation_rate] is a double, that is a rational number, and
      [random.random()] a multiple of 2^-53: both are [Q] and compared
      exactly.
    - The in-place updates of the Python lists ([append], [pop],
      [cajas[i].append], [solution[idx] = v]) are written as functional
      updates of the list that is threaded through the loops.
    - Exceptions are values of [result]; code that draws random numbers
      runs in the monad [M] over the state of the generator. *)

From stdpp Require Import base numbers list sorting gmap.
From Stdlib Require Import QArith.

Local Open Scope Z_scope.

(** ** Python built-ins used by the sources *)

(** [sum(l)] on a list of integers. *)
Definition pysum (l : list Z) : Z := foldr Z.add 0 l.

(** The exact ceiling of [a / b] for [b <> 0]: the value of
    [math.ceil(a / b)] for operands below [2^53]; [ceil_true_div] below is
    the computation through the double. *)
Definition ceil_div (a b : Z) : Z := - ((- a) `div` b).

(** [sorted(l, reverse=True)]: a stable merge sort, largest first. *)
Definition sorted_reverse (l : list Z) : list Z := merge_sort Z.ge l.

Inductive exception : Set :=
  | ValueError
  | IndexError
  | KeyError
  | ZeroDivisionError
  | OverflowError.

Inductive result (A : Type) : Type :=
  | Ok (a : A)
  | Err (e : exception).
Arguments Ok {A} a.
Arguments Err {A} e.

(** [a / b] on integers is the double nearest to the exact quotient, the
    one with an even mantissa when two are equally near; the division
    raises [OverflowError] when that double would be [2^1024] or more,
    and [ZeroDivisionError] for [b = 0]. *)

(** The integer nearest to [n / d], the even one of two that are equally
    near ([0 ≤ n], [0 < d]). *)
Definition redondear_par (n d : Z) : Z :=
  let q := n `div` d in
  let r := n `mod` d in
  if decide (2 * r < d) then q
  else if decide (d < 2 * r) then q + 1
  else if Z.even q then q else q + 1.

(** The [e] with [2^e ≤ a / b < 2^(e+1)] ([0 < a], [0 < b]). *)
Definition exponente (a b : Z) : Z :=
  let d := Z.log2 a - Z.log2 b in
  if decide (b * 2 ^ Z.max d 0 ≤ a * 2 ^ Z.max (- d) 0) then d else d - 1.

(** [a / b] for positive integers, as the pair [(m, e)] of the double
    [m * 2^e]: 53 bits of mantissa, fewer below [2^-1022]. *)
Definition true_div_doble (a b : Z) : Z * Z :=
  let e := Z.max (exponente a b - 52) (-1074) in
  (redondear_par (a * 2 ^ Z.max (- e) 0) (b * 2 ^ Z.max e 0), e).

(** [math.ceil(a / b)] on integers: the quotient of the magnitudes is
    rounded to a double, which takes the sign of [a / b]; [math.ceil] of
    a finite double is exact. *)
Definition ceil_true_div (a b : Z) : result Z :=
  if decide (b = 0) then Err ZeroDivisionError
  else
    let '(m, e) := true_div_doble (Z.abs a) (Z.abs b) in
    let numerador := m * 2 ^ Z.max e 0 in
    let denominador := 2 ^ Z.max (- e) 0 in
    if decide (a = 0) then Ok 0
    else if decide (2 ^ 1024 * denominador ≤ numerador) then Err OverflowError
    else if decide (0 < a * b) then Ok (ceil_div numerador denominador)
    else Ok (- (numerador `div` denominador)).

Global Instance result_ret : MRet result := λ A a, Ok a.
Global Instance result_bind : MBind result := λ A B f r,
  match r with Ok a => f a | Err e => Err e end.

(** A [for] loop whose body may raise. *)
Fixpoint foldM {A B} (f : B → A → result B) (l : list A) (b : B) : result B :=
  match l with
  | [] => Ok b
  | x :: l' => b' ← f b x; foldM f l' b'
  end.

(** ** The [random] module

    The generator is a stream of raw draws; each library call consumes
    draws and maps them into its range. [random.seed] replaces the
    stream by the one of the seed, which [Genetico] takes as a
    parameter. The library raises [ValueError] for an empty range and for
    a sample larger than the population. *)

Definition rng : Type := nat → N.

(** Computations that read the generator and may raise. *)
Definition M (A : Type) : Type := rng → result (A * rng).

Global Instance M_ret : MRet M := λ A a g, Ok (a, g).
Global Instance M_bind : MBind M := λ A B f m g,
  match m g with Ok (a, g') => f a g' | Err e => Err e end.

Definition raise {A} (e : exception) : M A := λ _, Err e.

Definition lift {A} (r : result A) : M A :=
  λ g, match r with Ok a => Ok (a, g) | Err e => Err e end.

Definition draw : M N := λ g, Ok (g 0%nat, λ i, g (S i)).

(** [random.randint(a, b)]: an integer of [a..b]. *)
Definition randint (a b : Z) : M Z :=
  if decide (a ≤ b)
  then r ← draw; mret (a + Z.of_N r `mod` (b - a + 1))
  else raise ValueError.

(** [random.random()]: a multiple of 2^-53 in [0, 1). *)
Definition random : M Q :=
  r ← draw; mret (Qmake (Z.of_N r `mod` 2 ^ 53) (2 ^ 53)).

(** [random.sample(population, k)]: [k] entries at distinct positions,
    taken from a pool whose chosen slot is refilled with its last one
    (for large populations the library rejects repeated positions
    instead; the entries are at distinct positions either way). The pool
    is never empty when a position is drawn. *)
Fixpoint sample_pool {A} (pool : list A) (k : nat) : M (list A) :=
  match k with
  | O => mret []
  | S k' =>
      r ← draw;
      let j := (N.to_nat r `mod` length pool)%nat in
      match pool !! j, last pool with
      | Some x, Some ultimo =>
          resto ← sample_pool (take (pred (length pool)) (<[j := ultimo]> pool)) k';
          mret (x :: resto)
      | _, _ => raise IndexError
      end
  end.

Definition sample {A} (population : list A) (k : nat) : M (list A) :=
  if decide (k ≤ length population)%nat
  then sample_pool population k
  else raise ValueError.

(** [replicateM]: the list comprehensions of [generate_population]. *)
Fixpoint repetir {A} (n : nat) (m : M A) : M (list A) :=
  match n with
  | O => mret []
  | S n' => x ← m; xs ← repetir n' m; mret (x :: xs)
  end.

(** ** Algoritmos.py *)

Module Algoritmos.

(** [minimo_teorico]: the division raises for a zero capacity. The
    ceiling is the exact one, the value of [math.ceil(suma_total /
    capacidad)] for operands below [2^53]. *)
Definition minimo_teorico (capacidad : Z) (lista_de_objetos : list Z) : result Z :=
  let suma_total := pysum lista_de_objetos in
  if decide (capacidad = 0) then Err ZeroDivisionError
  else Ok (ceil_div suma_total capacidad).

(** *** Next Fit *)

(** Body of the [for] loop of [next_fit]. [cajas[-1]] is the last bin;
    the list starts with one bin and only grows, so the [None] branch
    (an [IndexError] in Python) is never taken from [next_fit]. *)
Definition next_fit_step (capacidad : Z) (cajas : list (list Z)) (objeto : Z)
    : list (list Z) :=
  match last cajas with
  | Some ultima =>
      if decide (pysum ultima + objeto ≤ capacidad)
      then alter (λ c, c ++ [objeto]) (pred (length cajas)) cajas
      else cajas ++ [[objeto]]
  | None => cajas
  end.

Definition next_fit (capacidad : Z) (lista_de_objetos : list Z)
    : nat * list (list Z) :=
  match lista_de_objetos with
  | [] => (0%nat, [])
  | primero :: resto =>
      let cajas := fold_left (next_fit_step capacidad) resto [[primero]] in
      (length cajas, cajas)
  end.

(** *** First Fit *)

(** The inner [for caja in cajas] with its [break]: [Some] is
    [colocado = True] with the updated bins, [None] is [colocado = False]. *)
Fixpoint first_fit_place (capacidad objeto : Z) (cajas : list (list Z))
    : option (list (list Z)) :=
  match cajas with
  | [] => None
  | caja :: resto =>
      if decide (pysum caja + objeto ≤ capacidad)
      then Some ((caja ++ [objeto]) :: resto)
      else cons caja <$> first_fit_place capacidad objeto resto
  end.

Definition first_fit_step (capacidad : Z) (cajas : list (list Z)) (objeto : Z)
    : list (list Z) :=
  match first_fit_place capacidad objeto cajas with
  | Some cajas' => cajas'
  | None => cajas ++ [[objeto]]
  end.

Definition first_fit (capacidad : Z) (lista_de_objetos : list Z)
    : nat * list (list Z) :=
  match lista_de_objetos with
  | [] => (0%nat, [])
  | _ =>
      let cajas := fold_left (first_fit_step capacidad) lista_de_objetos [] in
      (length cajas, cajas)
  end.

(** *** Best Fit *)

(** The inner [for i, caja in enumerate(cajas)]: the pair is
    [(mejor_caja, menor_espacio)], with [None] for the sentinel [-1]. *)
Definition best_fit_scan_step (capacidad objeto : Z)
    (acc : option nat * Z) (ic : nat * list Z) : option nat * Z :=
  let peso_actual := pysum ic.2 in
  let espacio_restante := capacidad - peso_actual in
  if decide (objeto ≤ espacio_restante ∧ espacio_restante < acc.2)
  then (Some ic.1, espacio_restante)
  else acc.

Definition best_fit_scan (capacidad objeto : Z) (cajas : list (list Z))
    : option nat * Z :=
  fold_left (best_fit_scan_step capacidad objeto)
            (imap pair cajas) (None, capacidad + 1).

Definition best_fit_step (capacidad : Z) (cajas : list (list Z)) (objeto : Z)
    : list (list Z) :=
  match (best_fit_scan capacidad objeto cajas).1 with
  | Some mejor_caja => alter (λ c, c ++ [objeto]) mejor_caja cajas
  | None => cajas ++ [[objeto]]
  end.

Definition best_fit (capacidad : Z) (lista_de_objetos : list Z)
    : nat * list (list Z) :=
  match lista_de_objetos with
  | [] => (0%nat, [])
  | _ =>
      let cajas := fold_left (best_fit_step capacidad) lista_de_objetos [] in
      (length cajas, cajas)
  end.

(** *** Decreasing variants *)

Definition first_fit_decreasing (capacidad : Z) (lista_de_objetos : list Z)
    : nat * list (list Z) :=
  let objetos_ordenados := sorted_reverse lista_de_objetos in
  first_fit capacidad objetos_ordenados.

Definition best_fit_decreasing (capacidad : Z) (lista_de_objetos : list Z)
    : nat * list (list Z) :=
  let objetos_ordenados := sorted_reverse lista_de_objetos in
  best_fit capacidad objetos_ordenados.

(** *** Exact solver: branch and bound *)

(** [mejor_num_cajas] is [float('inf')] until a first packing is recorded,
    an [int] afterwards. *)
Inductive cota : Set :=
  | Inf
  | Fin (n : nat).

(** The two [nonlocal] variables of [resultado_optimo]. *)
Record incumbente : Set := Incumbente {
  mejor_num_cajas : cota;
  mejor_cajas : list (list Z)
}.

(** [num_cajas < mejor_num_cajas] *)
Definition menor_que_cota (num_cajas : nat) (mejor : cota) : bool :=
  match mejor with
  | Inf => true
  | Fin m => bool_decide (num_cajas < m)%nat
  end.

(** [lower_bound >= mejor_num_cajas] *)
Definition alcanza_cota (lower_bound : Z) (mejor : cota) : bool :=
  match mejor with
  | Inf => false
  | Fin m => bool_decide (Z.of_nat m ≤ lower_bound)
  end.

(** [len(cajas_actuales) < mejor_num_cajas - 1]; [inf - 1] is [inf]. *)
Definition cabe_caja_nueva (num_cajas : nat) (mejor : cota) : bool :=
  match mejor with
  | Inf => true
  | Fin m => bool_decide (Z.of_nat num_cajas < Z.of_nat m - 1)
  end.

(** [calcular_lower_bound], on the exact ceiling: the value of the code
    for operands below [2^53]; for sizes that fit a bin the double of the
    code is at most this ceiling, which prunes no more. *)
Definition calcular_lower_bound (capacidad : Z) (num_cajas_usadas : nat)
    (peso_restante : Z) : Z :=
  Z.max (Z.of_nat num_cajas_usadas) (ceil_div peso_restante capacidad).

(** [branch_and_bound(indice, cajas_actuales, peso_restante)]. The list
    [pendientes] is [lista_de_objetos[indice:]], so [indice == n] is
    [pendientes = []] and [lista_de_objetos[indice]] is its head. Every
    [append] on [cajas_actuales] is undone by the [pop] that follows the
    recursive call, so each call receives the bins of its own branch; the
    incumbent is copied bin by bin when it is recorded and is the only
    state that survives a call. *)
Fixpoint branch_and_bound (capacidad : Z) (pendientes : list Z)
    (cajas_actuales : list (list Z)) (peso_restante : Z) (st : incumbente)
    : incumbente :=
  match pendientes with
  | [] =>
      let num_cajas := length cajas_actuales in
      if menor_que_cota num_cajas (mejor_num_cajas st)
      then Incumbente (Fin num_cajas) cajas_actuales
      else st
  | peso_objeto :: pendientes' =>
      let lower_bound :=
        calcular_lower_bound capacidad (length cajas_actuales) peso_restante in
      if alcanza_cota lower_bound (mejor_num_cajas st) then st
      else
        let nuevo_peso_restante := peso_restante - peso_objeto in
        let st1 :=
          fold_left
            (λ st (ic : nat * list Z),
               let peso_caja := pysum ic.2 in
               if decide (peso_caja + peso_objeto ≤ capacidad)
               then branch_and_bound capacidad pendientes'
                      (alter (λ c, c ++ [peso_objeto]) ic.1 cajas_actuales)
                      nuevo_peso_restante st
               else st)
            (imap pair cajas_actuales) st in
        if cabe_caja_nueva (length cajas_actuales) (mejor_num_cajas st1)
        then branch_and_bound capacidad pendientes'
               (cajas_actuales ++ [[peso_objeto]]) nuevo_peso_restante st1
        else st1
  end.

(** [resultado_optimo]. With pending items the first call divides by
    [capacidad] before anything else, so a zero capacity raises at once;
    with no items the root call is the base case and never divides. The
    [OverflowError] of a quotient beyond the doubles is outside this
    model, whose lower bounds are exact ceilings. *)
Definition resultado_optimo (capacidad : Z) (lista_de_objetos : list Z)
    : result (cota * list (list Z)) :=
  let peso_total := pysum lista_de_objetos in
  match lista_de_objetos with
  | _ :: _ =>
      if decide (capacidad = 0) then Err ZeroDivisionError
      else
        let st := branch_and_bound capacidad lista_de_objetos [] peso_total
                    (Incumbente Inf []) in
        Ok (mejor_num_cajas st, mejor_cajas st)
  | [] =>
      let st := branch_and_bound capacidad [] [] peso_total (Incumbente Inf []) in
      Ok (mejor_num_cajas st, mejor_cajas st)
  end.

(** *** The same functions through the double

    The functions above compute [math.ceil(a / b)] as the exact ceiling.
    The ones below follow the interpreter: the quotient is rounded to a
    double and the division raises [OverflowError] beyond the doubles.
    For a capacity and a total size below [2^53] the two families agree
    (lemmas [minimo_teorico_doble_exacto], [resultado_optimo_doble_exacto]). *)

Definition minimo_teorico_doble (capacidad : Z) (lista_de_objetos : list Z)
    : result Z :=
  let suma_total := pysum lista_de_objetos in
  ceil_true_div suma_total capacidad.

Definition calcular_lower_bound_doble (capacidad : Z) (num_cajas_usadas : nat)
    (peso_restante : Z) : result Z :=
  techo ← ceil_true_div peso_restante capacidad;
  mret (Z.max (Z.of_nat num_cajas_usadas) techo).

Fixpoint branch_and_bound_doble (capacidad : Z) (pendientes : list Z)
    (cajas_actuales : list (list Z)) (peso_restante : Z) (st : incumbente)
    : result incumbente :=
  match pendientes with
  | [] =>
      let num_cajas := length cajas_actuales in
      if menor_que_cota num_cajas (mejor_num_cajas st)
      then Ok (Incumbente (Fin num_cajas) cajas_actuales)
      else Ok st
  | peso_objeto :: pendientes' =>
      lower_bound ←
        calcular_lower_bound_doble capacidad (length cajas_actuales) peso_restante;
      if alcanza_cota lower_bound (mejor_num_cajas st) then Ok st
      else
        let nuevo_peso_restante := peso_restante - peso_objeto in
        st1 ←
          foldM
            (λ st (ic : nat * list Z),
               let peso_caja := pysum ic.2 in
               if decide (peso_caja + peso_objeto ≤ capacidad)
               then branch_and_bound_doble capacidad pendientes'
                      (alter (λ c, c ++ [peso_objeto]) ic.1 cajas_actuales)
                      nuevo_peso_restante st
               else Ok st)
            (imap pair cajas_actuales) st;
        if cabe_caja_nueva (length cajas_actuales) (mejor_num_cajas st1)
        then branch_and_bound_doble capacidad pendientes'
               (cajas_actuales ++ [[peso_objeto]]) nuevo_peso_restante st1
        else Ok st1
  end.

Definition resultado_optimo_doble (capacidad : Z) (lista_de_objetos : list Z)
    : result (cota * list (list Z)) :=
  let peso_total := pysum lista_de_objetos in
  st ← branch_and_bound_doble capacidad lista_de_objetos [] peso_total
         (Incumbente Inf []);
  mret (mejor_num_cajas st, mejor_cajas st).

End Algoritmos.

(** ** Genetico.py *)

Module Genetico.

(** *** Decoding an assignment vector *)

(** First loop of [decodificar_bins]: the pair is [(visto, orden_ids)]. *)
Definition orden_ids_step (acc : gset Z * list Z) (b : Z) : gset Z * list Z :=
  if decide (b ∈ acc.1) then acc else ({[b]} ∪ acc.1, acc.2 ++ [b]).

(** [{old: new for new, old in enumerate(orden_ids)}] *)
Definition id_map_de (orden_ids : list Z) : gmap Z nat :=
  fold_left (λ (m : gmap Z nat) (no : nat * Z), <[no.2 := no.1]> m)
            (imap pair orden_ids) ∅.

(** Second loop: [bins_dict.setdefault(bid, []).append(items[i])]. *)
Definition bins_dict_step (id_map : gmap Z nat) (items : list Z)
    (bins_dict : gmap nat (list Z)) (ib : nat * Z) : result (gmap nat (list Z)) :=
  match id_map !! ib.2 with
  | None => Err KeyError
  | Some bid =>
      match items !! ib.1 with
      | None => Err IndexError
      | Some w => Ok (<[bid := default [] (bins_dict !! bid) ++ [w]]> bins_dict)
      end
  end.

Definition decodificar_bins (solution items : list Z) : result (list (list Z)) :=
  let orden_ids := (fold_left orden_ids_step solution (∅, [])).2 in
  let id_map := id_map_de orden_ids in
  bins_dict ← foldM (bins_dict_step id_map items) (imap pair solution) ∅;
  let k := size bins_dict in
  foldM (λ acc i, match bins_dict !! i with
                  | Some caja => Ok (acc ++ [caja])
                  | None => Err KeyError
                  end)
        (seq 0 k) [].

(** *** Fitness *)

Definition fitness_step (items : list Z) (bins_sum : gmap Z Z) (ib : nat * Z)
    : result (gmap Z Z) :=
  match items !! ib.1 with
  | Some w => Ok (<[ib.2 := default 0 (bins_sum !! ib.2) + w]> bins_sum)
  | None => Err IndexError
  end.

Definition fitness (solution items : list Z) (capacidad : Z) : result Z :=
  bins_sum ← foldM (fitness_step items) (imap pair solution) ∅;
  let penalty :=
    pysum ((λ w, Z.max 0 (w - capacidad)) <$> (map_to_list bins_sum).*2) in
  Ok (Z.of_nat (size bins_sum) + penalty * 10).

(** [min(pop, key=lambda s: fitness(s, items, capacidad))]: the first
    individual of least fitness; [ValueError] on an empty sequence. *)
Fixpoint min_fitness_desde (items : list Z) (capacidad : Z)
    (mejor : list Z) (f_mejor : Z) (resto : list (list Z)) : result (list Z) :=
  match resto with
  | [] => Ok mejor
  | s :: resto' =>
      f ← fitness s items capacidad;
      if decide (f < f_mejor)
      then min_fitness_desde items capacidad s f resto'
      else min_fitness_desde items capacidad mejor f_mejor resto'
  end.

Definition min_fitness (items : list Z) (capacidad : Z) (pop : list (list Z))
    : result (list Z) :=
  match pop with
  | [] => Err ValueError
  | s :: resto =>
      f ← fitness s items capacidad;
      min_fitness_desde items capacidad s f resto
  end.

(** [len(set(v))] *)
Definition num_bins (v : list Z) : nat := size (list_to_set v : gset Z).

(** *** Operators *)

Definition generate_population (n_items population_size : nat) : M (list (list Z)) :=
  repetir population_size
    (repetir n_items (randint 0 (Z.of_nat n_items - 1))).

Definition selection (pop : list (list Z)) (items : list Z) (capacidad : Z)
    (k : nat) : M (list Z) :=
  contenders ← sample pop k;
  lift (min_fitness items capacidad contenders).

Definition crossover (parent1 parent2 : list Z) : M (list Z * list Z) :=
  if decide (length parent1 < 2)%nat then mret (parent1, parent2)
  else
    point ← randint 1 (Z.of_nat (length parent1) - 2);
    let child1 := take (Z.to_nat point) parent1 ++ drop (Z.to_nat point) parent2 in
    let child2 := take (Z.to_nat point) parent2 ++ drop (Z.to_nat point) parent1 in
    mret (child1, child2).

Definition mutate (solution : list Z) (mutation_rate : Q) : M (list Z) :=
  r ← random;
  if Qlt_le_dec r mutation_rate
  then
    idx ← randint 0 (Z.of_nat (length solution) - 1);
    v ← randint 0 (Z.of_nat (length solution) - 1);
    mret (<[Z.to_nat idx := v]> solution)
  else mret solution.

(** *** The generation loop *)

Section genetic_algorithm_bpp.

(** The stream [random.seed(s)] installs. *)
Variable sembrar : Z → rng.

Variables (items : list Z) (capacidad : Z).
Variables (population_size generations : nat) (mutation_rate : Q).
Variables (seed : option Z) (patience_no_change : nat).

(** The [while len(new_population) < population_size] loop; [faltan] is
    [population_size - len(new_population)], and the result is what the
    loop appends. *)
Fixpoint reproduccion (population : list (list Z)) (faltan : nat)
    : M (list (list Z)) :=
  match faltan with
  | O => mret []
  | S faltan' =>
      p1 ← selection population items capacidad 3;
      p2 ← selection population items capacidad 3;
      '(c1, c2) ← crossover p1 p2;
      m1 ← mutate c1 mutation_rate;
      match faltan' with
      | O => mret [m1]
      | S faltan'' =>
          m2 ← mutate c2 mutation_rate;
          resto ← reproduccion population faltan'';
          mret (m1 :: m2 :: resto)
      end
  end.

(** The variables the [for] loop carries from one generation to the
    next. *)
Record estado : Type := Estado {
  population : list (list Z);
  history_bins : list nat;
  best_overall : list Z;
  best_bins_overall : nat;
  last_best_bins : option nat;
  gens_without_change : nat
}.

(** The early-stopping block: the new [last_best_bins], the new
    [gens_without_change], and whether the loop breaks. *)
Definition early_stopping (last : option nat) (sin_cambio best_bins_gen : nat)
    : option nat * nat * bool :=
  if decide (last = None ∨ Some best_bins_gen ≠ last)
  then (Some best_bins_gen, 0%nat, false)
  else
    let sin_cambio := S sin_cambio in
    (last, sin_cambio, bool_decide (patience_no_change ≤ sin_cambio)%nat).

(** The update of the global best; [or] and [and] evaluate the fitness
    only when the bin counts are equal. *)
Definition mejora_global (best_gen : list Z) (best_bins_gen : nat)
    (st : estado) : result bool :=
  if decide (best_bins_gen < best_bins_overall st)%nat then Ok true
  else if decide (best_bins_gen = best_bins_overall st)
  then
    f_gen ← fitness best_gen items capacidad;
    f_overall ← fitness (best_overall st) items capacidad;
    Ok (bool_decide (f_gen < f_overall))
  else Ok false.

(** One iteration of the [for] loop; the boolean is [break]. *)
Definition generacion (st : estado) : M (estado * bool) :=
  elite ← lift (min_fitness items capacidad (population st));
  hijos ← reproduccion (population st) (population_size - 1)%nat;
  let new_population := elite :: hijos in
  best_gen ← lift (min_fitness items capacidad new_population);
  let best_bins_gen := num_bins best_gen in
  let history := history_bins st ++ [best_bins_gen] in
  mejora ← lift (mejora_global best_gen best_bins_gen st);
  let best := if mejora : bool then best_gen else best_overall st in
  let best_bins := if mejora : bool then best_bins_gen else best_bins_overall st in
  let '(last, sin_cambio, romper) :=
    early_stopping (last_best_bins st) (gens_without_change st) best_bins_gen in
  mret (Estado new_population history best best_bins last sin_cambio, romper).

(** [for _ in range(generations)] with its [break]. *)
Fixpoint bucle (generations : nat) (st : estado) : M estado :=
  match generations with
  | O => mret st
  | S generations' =>
      '(st', romper) ← generacion st;
      if romper : bool then mret st' else bucle generations' st'
  end.

(** [genetic_algorithm_bpp]; the result is
    [(len(bins_list), bins_list, best, history_bins)]. *)
Definition genetic_algorithm_bpp
    : M (nat * list (list Z) * list Z * list nat) :=
  _ ← match seed with
      | Some s => λ _, Ok (tt, sembrar s)
      | None => mret tt
      end;
  let n := length items in
  poblacion ← generate_population n population_size;
  mejor ← lift (min_fitness items capacidad poblacion);
  st ← bucle generations
         (Estado poblacion [] mejor (num_bins mejor) None 0%nat);
  best ← lift (min_fitness items capacidad (best_overall st :: population st));
  bins_list ← lift (decodificar_bins best items);
  mret (length bins_list, bins_list, best, history_bins st).

End genetic_algorithm_bpp.

End Genetico.

(** ** Reading an assignment vector *)

(** The labels of a vector in order of first appearance. *)
Definition etiquetas (solution : list Z) : list Z :=
  (fold_left Genetico.orden_ids_step solution (∅, [])).2.

(** The items that carry label [l], in input order. *)
Definition grupo (solution items : list Z) (l : Z) : list Z :=
  omap (λ ib : nat * Z, if decide (ib.2 = l) then items !! ib.1 else None)
       (imap pair solution).

(** ** Generations without change *)

(** On the history read backwards: how many entries in a row equal the
    entry before them. *)
Fixpoint racha (reciente_primero : list nat) : nat :=
  match reciente_primero with
  | a :: (b :: _) as anteriores =>
      if decide (a = b) then S (racha anteriores) else 0%nat
  | _ => 0%nat
  end.

(** The number of latest consecutive generations whose best bin count is
    the same as that of the generation before; any change makes it 0. *)
Definition generaciones_sin_cambio (history : list nat) : nat :=
  racha (reverse history).

(** ** Well-formed populations *)

(** Every vector carried by the loop has one label per item. *)
Definition bien_formado (items : list Z) (st : Genetico.estado) : Prop :=
  Forall (λ v, length v = length items) (Genetico.population st) ∧
  Genetico.population st ≠ [] ∧
  length (Genetico.best_overall st) = length items.

(** ** Packings *)

(** The five heuristics of [Algoritmos.py]. *)
Definition heuristicos : list (Z → list Z → nat * list (list Z)) :=
  [Algoritmos.next_fit; Algoritmos.first_fit; Algoritmos.best_fit;
   Algoritmos.first_fit_decreasing; Algoritmos.best_fit_decreasing].

(** No bin exceeds the capacity. *)
Definition factible (capacidad : Z) (cajas : list (list Z)) : Prop :=
  Forall (λ caja, pysum caja ≤ capacidad) cajas.

(** The bins hold the items, each exactly once. *)
Definition reparte (objetos : list Z) (cajas : list (list Z)) : Prop :=
  concat cajas ≡ₚ objetos.

(** A valid packing: a partition of the items into bins within capacity. *)
Definition empaquetado_valido (capacidad : Z) (objetos : list Z)
    (cajas : list (list Z)) : Prop :=
  reparte objetos cajas ∧ factible capacidad cajas.

(** One placement: the item goes at the end of an existing bin that has
    room for it, or into a new bin at the end. *)
Inductive coloca (capacidad objeto : Z) (cajas : list (list Z))
    : list (list Z) → Prop :=
  | coloca_existente i caja :
      cajas !! i = Some caja →
      pysum caja + objeto ≤ capacidad →
      coloca capacidad objeto cajas (alter (λ c, c ++ [objeto]) i cajas)
  | coloca_nueva :
      coloca capacidad objeto cajas (cajas ++ [[objeto]]).

(** The packings reachable from [cajas] by placing the pending items in
    order: the leaves of the search tree below a node. *)
Inductive completa (capacidad : Z)
    : list Z → list (list Z) → list (list Z) → Prop :=
  | completa_fin cajas :
      completa capacidad [] cajas cajas
  | completa_paso objeto pendientes cajas cajas' final :
      coloca capacidad objeto cajas cajas' →
      completa capacidad pendientes cajas' final →
      completa capacidad (objeto :: pendientes) cajas final.

(** Order on incumbent values, [inf] on top. *)
Definition cota_le (a b : Algoritmos.cota) : Prop :=
  match a, b with
  | _, Algoritmos.Inf => True
  | Algoritmos.Inf, Algoritmos.Fin _ => False
  | Algoritmos.Fin n, Algoritmos.Fin m => (n ≤ m)%nat
  end.

(** What the exact solver promises: a finite count, a valid packing with
    that many bins, and no valid packing with fewer. *)
Definition resultado_es_optimo (capacidad : Z) (objetos : list Z) : Prop :=
  ∃ m cajas,
    Algoritmos.resultado_optimo capacidad objetos = Ok (Algoritmos.Fin m, cajas) ∧
    length cajas = m ∧
    empaquetado_valido capacidad objetos cajas ∧
    ∀ otras, empaquetado_valido capacidad objetos otras → (m ≤ length otras)%nat.

(** The incumbent, once finite, is a packing with that many bins that
    satisfies [Q]. *)
Definition incumbente_ok (Q : list (list Z) → Prop) (st : Algoritmos.incumbente)
    : Prop :=
  match Algoritmos.mejor_num_cajas st with
  | Algoritmos.Inf => True
  | Algoritmos.Fin m =>
      m = length (Algoritmos.mejor_cajas st) ∧ Q (Algoritmos.mejor_cajas st)
  end.

(** ** Shape of the heuristics' packings *)

(** Every two neighbouring bins together exceed the capacity. *)
Fixpoint vecinas_llenas (capacidad : Z) (cajas : list (list Z)) : Prop :=
  match cajas with
  | caja :: ((siguiente :: _) as resto) =>
      capacidad < pysum caja + pysum siguiente ∧ vecinas_llenas capacidad resto
  | _ => True
  end.

(** The item that opened a bin does not fit into any bin opened before. *)
Definition abre_solo_si_no_cabe (capacidad : Z) (cajas : list (list Z)) : Prop :=
  ∀ i j anterior caja x,
    (i < j)%nat → cajas !! i = Some anterior → cajas !! j = Some caja →
    head caja = Some x → capacidad < pysum anterior + x.

(** No bin is empty and no size is negative. *)
Definition cajas_propias (cajas : list (list Z)) : Prop :=
  Forall (λ caja, caja ≠ [] ∧ Forall (λ x, 0 ≤ x) caja) cajas.

(** * Properties *)

Example next_fit_spec_example :
  Algoritmos.next_fit 10 [6; 5; 4; 3] = (3%nat, [[6]; [5; 4]; [3]]).
Proof. reflexivity. Qed.

Example best_fit_spec_example :
  Algoritmos.best_fit 10 [6; 5; 4; 3] = (2%nat, [[6; 4]; [5; 3]]).
Proof. reflexivity. Qed.

Example ffd_example :
  Algoritmos.first_fit_decreasing 7 [3; 2; 2; 3; 2; 2] = (3%nat, [[3; 3]; [2; 2; 2]; [2]]).
Proof. vm_compute. reflexivity. Qed.

Example resultado_optimo_spec_example :
  Algoritmos.resultado_optimo 10 [6; 5; 4; 3]
  = Ok (Algoritmos.Fin 2, [[6; 4]; [5; 3]]).
Proof. vm_compute. reflexivity. Qed.

(** ** Sums and sorting *)

Lemma pysum_app l1 l2 : pysum (l1 ++ l2) = pysum l1 + pysum l2.
Proof. induction l1 as [|x l1 IH]; simpl; lia. Qed.

Lemma pysum_snoc l x : pysum (l ++ [x]) = pysum l + x.
Proof. rewrite pysum_app. simpl. lia. Qed.

Lemma pysum_Permutation l1 l2 : l1 ≡ₚ l2 → pysum l1 = pysum l2.
Proof. induction 1; simpl; lia. Qed.

Lemma pysum_nonneg l : Forall (λ x, 0 ≤ x) l → 0 ≤ pysum l.
Proof. induction 1; simpl; lia. Qed.

Lemma pysum_concat_le capacidad cajas :
  factible capacidad cajas → pysum (concat cajas) ≤ capacidad * Z.of_nat (length cajas).
Proof.
  induction 1 as [|caja cajas Hc _ IH]; simpl; [lia|].
  rewrite pysum_app. lia.
Qed.

Lemma ceil_div_le a b k : 0 < b → a ≤ b * k → ceil_div a b ≤ k.
Proof.
  intros Hb Hk. unfold ceil_div.
  assert (- k ≤ (- a) `div` b); [|lia].
  apply Z.div_le_lower_bound; lia.
Qed.

Lemma ceil_div_ge a b : 0 < b → a ≤ b * ceil_div a b.
Proof.
  intros Hb. unfold ceil_div.
  pose proof (Z.mul_div_le (- a) b Hb). lia.
Qed.

(** ** The double behind [math.ceil(a / b)] *)

Lemma ceil_div_unico a b c : 0 < b → b * (c - 1) < a ≤ b * c → ceil_div a b = c.
Proof.
  intros Hb Hc. unfold ceil_div.
  assert ((- a) `div` b = - c); [|lia].
  symmetry. apply (Z.div_unique_pos (- a) b (- c) (b * c - a)); lia.
Qed.

Lemma redondear_par_le n d k :
  0 < d → n ≤ k * d → redondear_par n d ≤ k.
Proof.
  intros Hd Hk. unfold redondear_par.
  pose proof (Z.div_mod n d ltac:(lia)) as Hdm.
  pose proof (Z.mod_pos_bound n d Hd) as Hr.
  assert (n `div` d ≤ k) by (apply Z.div_le_upper_bound; lia).
  destruct (decide (n `div` d = k)) as [Heq|]; [|repeat case_decide; try destruct (Z.even _); lia].
  assert (n `mod` d = 0) by nia.
  rewrite decide_True by lia. lia.
Qed.

Lemma redondear_par_gt n d k :
  0 < d → d < 2 * (n - k * d) → k < redondear_par n d.
Proof.
  intros Hd Hk. unfold redondear_par.
  pose proof (Z.div_mod n d ltac:(lia)) as Hdm.
  pose proof (Z.mod_pos_bound n d Hd) as Hr.
  assert (k ≤ n `div` d) by (apply Z.div_le_lower_bound; lia).
  destruct (decide (n `div` d = k)) as [Heq|]; [|repeat case_decide; try destruct (Z.even _); lia].
  assert (n `mod` d = n - k * d) by nia.
  rewrite decide_False by lia. rewrite decide_True by lia. lia.
Qed.

Lemma exponente_rango a b :
  0 < a < 2 ^ 53 → 0 < b < 2 ^ 53 →
  -53 ≤ exponente a b ≤ 52 ∧ b < 2 ^ (53 - exponente a b).
Proof.
  intros Ha Hb. unfold exponente.
  pose proof (Z.log2_nonneg a). pose proof (Z.log2_nonneg b).
  assert (Z.log2 a < 53) by (apply Z.log2_lt_pow2; lia).
  assert (Z.log2 b < 53) by (apply Z.log2_lt_pow2; lia).
  destruct (Z.log2_spec a ltac:(lia)) as [Hla Hua].
  destruct (Z.log2_spec b ltac:(lia)) as [Hlb Hub].
  set (la := Z.log2 a) in *. set (lb := Z.log2 b) in *.
  assert (b < 2 ^ (53 - (la - lb - 1))) as Hmenos.
  { replace (53 - (la - lb - 1)) with (Z.succ lb + (53 - la)) by lia.
    rewrite Z.pow_add_r by lia.
    assert (1 ≤ 2 ^ (53 - la)) by (apply (Z.pow_le_mono_r 2 0); lia).
    nia. }
  case_decide as Hd; [|split; [lia|done]].
  split; [lia|].
  destruct (decide (0 ≤ la - lb)) as [Hpos|Hneg].
  - rewrite Z.max_l in Hd by lia. rewrite Z.max_r in Hd by lia.
    rewrite Z.pow_0_r, Z.mul_1_r in Hd.
    assert (b * 2 ^ (la - lb) < 2 ^ 53) as Hlt by lia.
    replace 53 with ((53 - (la - lb)) + (la - lb)) in Hlt at 1 by lia.
    rewrite Z.pow_add_r in Hlt by lia.
    assert (0 < 2 ^ (la - lb)) by (apply Z.pow_pos_nonneg; lia).
    nia.
  - assert (2 ^ 53 ≤ 2 ^ (53 - (la - lb))) by (apply Z.pow_le_mono_r; lia). lia.
Qed.

(** For operands below [2^53] the double computation gives the exact
    ceiling of the quotient. *)
Lemma ceil_true_div_exacto a b :
  0 ≤ a < 2 ^ 53 → 0 < b < 2 ^ 53 →
  ceil_true_div a b = Ok (ceil_div a b).
Proof.
  intros Ha Hb. unfold ceil_true_div. rewrite decide_False by lia.
  unfold true_div_doble. rewrite (Z.abs_eq a), (Z.abs_eq b) by lia.
  destruct (decide (a = 0)) as [->|Ha0].
  { done. }
  destruct (exponente_rango a b ltac:(lia) Hb) as [Hex Hbk].
  set (ex := exponente a b) in *.
  rewrite (Z.max_l (ex - 52)) by lia.
  rewrite (Z.max_r (ex - 52) 0), Z.pow_0_r, !Z.mul_1_r by lia.
  rewrite (Z.max_l (- (ex - 52)) 0) by lia.
  set (k := - (ex - 52)) in *.
  assert (0 < 2 ^ k) as Hk by (apply Z.pow_pos_nonneg; lia).
  assert (2 ^ (53 - ex) = 2 * 2 ^ k) as Hk2.
  { replace (53 - ex) with (1 + k) by lia. by rewrite Z.pow_add_r by lia. }
  pose proof (Z.mul_div_le (- a) b ltac:(lia)) as Hc1.
  pose proof (Z.mul_succ_div_gt (- a) b ltac:(lia)) as Hc2.
  fold (ceil_div a b) in *.
  assert (b * (ceil_div a b - 1) < a ≤ b * ceil_div a b) as Hc
    by (unfold ceil_div in *; lia).
  set (c := ceil_div a b) in *.
  assert (redondear_par (a * 2 ^ k) b ≤ c * 2 ^ k) as Hsup.
  { apply redondear_par_le; [lia|]. nia. }
  assert ((c - 1) * 2 ^ k < redondear_par (a * 2 ^ k) b) as Hinf.
  { apply redondear_par_gt; [lia|]. nia. }
  set (m := redondear_par (a * 2 ^ k) b) in *.
  assert (1 ≤ c) by nia.
  assert (c ≤ a) by nia.
  rewrite decide_False.
  2:{ assert (2 ^ 53 * 2 ^ k ≤ 2 ^ 1024 * 2 ^ k)
        by (apply Z.mul_le_mono_nonneg_r; [lia|by vm_compute]).
      nia. }
  rewrite decide_True by lia. f_equal.
  apply ceil_div_unico; [lia|]. lia.
Qed.

(** Beyond [2^53] the double is not the exact ceiling, and beyond the
    doubles the division raises. *)
Example ceil_true_div_redondea :
  ceil_true_div (2 ^ 53 + 1) (2 ^ 53) = Ok 1 ∧ ceil_div (2 ^ 53 + 1) (2 ^ 53) = 2.
Proof. split; vm_compute; reflexivity. Qed.

Example ceil_true_div_desborda :
  ceil_true_div (10 ^ 400) 1 = Err OverflowError.
Proof. vm_compute. reflexivity. Qed.

Lemma sorted_reverse_Permutation l : sorted_reverse l ≡ₚ l.
Proof. apply merge_sort_Permutation. Qed.

Lemma sorted_reverse_id l : StronglySorted Z.ge l → sorted_reverse l = l.
Proof.
  intros Hl.
  assert (Transitive Z.ge) by (intros x y z; lia).
  assert (Total Z.ge) by (intros x y; lia).
  assert (AntiSymm (=) Z.ge) by (intros x y; lia).
  apply (StronglySorted_unique Z.ge); [|done|apply sorted_reverse_Permutation].
  by apply StronglySorted_merge_sort.
Qed.

(** ** Placements and completions *)

Lemma concat_alter_snoc (cajas : list (list Z)) i caja x :
  cajas !! i = Some caja →
  concat (alter (λ c, c ++ [x]) i cajas) ≡ₚ x :: concat cajas.
Proof.
  revert i. induction cajas as [|c cajas IH]; intros [|i] Hi; simplify_eq/=.
  - rewrite <- app_assoc. simpl. by rewrite <- Permutation_middle.
  - rewrite (IH _ Hi). by rewrite <- Permutation_middle.
Qed.

Lemma coloca_reparte capacidad x cajas cajas' :
  coloca capacidad x cajas cajas' → concat cajas' ≡ₚ x :: concat cajas.
Proof.
  destruct 1 as [i caja Hi _|].
  - by apply concat_alter_snoc with caja.
  - rewrite concat_app. simpl. by rewrite <- Permutation_cons_append.
Qed.

Lemma coloca_factible capacidad x cajas cajas' :
  coloca capacidad x cajas cajas' → x ≤ capacidad →
  factible capacidad cajas → factible capacidad cajas'.
Proof.
  unfold factible. destruct 1 as [i caja Hi Hcabe|]; intros Hx Hf.
  - apply Forall_alter; [done|]. intros c Hc _.
    rewrite pysum_snoc. congruence.
  - apply Forall_app. split; [done|]. repeat constructor. simpl. lia.
Qed.

Lemma coloca_length capacidad x cajas cajas' :
  coloca capacidad x cajas cajas' → (length cajas ≤ length cajas')%nat.
Proof.
  destruct 1; [rewrite length_alter|rewrite length_app; simpl]; lia.
Qed.

Lemma coloca_no_vacias capacidad x cajas cajas' :
  coloca capacidad x cajas cajas' →
  Forall (λ c, c ≠ []) cajas → Forall (λ c, c ≠ []) cajas'.
Proof.
  destruct 1 as [i caja Hi _|]; intros Hne.
  - apply Forall_alter; [done|]. intros c _ _. by destruct c.
  - apply Forall_app. split; [done|]. by repeat constructor.
Qed.

Lemma completa_reparte capacidad pendientes cajas final :
  completa capacidad pendientes cajas final →
  concat final ≡ₚ concat cajas ++ pendientes.
Proof.
  induction 1 as [cajas|x pend cajas cajas' final Hc _ IH].
  - by rewrite app_nil_r.
  - rewrite IH, (coloca_reparte _ _ _ _ Hc). simpl.
    by rewrite <- Permutation_middle.
Qed.

Lemma completa_factible capacidad pendientes cajas final :
  completa capacidad pendientes cajas final →
  Forall (λ x, x ≤ capacidad) pendientes →
  factible capacidad cajas → factible capacidad final.
Proof.
  induction 1 as [cajas|x pend cajas cajas' final Hc _ IH]; [done|].
  intros Hp Hf. inversion_clear Hp. eauto using coloca_factible.
Qed.

Lemma completa_length capacidad pendientes cajas final :
  completa capacidad pendientes cajas final →
  (length cajas ≤ length final)%nat.
Proof.
  induction 1 as [cajas|x pend cajas cajas' final Hc _ IH]; [done|].
  apply coloca_length in Hc. lia.
Qed.

Lemma completa_no_vacias capacidad pendientes cajas final :
  completa capacidad pendientes cajas final →
  Forall (λ c, c ≠ []) cajas → Forall (λ c, c ≠ []) final.
Proof. induction 1; eauto using coloca_no_vacias. Qed.

Lemma completa_valido capacidad objetos final :
  completa capacidad objetos [] final →
  Forall (λ x, x ≤ capacidad) objetos →
  empaquetado_valido capacidad objetos final.
Proof.
  intros Hc Ho. split.
  - apply completa_reparte in Hc. done.
  - eapply completa_factible; [done..|constructor].
Qed.

(** The bound estimator is below the size of every valid packing. *)
Lemma valido_cota_inferior capacidad objetos cajas :
  0 < capacidad →
  empaquetado_valido capacidad objetos cajas →
  ceil_div (pysum objetos) capacidad ≤ Z.of_nat (length cajas).
Proof.
  intros Hc [Hr Hf]. apply ceil_div_le; [done|].
  rewrite <- (pysum_Permutation _ _ Hr). by apply pysum_concat_le.
Qed.

(** ** The heuristics place every item *)

Lemma next_fit_step_coloca capacidad cajas x :
  cajas ≠ [] → coloca capacidad x cajas (Algoritmos.next_fit_step capacidad cajas x).
Proof.
  intros Hne. unfold Algoritmos.next_fit_step.
  destruct (last cajas) as [ultima|] eqn:Hlast.
  - case_decide; [|constructor].
    rewrite last_lookup in Hlast. by econstructor.
  - apply last_None in Hlast. done.
Qed.

Lemma first_fit_place_Some capacidad x cajas cajas' :
  Algoritmos.first_fit_place capacidad x cajas = Some cajas' →
  ∃ i caja, cajas !! i = Some caja ∧ pysum caja + x ≤ capacidad ∧
            cajas' = alter (λ c, c ++ [x]) i cajas.
Proof.
  revert cajas'. induction cajas as [|c cajas IH]; intros cajas' H; [done|].
  simpl in H. case_decide.
  - exists 0%nat, c. by simplify_eq.
  - destruct (Algoritmos.first_fit_place capacidad x cajas) as [r|]; [|done].
    destruct (IH r eq_refl) as (i & caja & Hi & Hcabe & ->).
    exists (S i), caja. by simplify_eq/=.
Qed.

Lemma first_fit_step_coloca capacidad cajas x :
  coloca capacidad x cajas (Algoritmos.first_fit_step capacidad cajas x).
Proof.
  unfold Algoritmos.first_fit_step.
  destruct (Algoritmos.first_fit_place capacidad x cajas) as [r|] eqn:Hp.
  - apply first_fit_place_Some in Hp as (i & caja & Hi & Hcabe & ->).
    by econstructor.
  - constructor.
Qed.

Lemma best_fit_scan_inv capacidad x (l : list (nat * list Z)) acc i :
  (fold_left (Algoritmos.best_fit_scan_step capacidad x) l acc).1 = Some i →
  acc.1 = Some i ∨ ∃ caja, (i, caja) ∈ l ∧ pysum caja + x ≤ capacidad.
Proof.
  revert acc. induction l as [|[j c] l IH]; intros acc H; [by left|].
  simpl in H. apply IH in H as [H|(caja & Hin & Hcabe)].
  - unfold Algoritmos.best_fit_scan_step in H. simpl in H.
    case_decide as Hd; [|by left].
    right. exists c. simplify_eq/=. split; [left|lia].
  - right. exists caja. split; [by right|done].
Qed.

Lemma best_fit_scan_Some capacidad x cajas i :
  (Algoritmos.best_fit_scan capacidad x cajas).1 = Some i →
  ∃ caja, cajas !! i = Some caja ∧ pysum caja + x ≤ capacidad.
Proof.
  intros H. apply best_fit_scan_inv in H as [?|(caja & Hin & Hcabe)]; [done|].
  apply elem_of_lookup_imap in Hin as (j & c & ? & Hj). simplify_eq. eauto.
Qed.

Lemma best_fit_step_coloca capacidad cajas x :
  coloca capacidad x cajas (Algoritmos.best_fit_step capacidad cajas x).
Proof.
  unfold Algoritmos.best_fit_step.
  destruct (Algoritmos.best_fit_scan capacidad x cajas).1 as [i|] eqn:Hs.
  - apply best_fit_scan_Some in Hs as (caja & Hi & Hcabe). by econstructor.
  - constructor.
Qed.

Lemma fold_left_completa capacidad
    (paso : list (list Z) → Z → list (list Z)) (I : list (list Z) → Prop) :
  (∀ cajas x, I cajas → coloca capacidad x cajas (paso cajas x)) →
  (∀ cajas x, I cajas → I (paso cajas x)) →
  ∀ objetos cajas, I cajas →
    completa capacidad objetos cajas (fold_left paso objetos cajas).
Proof.
  intros Hpaso HI objetos.
  induction objetos as [|x objetos IH]; intros cajas Hc; simpl.
  - constructor.
  - econstructor; [by apply Hpaso|]. apply IH. by apply HI.
Qed.

Lemma next_fit_completa capacidad objetos :
  completa capacidad objetos [] (Algoritmos.next_fit capacidad objetos).2.
Proof.
  destruct objetos as [|x objetos]; simpl; [constructor|].
  apply completa_paso with ([] ++ [[x]]); [constructor|]. simpl.
  apply fold_left_completa with (I := λ cajas, cajas ≠ []); [| |done].
  - intros. by apply next_fit_step_coloca.
  - intros cajas y Hne Hnil.
    pose proof (next_fit_step_coloca capacidad cajas y Hne) as Hc.
    apply coloca_length in Hc. rewrite Hnil in Hc. destruct cajas; simpl in *; [done|lia].
Qed.

Lemma first_fit_completa capacidad objetos :
  completa capacidad objetos [] (Algoritmos.first_fit capacidad objetos).2.
Proof.
  destruct objetos as [|x objetos]; [constructor|].
  apply fold_left_completa with (I := λ _, True); auto using first_fit_step_coloca.
Qed.

Lemma best_fit_completa capacidad objetos :
  completa capacidad objetos [] (Algoritmos.best_fit capacidad objetos).2.
Proof.
  destruct objetos as [|x objetos]; [constructor|].
  apply fold_left_completa with (I := λ _, True); auto using best_fit_step_coloca.
Qed.

(** Every heuristic returns the number of bins of its packing, and the
    packing is reached by placing the items of some rearrangement of the
    input one after the other. *)
Lemma heuristicos_completa alg capacidad objetos :
  alg ∈ heuristicos →
  (alg capacidad objetos).1 = length (alg capacidad objetos).2 ∧
  ∃ orden, orden ≡ₚ objetos ∧
           completa capacidad orden [] (alg capacidad objetos).2.
Proof.
  unfold heuristicos. rewrite !elem_of_cons, elem_of_nil.
  intros [->|[->|[->|[->|[->|[]]]]]].
  - split; [by destruct objetos|]. exists objetos. split; [done|].
    apply next_fit_completa.
  - split; [by destruct objetos|]. exists objetos. split; [done|].
    apply first_fit_completa.
  - split; [by destruct objetos|]. exists objetos. split; [done|].
    apply best_fit_completa.
  - unfold Algoritmos.first_fit_decreasing.
    split; [by destruct (sorted_reverse objetos)|].
    exists (sorted_reverse objetos). split; [apply sorted_reverse_Permutation|].
    apply first_fit_completa.
  - unfold Algoritmos.best_fit_decreasing.
    split; [by destruct (sorted_reverse objetos)|].
    exists (sorted_reverse objetos). split; [apply sorted_reverse_Permutation|].
    apply best_fit_completa.
Qed.

Lemma heuristicos_valido alg capacidad objetos :
  alg ∈ heuristicos →
  Forall (λ x, x ≤ capacidad) objetos →
  empaquetado_valido capacidad objetos (alg capacidad objetos).2.
Proof.
  intros Halg Ho.
  destruct (heuristicos_completa alg capacidad objetos Halg)
    as (_ & orden & Hperm & Hc).
  assert (Forall (λ x, x ≤ capacidad) orden) as Ho'.
  { rewrite Forall_forall in *. intros x Hx. apply Ho. by rewrite <- Hperm. }
  destruct (completa_valido _ _ _ Hc Ho') as [Hr Hf]. split; [|done].
  unfold reparte in *. by rewrite Hr.
Qed.

Lemma heuristicos_reparte alg capacidad objetos :
  alg ∈ heuristicos → reparte objetos (alg capacidad objetos).2.
Proof.
  intros Halg.
  destruct (heuristicos_completa alg capacidad objetos Halg)
    as (_ & orden & Hperm & Hc).
  apply completa_reparte in Hc. unfold reparte. by rewrite Hc.
Qed.

(** ** Branch and bound *)

Import Algoritmos.

Lemma cota_le_refl a : cota_le a a.
Proof. destruct a; simpl; done. Qed.

Lemma cota_le_trans a b c : cota_le a b → cota_le b c → cota_le a c.
Proof. destruct a, b, c; simpl; try done. lia. Qed.

Lemma fold_left_cota_mono {A} (f : incumbente → A → incumbente) l :
  (∀ st x, x ∈ l → cota_le (mejor_num_cajas (f st x)) (mejor_num_cajas st)) →
  ∀ st, cota_le (mejor_num_cajas (fold_left f l st)) (mejor_num_cajas st).
Proof.
  induction l as [|y l IH]; intros Hf st; simpl; [apply cota_le_refl|].
  eapply cota_le_trans; [apply IH|apply Hf; left].
  intros. apply Hf. by right.
Qed.

Lemma fold_left_cota_alcanza {A} (f : incumbente → A → incumbente) l x K :
  x ∈ l →
  (∀ st y, y ∈ l → cota_le (mejor_num_cajas (f st y)) (mejor_num_cajas st)) →
  (∀ st, cota_le (mejor_num_cajas (f st x)) K) →
  ∀ st, cota_le (mejor_num_cajas (fold_left f l st)) K.
Proof.
  induction l as [|y l IH]; intros Hx Hf HK st; [by apply elem_of_nil in Hx|].
  simpl. apply elem_of_cons in Hx as [->|Hx].
  - eapply cota_le_trans; [|apply HK].
    apply fold_left_cota_mono. intros. apply Hf. by right.
  - apply IH; [done| |done]. intros. apply Hf. by right.
Qed.

Lemma fold_left_invariante {A B} (I : B → Prop) (f : B → A → B) l :
  (∀ st x, x ∈ l → I st → I (f st x)) → ∀ st, I st → I (fold_left f l st).
Proof.
  induction l as [|y l IH]; intros Hf st Hst; simpl; [done|].
  apply IH; [|apply Hf; [left|done]]. intros. apply Hf; [by right|done].
Qed.

(** The incumbent never gets worse. *)
Lemma branch_and_bound_mono capacidad pendientes :
  ∀ cajas resto st,
    cota_le (mejor_num_cajas (branch_and_bound capacidad pendientes cajas resto st))
            (mejor_num_cajas st).
Proof.
  induction pendientes as [|x pendientes IH]; intros cajas resto st; simpl.
  - destruct (mejor_num_cajas st) as [|m] eqn:Hm; simpl; [done|].
    case_bool_decide; simpl; [lia|]. rewrite Hm. simpl. lia.
  - destruct (alcanza_cota _ _); [apply cota_le_refl|].
    match goal with |- context [fold_left ?f ?l st] =>
      assert (cota_le (mejor_num_cajas (fold_left f l st)) (mejor_num_cajas st)) as H1
    end.
    { apply fold_left_cota_mono. intros st' ic _. simpl.
      case_decide; [apply IH|apply cota_le_refl]. }
    destruct (cabe_caja_nueva _ _); [|done].
    eapply cota_le_trans; [apply IH|done].
Qed.

(** The search always ends with a finite incumbent. *)
Lemma branch_and_bound_finito capacidad pendientes :
  ∀ cajas resto st,
    mejor_num_cajas (branch_and_bound capacidad pendientes cajas resto st) ≠ Inf.
Proof.
  induction pendientes as [|x pendientes IH]; intros cajas resto st; simpl.
  - destruct (mejor_num_cajas st) as [|m] eqn:Hm; simpl; [done|].
    case_bool_decide; simpl; [done|by rewrite Hm].
  - destruct (alcanza_cota _ _) eqn:Ha.
    { destruct (mejor_num_cajas st); done. }
    match goal with |- context [fold_left ?f ?l st] =>
      generalize (fold_left f l st)
    end.
    intros st1. destruct (mejor_num_cajas st1) as [|m] eqn:Hm; simpl; [apply IH|].
    case_bool_decide; [|by rewrite Hm].
    pose proof (branch_and_bound_mono capacidad pendientes
                  (cajas ++ [[x]]) (resto - x) st1) as Hle.
    rewrite Hm in Hle. by destruct (mejor_num_cajas _).
Qed.

(** Whatever holds of every leaf below a node holds of the incumbent. *)
Lemma branch_and_bound_correcto capacidad (Q : list (list Z) → Prop) pendientes :
  ∀ cajas resto st,
    (∀ final, completa capacidad pendientes cajas final → Q final) →
    incumbente_ok Q st →
    incumbente_ok Q (branch_and_bound capacidad pendientes cajas resto st).
Proof.
  induction pendientes as [|x pendientes IH]; intros cajas resto st HQ Hst; simpl.
  - destruct (menor_que_cota _ _); [|done].
    split; [done|]. apply HQ. constructor.
  - destruct (alcanza_cota _ _); [done|].
    match goal with |- context [fold_left ?f ?l st] =>
      assert (incumbente_ok Q (fold_left f l st)) as H1
    end.
    { apply fold_left_invariante; [|done]. intros st' [i caja] Hin Hst'. simpl.
      case_decide; [|done].
      apply elem_of_lookup_imap in Hin as (j & c & ? & Hj). simplify_eq.
      apply IH; [|done]. intros final Hfinal. apply HQ.
      econstructor; [|done]. by econstructor. }
    destruct (cabe_caja_nueva _ _); [|done].
    apply IH; [|done]. intros final Hfinal. apply HQ.
    econstructor; [|done]. constructor.
Qed.

(** No leaf below a node beats the incumbent left by the node. *)
Lemma branch_and_bound_completo capacidad pendientes :
  0 < capacidad →
  Forall (λ x, 0 ≤ x) pendientes →
  ∀ cajas resto st final,
    completa capacidad pendientes cajas final →
    resto ≤ capacidad * Z.of_nat (length final) →
    cota_le (mejor_num_cajas (branch_and_bound capacidad pendientes cajas resto st))
            (Fin (length final)).
Proof.
  intros Hcap. induction 1 as [|x pendientes Hx Hpos IH];
    intros cajas resto st final Hfinal Hresto; simpl.
  - inversion Hfinal; subst.
    destruct (mejor_num_cajas st) as [|m] eqn:Hm; simpl; [done|].
    case_bool_decide; simpl; [done|]. rewrite Hm. simpl. lia.
  - inversion Hfinal as [|? ? ? cajas' ? Hcol Hcomp]; subst.
    pose proof (coloca_length _ _ _ _ Hcol) as Hlen1.
    pose proof (completa_length _ _ _ _ Hcomp) as Hlen2.
    destruct (alcanza_cota _ _) eqn:Ha.
    { destruct (mejor_num_cajas st) as [|m]; simpl in *; [done|].
      apply bool_decide_eq_true in Ha. unfold calcular_lower_bound in Ha.
      pose proof (ceil_div_le resto capacidad (Z.of_nat (length final)) Hcap Hresto).
      lia. }
    match goal with |- context [fold_left ?f ?l st] =>
      pose proof (fold_left_cota_mono f l) as Hmono;
      pose proof (fold_left_cota_alcanza f l) as Halc;
      remember (fold_left f l st) as st1 eqn:Hst1
    end.
    inversion Hcol as [i caja Hi Hcabe|]; subst cajas'.
    + assert (cota_le (mejor_num_cajas st1) (Fin (length final))) as H1.
      { subst st1. apply (Halc (i, caja)).
        - by apply (elem_of_lookup_imap_2 pair).
        - intros st' ic _. simpl. case_decide;
            [apply branch_and_bound_mono|apply cota_le_refl].
        - intros st'. simpl. rewrite decide_True by done.
          apply IH; [done|lia]. }
      destruct (cabe_caja_nueva _ _); [|done].
      eapply cota_le_trans; [apply branch_and_bound_mono|done].
    + destruct (cabe_caja_nueva _ _) eqn:Hn.
      * apply IH; [done|lia].
      * destruct (mejor_num_cajas st1) as [|m]; simpl in *; [done|].
        apply bool_decide_eq_false in Hn.
        rewrite length_app in Hlen2. simpl in Hlen2. lia.
Qed.

(** ** Every valid packing is matched by a leaf of the search tree *)

Lemma concat_quita (ls : list (list Z)) i r1 x r2 :
  ls !! i = Some (r1 ++ x :: r2) →
  concat ls ≡ₚ x :: concat (alter (λ _, r1 ++ r2) i ls).
Proof.
  revert i. induction ls as [|l ls IH]; intros [|i] Hi; simplify_eq/=.
  - rewrite <- !app_assoc. simpl. by rewrite <- Permutation_middle.
  - rewrite (IH _ Hi). by rewrite <- Permutation_middle.
Qed.

Lemma elem_of_concat_lookup (ls : list (list Z)) x :
  x ∈ concat ls → ∃ i r1 r2, ls !! i = Some (r1 ++ x :: r2).
Proof.
  rewrite list_elem_of_In, in_concat. intros (l & Hl & Hx).
  apply list_elem_of_In, list_elem_of_lookup in Hl as [i Hi].
  apply list_elem_of_In, list_elem_of_split in Hx as (r1 & r2 & ->). eauto.
Qed.

(** [cajas] are the bins built so far, [faltan] what the target packing
    still adds to each of them, [otras] the target bins not opened yet. *)
Lemma plan_completa capacidad pendientes :
  ∀ cajas faltan otras,
    Forall (λ x, 0 ≤ x) pendientes →
    concat faltan ++ concat otras ≡ₚ pendientes →
    Forall2 (λ caja falta, pysum caja + pysum falta ≤ capacidad) cajas faltan →
    factible capacidad otras →
    ∃ final, completa capacidad pendientes cajas final ∧
             (length final ≤ length cajas + length otras)%nat.
Proof.
  induction pendientes as [|x pendientes IH];
    intros cajas faltan otras Hpos Hperm Hcf Hotras.
  { exists cajas. split; [constructor|lia]. }
  assert (Forall (λ y, 0 ≤ y) (concat faltan ++ concat otras)) as Hpos'.
  { rewrite Forall_forall in *. intros y Hy. apply Hpos. by rewrite <- Hperm. }
  apply Forall_app in Hpos' as [Hposf Hposo].
  inversion_clear Hpos as [|? ? Hx Hpos'].
  assert (x ∈ concat faltan ++ concat otras) as Hin.
  { rewrite Hperm. left. }
  apply elem_of_app in Hin as [Hin|Hin].
  - apply elem_of_concat_lookup in Hin as (i & r1 & r2 & Hi).
    destruct (Forall2_lookup_r _ _ _ _ _ Hcf Hi) as (caja & Hcaja & Hsum).
    assert (0 ≤ pysum r1 ∧ 0 ≤ pysum r2) as [Hr1 Hr2].
    { assert (Forall (λ y, 0 ≤ y) (r1 ++ x :: r2)) as Hr.
      { rewrite Forall_forall in *. intros y Hy. apply Hposf.
        rewrite list_elem_of_In, in_concat. exists (r1 ++ x :: r2).
        rewrite <- !list_elem_of_In. split; [|done].
        by eapply list_elem_of_lookup_2. }
      apply Forall_app in Hr as [Hr1 Hr2]. inversion_clear Hr2.
      split; by apply pysum_nonneg. }
    rewrite pysum_app in Hsum. simpl in Hsum.
    destruct (IH (alter (λ c, c ++ [x]) i cajas)
                 (alter (λ _, r1 ++ r2) i faltan) otras) as (final & Hc & Hlen).
    + done.
    + rewrite (concat_quita _ _ _ _ _ Hi) in Hperm. simpl in Hperm.
      by apply Permutation_cons_inv in Hperm.
    + apply Forall2_alter; [done|]. intros c f Hc Hf _. simplify_eq.
      rewrite pysum_snoc, pysum_app. lia.
    + done.
    + exists final. split.
      * econstructor; [|done]. econstructor; [done|lia].
      * rewrite length_alter in Hlen. done.
  - apply elem_of_concat_lookup in Hin as (i & r1 & r2 & Hi).
    pose proof (take_drop_middle _ _ _ Hi) as Hsplit.
    set (o1 := take i otras) in *. set (o2 := drop (S i) otras) in *.
    assert (0 ≤ pysum r1 ∧ 0 ≤ pysum r2) as [Hr1 Hr2].
    { assert (Forall (λ y, 0 ≤ y) (r1 ++ x :: r2)) as Hr.
      { rewrite Forall_forall in *. intros y Hy. apply Hposo.
        rewrite list_elem_of_In, in_concat. exists (r1 ++ x :: r2).
        rewrite <- !list_elem_of_In. split; [|done].
        by eapply list_elem_of_lookup_2. }
      apply Forall_app in Hr as [Hr1 Hr2]. inversion_clear Hr2.
      split; by apply pysum_nonneg. }
    rewrite <- Hsplit in Hperm, Hotras.
    apply Forall_app in Hotras as [Ho1 Ho2]. inversion_clear Ho2 as [|? ? Hb Ho2'].
    rewrite pysum_app in Hb. simpl in Hb.
    destruct (IH (cajas ++ [[x]]) (faltan ++ [r1 ++ r2]) (o1 ++ o2))
      as (final & Hc & Hlen).
    + done.
    + rewrite !concat_app in *. simpl in *. rewrite app_nil_r.
      apply (Permutation_cons_inv (a := x)). rewrite <- Hperm.
      rewrite <- !app_assoc. simpl. rewrite <- !Permutation_middle.
      constructor. apply Permutation_app_head.
      rewrite (app_assoc r1 r2), (Permutation_app_swap_app (r1 ++ r2)).
      by rewrite <- app_assoc.
    + apply Forall2_app; [done|]. repeat constructor.
      simpl. rewrite pysum_app. lia.
    + apply Forall_app. done.
    + exists final. split.
      * econstructor; [|done]. constructor.
      * rewrite <- Hsplit. rewrite !length_app in *. simpl in *. lia.
Qed.

Lemma valido_completa capacidad objetos cajas :
  Forall (λ x, 0 ≤ x) objetos →
  empaquetado_valido capacidad objetos cajas →
  ∃ final, completa capacidad objetos [] final ∧
           (length final ≤ length cajas)%nat.
Proof.
  intros Hpos [Hr Hf].
  apply (plan_completa capacidad objetos [] [] cajas); [done|done|constructor|done].
Qed.

(** ** The exact solver *)

Lemma resultado_optimo_eq capacidad objetos :
  capacidad ≠ 0 ∨ objetos = [] →
  ∃ st, st = branch_and_bound capacidad objetos [] (pysum objetos) (Incumbente Inf []) ∧
        resultado_optimo capacidad objetos = Ok (mejor_num_cajas st, mejor_cajas st).
Proof.
  intros H. eexists. split; [done|]. unfold resultado_optimo.
  destruct objetos as [|x objetos]; [done|].
  destruct H as [H|H]; [|done]. by rewrite decide_False.
Qed.

(** The exact solver returns a finite count and a packing reached by
    placing the items in input order. *)
Lemma resultado_optimo_completa capacidad objetos :
  capacidad ≠ 0 ∨ objetos = [] →
  ∃ m cajas,
    resultado_optimo capacidad objetos = Ok (Fin m, cajas) ∧
    length cajas = m ∧ completa capacidad objetos [] cajas.
Proof.
  intros H. destruct (resultado_optimo_eq capacidad objetos) as (st & Hst & ->);
    [done|].
  pose proof (branch_and_bound_finito capacidad objetos [] (pysum objetos)
                (Incumbente Inf [])) as Hfin.
  pose proof (branch_and_bound_correcto capacidad (completa capacidad objetos [])
                objetos [] (pysum objetos) (Incumbente Inf [])) as Hok.
  rewrite <- Hst in Hfin, Hok. unfold incumbente_ok in Hok.
  destruct (mejor_num_cajas st) as [|m]; [done|].
  destruct Hok as [Hm Hc]; [done|done|].
  exists m, (mejor_cajas st). done.
Qed.

Lemma resultado_optimo_spec capacidad objetos :
  0 < capacidad →
  Forall (λ x, 0 < x ∧ x ≤ capacidad) objetos →
  resultado_es_optimo capacidad objetos.
Proof.
  intros Hcap Hobj.
  assert (Forall (λ x, x ≤ capacidad) objetos) as Hle
    by (eapply Forall_impl; [exact Hobj|]; simpl; intros; lia).
  assert (Forall (λ x, 0 ≤ x) objetos) as Hpos
    by (eapply Forall_impl; [exact Hobj|]; simpl; intros; lia).
  destruct (resultado_optimo_completa capacidad objetos) as (m & cajas & Hres & Hlen & Hc);
    [left; lia|].
  exists m, cajas. split_and!; [done|done|by apply completa_valido|].
  intros otras Hotras.
  destruct (valido_completa _ _ _ Hpos Hotras) as (final & Hfinal & Hlenf).
  destruct (resultado_optimo_eq capacidad objetos) as (st & Hst & Hres');
    [left; lia|].
  rewrite Hres in Hres'. simplify_eq.
  pose proof (branch_and_bound_completo capacidad objetos Hcap Hpos []
                (pysum objetos) (Incumbente Inf []) final Hfinal) as Hopt.
  match type of Hres' with Fin _ = ?c => rewrite <- Hres' in Hopt end.
  simpl in Hopt.
  destruct (completa_valido _ _ _ Hfinal Hle) as [Hr Hf].
  apply pysum_concat_le in Hf. rewrite (pysum_Permutation _ _ Hr) in Hf.
  specialize (Hopt Hf). lia.
Qed.

(** C1 (amended): for a positive capacity and positive sizes none of
    which exceeds the capacity, [resultado_optimo] ends with a finite
    count, returns a valid packing with exactly that many bins, and no
    valid packing of the items has fewer bins. *)
Theorem C1_exact_pack_optimal capacidad objetos :
  0 < capacidad →
  Forall (λ x, 0 < x ∧ x ≤ capacidad) objetos →
  resultado_es_optimo capacidad objetos.
Proof. apply resultado_optimo_spec. Qed.

Lemma C1_exact_pack_optimal_witness :
  0 < 10 ∧ Forall (λ x, 0 < x ∧ x ≤ 10) [6; 5; 4; 3] ∧
  resultado_es_optimo 10 [6; 5; 4; 3].
Proof.
  assert (0 < 10) as H1 by lia.
  assert (Forall (λ x, 0 < x ∧ x ≤ 10) [6; 5; 4; 3]) as H2
    by (repeat constructor; lia).
  exact (conj H1 (conj H2 (C1_exact_pack_optimal 10 [6; 5; 4; 3] H1 H2))).
Defined.

(** C1 as stated fails for an item larger than the capacity: the solver
    still returns a count and bins, but the bin is over capacity, so it
    is not a valid packing (there is none). *)
Lemma C1_exact_pack_oversized_item :
  0 < 5 ∧ Forall (λ x, 0 < x) [7] ∧ ¬ resultado_es_optimo 5 [7].
Proof.
  split; [lia|]. split; [repeat constructor; lia|].
  intros (m & cajas & Hres & _ & [_ Hf] & _).
  vm_compute in Hres. simplify_eq.
  inversion_clear Hf as [|? ? H7 _]. simpl in H7. lia.
Qed.


(** ** Computations over the random source *)

Lemma rbind_Ok_inv {A B} (r : result A) (f : A → result B) b :
  r ≫= f = Ok b → ∃ a, r = Ok a ∧ f a = Ok b.
Proof. destruct r as [a|e]; [eauto|done]. Qed.

Lemma bind_Ok_inv {A B} (m : M A) (f : A → M B) g b g' :
  (m ≫= f) g = Ok (b, g') → ∃ a g1, m g = Ok (a, g1) ∧ f a g1 = Ok (b, g').
Proof.
  unfold mbind, M_bind. destruct (m g) as [[a g1]|e]; [eauto|done].
Qed.

Lemma bind_Ok {A B} (m : M A) (f : A → M B) g a g1 :
  m g = Ok (a, g1) → (m ≫= f) g = f a g1.
Proof. unfold mbind, M_bind. by intros ->. Qed.

Lemma bind_Err {A B} (m : M A) (f : A → M B) g e :
  m g = Err e → (m ≫= f) g = Err e.
Proof. unfold mbind, M_bind. by intros ->. Qed.

Lemma lift_Ok_inv {A} (r : result A) g a g' :
  lift r g = Ok (a, g') → r = Ok a ∧ g' = g.
Proof. unfold lift. destruct r; naive_solver. Qed.

Lemma lift_Ok {A} (r : result A) g a : r = Ok a → lift r g = Ok (a, g).
Proof. by intros ->. Qed.

Lemma mret_Ok_inv {A} (a b : A) (g g' : rng) :
  (mret a : M A) g = Ok (b, g') → b = a ∧ g' = g.
Proof. unfold mret, M_ret. naive_solver. Qed.

(** Splits a successful run into the runs of its steps. *)
Ltac inv_run H :=
  repeat match type of H with
  | (_ ≫= _) _ = Ok _ =>
      let a := fresh "a" in let g := fresh "g" in
      let H1 := fresh "Hrun" in
      apply bind_Ok_inv in H as (a & g & H1 & H)
  | (_ ≫= _) = Ok _ =>
      let a := fresh "a" in let H1 := fresh "Hres" in
      apply rbind_Ok_inv in H as (a & H1 & H)
  end.

Lemma foldM_Ok_inv {A B} (I : B → Prop) (f : B → A → result B) l :
  (∀ b x b', x ∈ l → I b → f b x = Ok b' → I b') →
  ∀ b b', I b → foldM f l b = Ok b' → I b'.
Proof.
  induction l as [|x l IH]; intros Hf b b' Hb H; simpl in H; [by simplify_eq|].
  inv_run H. eapply IH; [|by eapply Hf; [left|..]|done].
  intros. eapply Hf; [by right|done..].
Qed.

Lemma foldM_Ok {A B} (f : B → A → result B) l :
  (∀ b x, x ∈ l → ∃ b', f b x = Ok b') → ∀ b, ∃ b', foldM f l b = Ok b'.
Proof.
  induction l as [|x l IH]; intros Hf b; simpl; [eauto|].
  destruct (Hf b x) as [b1 ->]; [left|]. simpl.
  apply IH. intros. apply Hf. by right.
Qed.

Lemma foldM_snoc {A B} (f : B → A → result B) l x b :
  foldM f (l ++ [x]) b = foldM f l b ≫= λ b', f b' x.
Proof.
  revert b. induction l as [|y l IH]; intros b; simpl.
  - by destruct (f b x).
  - destruct (f b y); simpl; [apply IH|done].
Qed.

Lemma randint_Ok_inv a b g v g' : randint a b g = Ok (v, g') → a ≤ v ≤ b.
Proof.
  unfold randint. case_decide; [|done]. intros Hr. inv_run Hr.
  apply mret_Ok_inv in Hr as [-> _].
  pose proof (Z.mod_pos_bound (Z.of_N a0) (b - a + 1)). lia.
Qed.

Lemma randint_Ok a b g : a ≤ b → ∃ v g', randint a b g = Ok (v, g').
Proof. intros. unfold randint. rewrite decide_True by done. by eexists _, _. Qed.

Lemma randint_Err a b g : b < a → randint a b g = Err ValueError.
Proof. intros. unfold randint. rewrite decide_False by lia. done. Qed.

Lemma repetir_Ok_inv {A} (P : A → Prop) (m : M A) n :
  (∀ g x g', m g = Ok (x, g') → P x) →
  ∀ g l g', repetir n m g = Ok (l, g') → length l = n ∧ Forall P l.
Proof.
  intros Hm. induction n as [|n IH]; intros g l g' H; simpl in H.
  - apply mret_Ok_inv in H as [-> _]. done.
  - inv_run H. apply mret_Ok_inv in H as [-> _].
    apply IH in Hrun0 as [<- ?]. split; [done|]. constructor; eauto.
Qed.

Lemma repetir_Ok {A} (m : M A) n :
  (∀ g, ∃ x g', m g = Ok (x, g')) → ∀ g, ∃ l g', repetir n m g = Ok (l, g').
Proof.
  intros Hm. induction n as [|n IH]; intros g; simpl; [by eexists _, _|].
  destruct (Hm g) as (x & g1 & Hx). rewrite (bind_Ok _ _ _ _ _ Hx).
  destruct (IH g1) as (l & g2 & Hl). rewrite (bind_Ok _ _ _ _ _ Hl).
  by eexists _, _.
Qed.

Lemma sample_pool_Ok_inv {A} (pool : list A) k g l g' :
  sample_pool pool k g = Ok (l, g') → length l = k ∧ l ⊆ pool.
Proof.
  revert pool g l g'. induction k as [|k IH]; intros pool g l g' H; simpl in H.
  - apply mret_Ok_inv in H as [-> _]. split; [done|]. apply list_subseteq_nil.
  - inv_run H. unfold draw in Hrun. simplify_eq.
    destruct (pool !! _) as [x|] eqn:Hx; [|done].
    destruct (last pool) as [u|] eqn:Hu; [|done].
    inv_run H. apply mret_Ok_inv in H as [-> _].
    apply IH in Hrun as [<- Hsub]. split; [done|].
    intros y [->|Hy]%elem_of_cons; [by eapply list_elem_of_lookup_2|].
    apply Hsub, subseteq_take in Hy.
    apply list_elem_of_lookup in Hy as [i Hi].
    apply list_lookup_insert_Some in Hi as [(_ & -> & _)|[_ Hi]].
    + by apply last_Some_elem_of.
    + by eapply list_elem_of_lookup_2.
Qed.

Lemma sample_pool_Ok {A} (pool : list A) k g :
  (k ≤ length pool)%nat → ∃ l g', sample_pool pool k g = Ok (l, g').
Proof.
  revert pool g. induction k as [|k IH]; intros pool g Hk; simpl.
  { by eexists _, _. }
  unfold mbind at 1, M_bind, draw.
  assert (length pool ≠ 0)%nat as Hne by lia.
  set (j := (N.to_nat (g 0%nat) `mod` length pool)%nat).
  assert (j < length pool)%nat as Hj by (by apply Nat.mod_upper_bound).
  apply lookup_lt_is_Some_2 in Hj as [x ->].
  destruct (last_is_Some pool) as [_ [u ->]]; [by destruct pool|].
  destruct (IH (take (pred (length pool)) (<[j := u]> pool)) (λ i, g (S i)))
    as (l & g' & Hl).
  { rewrite length_take, length_insert. lia. }
  rewrite (bind_Ok _ _ _ _ _ Hl). by eexists _, _.
Qed.

Lemma sample_Ok_inv {A} (population : list A) k g l g' :
  sample population k g = Ok (l, g') → length l = k ∧ l ⊆ population.
Proof.
  unfold sample. case_decide; [|done]. apply sample_pool_Ok_inv.
Qed.

Lemma sample_Ok {A} (population : list A) k g :
  (k ≤ length population)%nat → ∃ l g', sample population k g = Ok (l, g').
Proof.
  intros. unfold sample. rewrite decide_True by done. by apply sample_pool_Ok.
Qed.

Lemma sample_Err {A} (population : list A) k g :
  (length population < k)%nat → sample population k g = Err ValueError.
Proof. intros. unfold sample. rewrite decide_False by lia. done. Qed.

Import Genetico.


(** ** Labels and groups of an assignment vector *)

Lemma orden_ids_fold solution :
  ∀ acc,
    (∀ x, x ∈ acc.1 ↔ x ∈ acc.2) → NoDup acc.2 →
    let r := fold_left orden_ids_step solution acc in
    (∀ x, x ∈ r.1 ↔ x ∈ r.2) ∧ NoDup r.2 ∧
    (∀ x, x ∈ r.2 ↔ x ∈ acc.2 ∨ x ∈ solution).
Proof.
  induction solution as [|b solution IH]; intros acc Hv Hnd; simpl.
  { split_and!; [done|done|]. intros x. rewrite elem_of_nil. tauto. }
  destruct (IH (orden_ids_step acc b)) as (H1 & H2 & H3).
  - unfold orden_ids_step. case_decide; [done|]. simpl. intros x.
    rewrite elem_of_union, elem_of_singleton, elem_of_app, list_elem_of_singleton, Hv.
    intuition congruence.
  - unfold orden_ids_step. case_decide; [done|]. simpl.
    apply NoDup_app. split_and!; [done| |apply NoDup_singleton].
    intros x Hx ->%list_elem_of_singleton. by apply Hv in Hx.
  - split_and!; [done|done|]. intros x. rewrite H3, elem_of_cons.
    unfold orden_ids_step. case_decide as Hb; simpl.
    + apply Hv in Hb. intuition congruence.
    + rewrite elem_of_app, list_elem_of_singleton. intuition congruence.
Qed.

Lemma etiquetas_NoDup solution : NoDup (etiquetas solution).
Proof.
  apply (orden_ids_fold solution (∅, [])); simpl; [|constructor].
  intros x. rewrite elem_of_nil. set_solver.
Qed.

Lemma elem_of_etiquetas solution x : x ∈ etiquetas solution ↔ x ∈ solution.
Proof.
  destruct (orden_ids_fold solution (∅, [])) as (_ & _ & H); simpl.
  - intros y. rewrite elem_of_nil. set_solver.
  - constructor.
  - unfold etiquetas. rewrite H. simpl. rewrite elem_of_nil. tauto.
Qed.

Lemma etiquetas_snoc solution b :
  etiquetas (solution ++ [b])
  = etiquetas solution ++ (if decide (b ∈ solution) then [] else [b]).
Proof.
  unfold etiquetas. rewrite fold_left_app. simpl.
  destruct (orden_ids_fold solution (∅, [])) as (H1 & _ & H3); simpl.
  { intros y. rewrite elem_of_nil. set_solver. }
  { constructor. }
  unfold orden_ids_step at 1.
  destruct (decide (b ∈ (fold_left orden_ids_step solution (∅, [])).1)) as [Hb|Hb].
  - apply H1, H3 in Hb as [Hb|Hb]; [by apply elem_of_nil in Hb|].
    rewrite decide_True by done. by rewrite app_nil_r.
  - rewrite decide_False; [done|]. intros Hb'. apply Hb, H1, H3. by right.
Qed.

Lemma length_etiquetas solution : length (etiquetas solution) = num_bins solution.
Proof.
  unfold num_bins.
  rewrite <- (size_list_to_set (C := gset Z) (etiquetas solution))
    by apply etiquetas_NoDup.
  f_equal. apply set_eq. intros x.
  by rewrite !elem_of_list_to_set, elem_of_etiquetas.
Qed.

Lemma imap_pair_snoc {A} (l : list A) x :
  imap pair (l ++ [x]) = imap pair l ++ [(length l, x)].
Proof. rewrite imap_app. simpl. by rewrite Nat.add_0_r. Qed.

Lemma grupo_snoc solution items b l :
  grupo (solution ++ [b]) items l
  = grupo solution items l
    ++ (if decide (b = l) then option_list (items !! length solution) else []).
Proof.
  unfold grupo. rewrite imap_pair_snoc, omap_app. f_equal. simpl.
  case_decide; [|done]. by destruct (items !! length solution).
Qed.

Lemma grupo_no_usada solution items l : l ∉ solution → grupo solution items l = [].
Proof.
  induction solution as [|b solution IH] using rev_ind; intros Hl; [done|].
  rewrite grupo_snoc, IH by set_solver.
  rewrite decide_False; [done|]. set_solver.
Qed.

Lemma id_map_de_snoc orden x :
  id_map_de (orden ++ [x]) = <[x := length orden]> (id_map_de orden).
Proof. unfold id_map_de. by rewrite imap_pair_snoc, fold_left_app. Qed.

Lemma id_map_de_lookup orden l j :
  NoDup orden → id_map_de orden !! l = Some j ↔ orden !! j = Some l.
Proof.
  induction orden as [|x orden IH] using rev_ind; intros Hnd.
  { unfold id_map_de. simpl. by rewrite lookup_empty. }
  apply NoDup_app in Hnd as (Hnd & Hx & _).
  rewrite id_map_de_snoc. destruct (decide (x = l)) as [->|Hne].
  - rewrite lookup_insert_eq. split.
    + intros [= <-]. by rewrite list_lookup_middle.
    + intros Hj. f_equal. destruct (decide (j < length orden)%nat) as [Hlt|Hge].
      * rewrite lookup_app_l in Hj by done.
        apply list_elem_of_lookup_2 in Hj. exfalso. apply (Hx l Hj). left.
      * apply lookup_lt_Some in Hj as Hj'. rewrite length_app in Hj'. simpl in Hj'. lia.
  - rewrite lookup_insert_ne by done. rewrite IH by done. split.
    + intros Hj. by apply lookup_app_l_Some.
    + intros Hj. apply lookup_app_Some in Hj as [Hj|[_ Hj]]; [done|].
      apply list_lookup_singleton_Some in Hj as [_ ?]. done.
Qed.

Lemma size_map_seq {A} (xs : list A) : size (map_seq 0 xs : gmap nat A) = length xs.
Proof.
  rewrite <- size_dom, dom_seq_L. apply size_set_seq.
Qed.

(** The second loop of [decodificar_bins], run over a prefix of the
    vector: bin [j] holds the group of the [j]-th label. *)
Lemma bins_dict_prefijo solution items prefijo resto :
  solution = prefijo ++ resto →
  (length prefijo ≤ length items)%nat →
  ∃ d, foldM (bins_dict_step (id_map_de (etiquetas solution)) items)
             (imap pair prefijo) ∅ = Ok d ∧
       ∀ j, d !! j = l ← etiquetas solution !! j;
                     if decide (l ∈ prefijo) then Some (grupo prefijo items l) else None.
Proof.
  revert resto. induction prefijo as [|b prefijo IH] using rev_ind; intros resto Hsol Hlen.
  { exists ∅. split; [done|]. intros j. rewrite lookup_empty.
    by destruct (etiquetas solution !! j). }
  rewrite length_app in Hlen. simpl in Hlen.
  destruct (IH ([b] ++ resto)) as (d & Hd & Hlook).
  { by rewrite <- app_assoc in Hsol. }
  { lia. }
  destruct (lookup_lt_is_Some_2 items (length prefijo)) as [w Hw]; [lia|].
  assert (b ∈ etiquetas solution) as Hb.
  { apply elem_of_etiquetas. rewrite Hsol. set_solver. }
  apply list_elem_of_lookup in Hb as [jb Hjb].
  pose proof (etiquetas_NoDup solution) as Hnd.
  rewrite imap_pair_snoc, foldM_snoc, Hd. simpl.
  unfold bins_dict_step at 1. simpl.
  rewrite (proj2 (id_map_de_lookup _ _ _ Hnd) Hjb), Hw.
  eexists. split; [done|]. intros j.
  destruct (decide (j = jb)) as [->|Hne].
  - rewrite lookup_insert_eq, Hjb. simpl.
    rewrite decide_True by set_solver.
    rewrite grupo_snoc, Hw, decide_True by done. simpl.
    rewrite Hlook, Hjb. simpl. f_equal. f_equal.
    case_decide; [done|]. simpl. by rewrite grupo_no_usada.
  - rewrite lookup_insert_ne by done. rewrite Hlook.
    destruct (etiquetas solution !! j) as [l|] eqn:Hj; simpl; [|done].
    assert (b ≠ l) as Hbl.
    { intros ->. apply Hne. by eapply NoDup_lookup. }
    rewrite grupo_snoc, (decide_False (P := b = l)), app_nil_r by done.
    destruct (decide (l ∈ prefijo)).
    + rewrite decide_True by set_solver. done.
    + rewrite decide_False by (rewrite elem_of_app, list_elem_of_singleton; intros [?|?]; done). done.
Qed.

Lemma recoger_bins (d : gmap nat (list Z)) (cajas : list (list Z)) k :
  (∀ j, d !! j = cajas !! j) →
  (k ≤ length cajas)%nat →
  foldM (λ acc i, match d !! i with
                  | Some caja => Ok (acc ++ [caja])
                  | None => Err KeyError
                  end) (seq 0 k) [] = Ok (take k cajas).
Proof.
  intros Hd. induction k as [|k IH]; intros Hk; [done|].
  rewrite seq_S, foldM_snoc, IH by lia. simpl.
  destruct (lookup_lt_is_Some_2 cajas k) as [caja Hcaja]; [lia|].
  rewrite Hd, Hcaja. by rewrite (take_S_r _ _ _ Hcaja).
Qed.

(** [decodificar_bins] returns the groups of the labels, in order of
    first appearance. *)
Lemma decodificar_bins_grupos solution items :
  (length solution ≤ length items)%nat →
  decodificar_bins solution items
  = Ok (grupo solution items <$> etiquetas solution).
Proof.
  intros Hlen. unfold decodificar_bins. fold (etiquetas solution).
  destruct (bins_dict_prefijo solution items solution []) as (d & -> & Hd);
    [by rewrite app_nil_r|done|]. simpl.
  assert (d = map_seq 0 (grupo solution items <$> etiquetas solution)) as ->.
  { apply map_eq. intros j. rewrite Hd, lookup_map_seq_0, list_lookup_fmap.
    destruct (etiquetas solution !! j) as [l|] eqn:Hj; simpl; [|done].
    rewrite decide_True; [done|].
    by eapply elem_of_etiquetas, list_elem_of_lookup_2. }
  rewrite size_map_seq.
  rewrite (recoger_bins _ (grupo solution items <$> etiquetas solution)).
  - by rewrite firstn_all.
  - intros j. apply lookup_map_seq_0.
  - done.
Qed.

Lemma concat_grupos_snoc (G : Z → list Z) orden b w :
  NoDup orden →
  concat ((λ l, G l ++ (if decide (b = l) then [w] else [])) <$> orden)
  ≡ₚ concat (G <$> orden) ++ (if decide (b ∈ orden) then [w] else []).
Proof.
  induction 1 as [|x orden Hx Hnd IH]; simpl; [done|].
  rewrite IH. destruct (decide (b = x)) as [->|Hne].
  - rewrite (decide_True (P := x ∈ x :: orden)) by left.
    rewrite (decide_False (P := x ∈ orden)) by done.
    rewrite !app_nil_r, <- !app_assoc. apply Permutation_app_head.
    apply Permutation_app_comm.
  - rewrite app_nil_r, <- app_assoc. apply Permutation_app_head.
    destruct (decide (b ∈ orden)).
    + rewrite decide_True by (by right). done.
    + rewrite decide_False; [done|]. rewrite elem_of_cons; intros [?|?]; done.
Qed.

Lemma concat_grupos_prefijo solution items :
  (length solution ≤ length items)%nat →
  concat (grupo solution items <$> etiquetas solution)
  ≡ₚ take (length solution) items.
Proof.
  induction solution as [|b solution IH] using rev_ind; intros Hlen; [done|].
  rewrite length_app in *. simpl in Hlen.
  destruct (lookup_lt_is_Some_2 items (length solution)) as [w Hw]; [lia|].
  simpl. rewrite Nat.add_1_r, (take_S_r _ _ _ Hw), <- IH by lia.
  rewrite etiquetas_snoc, fmap_app, concat_app.
  assert (∀ l, grupo (solution ++ [b]) items l
               = grupo solution items l ++ (if decide (b = l) then [w] else [])) as Hg.
  { intros l. rewrite grupo_snoc, Hw. by case_decide. }
  rewrite (list_fmap_ext _ _ (etiquetas solution) (λ _ l _, Hg l)).
  rewrite concat_grupos_snoc by apply etiquetas_NoDup.
  destruct (decide (b ∈ solution)) as [Hb|Hb].
  - rewrite decide_True by (by apply elem_of_etiquetas). simpl. by rewrite app_nil_r.
  - rewrite decide_False by (by rewrite elem_of_etiquetas). simpl.
    rewrite Hg, decide_True, grupo_no_usada by done. simpl. by rewrite !app_nil_r.
Qed.

(** The decoded bins hold every item exactly once. *)
Lemma decodificar_bins_reparte solution items :
  length solution = length items →
  ∃ cajas, decodificar_bins solution items = Ok cajas ∧
           length cajas = num_bins solution ∧ reparte items cajas.
Proof.
  intros Hlen. rewrite decodificar_bins_grupos by lia.
  eexists. split; [done|]. split.
  - by rewrite length_fmap, length_etiquetas.
  - unfold reparte. rewrite concat_grupos_prefijo by lia.
    by rewrite Hlen, firstn_all.
Qed.


(** ** Fitness *)

Lemma bins_sum_prefijo items prefijo :
  (length prefijo ≤ length items)%nat →
  ∃ m, foldM (fitness_step items) (imap pair prefijo) ∅ = Ok m ∧
       ∀ l, m !! l = if decide (l ∈ prefijo)
                     then Some (pysum (grupo prefijo items l)) else None.
Proof.
  induction prefijo as [|b prefijo IH] using rev_ind; intros Hlen.
  { exists ∅. split; [done|]. intros l. by rewrite lookup_empty. }
  rewrite length_app in Hlen. simpl in Hlen.
  destruct IH as (m & Hm & Hlook); [lia|].
  destruct (lookup_lt_is_Some_2 items (length prefijo)) as [w Hw]; [lia|].
  rewrite imap_pair_snoc, foldM_snoc, Hm. simpl.
  unfold fitness_step at 1. simpl. rewrite Hw.
  eexists. split; [done|]. intros l.
  rewrite grupo_snoc, Hw. destruct (decide (b = l)) as [->|Hne].
  - rewrite lookup_insert_eq, (decide_True (P := l ∈ prefijo ++ [l])) by set_solver.
    f_equal. simpl. rewrite pysum_snoc, Hlook.
    case_decide; [done|]. simpl. by rewrite grupo_no_usada.
  - rewrite lookup_insert_ne, app_nil_r, Hlook by done.
    destruct (decide (l ∈ prefijo)).
    + rewrite decide_True by set_solver. done.
    + rewrite decide_False by (rewrite elem_of_app, list_elem_of_singleton; intros [?|?]; done). done.
Qed.

Lemma penalizacion_no_negativa capacidad ws :
  0 ≤ pysum ((λ w, Z.max 0 (w - capacidad)) <$> ws).
Proof. induction ws as [|w ws IH]; csimpl; lia. Qed.

Lemma penalizacion_cero capacidad ws :
  pysum ((λ w, Z.max 0 (w - capacidad)) <$> ws) = 0 ↔ Forall (λ w, w ≤ capacidad) ws.
Proof.
  induction ws as [|w ws IH]; csimpl; [by split|].
  pose proof (penalizacion_no_negativa capacidad ws).
  rewrite Forall_cons, <- IH. lia.
Qed.

(** [fitness] is the number of labels plus ten times the overflow, and
    the overflow is zero exactly for a vector whose groups fit. *)
Lemma fitness_spec solution items capacidad :
  (length solution ≤ length items)%nat →
  ∃ penalty,
    fitness solution items capacidad
    = Ok (Z.of_nat (num_bins solution) + penalty * 10) ∧
    0 ≤ penalty ∧
    (penalty = 0 ↔ factible capacidad (grupo solution items <$> etiquetas solution)).
Proof.
  intros Hlen. unfold fitness.
  destruct (bins_sum_prefijo items solution Hlen) as (m & -> & Hm). simpl.
  eexists. split_and!.
  - do 3 f_equal. unfold num_bins. rewrite <- size_dom. f_equal.
    apply set_eq. intros l. rewrite elem_of_dom, elem_of_list_to_set, Hm.
    case_decide; [by split; eauto|]. split; [by intros [? ?]|done].
  - apply penalizacion_no_negativa.
  - rewrite penalizacion_cero. unfold factible. rewrite !Forall_forall. split.
    + intros H caja (l & -> & Hl)%list_elem_of_fmap.
      apply (H (pysum (grupo solution items l))).
      apply list_elem_of_fmap. exists (l, pysum (grupo solution items l)).
      split; [done|]. apply elem_of_map_to_list. rewrite Hm.
      rewrite decide_True; [done|]. by apply elem_of_etiquetas.
    + intros H w ([l w'] & -> & Hl)%list_elem_of_fmap. simpl.
      apply elem_of_map_to_list in Hl. rewrite Hm in Hl.
      case_decide as Hin; [|done]. simplify_eq.
      apply H, list_elem_of_fmap. exists l. split; [done|].
      by apply elem_of_etiquetas.
Qed.

Lemma fitness_Ok solution items capacidad :
  (length solution ≤ length items)%nat →
  ∃ f, fitness solution items capacidad = Ok f.
Proof.
  intros Hlen. destruct (fitness_spec solution items capacidad Hlen) as (p & -> & _).
  eauto.
Qed.

Lemma fitness_factible solution items capacidad :
  (length solution ≤ length items)%nat →
  fitness solution items capacidad = Ok (Z.of_nat (num_bins solution))
  ↔ factible capacidad (grupo solution items <$> etiquetas solution).
Proof.
  intros Hlen.
  destruct (fitness_spec solution items capacidad Hlen) as (p & -> & Hp & <-).
  split; [intros [= ?]; lia|intros ->; f_equal; lia].
Qed.

(** ** Choosing by fitness *)

Lemma min_fitness_desde_Ok_inv items capacidad resto :
  ∀ mejor f s,
    min_fitness_desde items capacidad mejor f resto = Ok s →
    s = mejor ∨ s ∈ resto.
Proof.
  induction resto as [|x resto IH]; intros mejor f s H; simpl in H.
  { left. by simplify_eq. }
  apply rbind_Ok_inv in H as (fx & _ & H).
  case_decide; apply IH in H as [->|H]; auto using list_elem_of_here, list_elem_of_further.
Qed.

Lemma min_fitness_Ok_inv items capacidad pop s :
  min_fitness items capacidad pop = Ok s → s ∈ pop.
Proof.
  destruct pop as [|x pop]; [done|]. simpl. intros H.
  apply rbind_Ok_inv in H as (fx & _ & H).
  apply min_fitness_desde_Ok_inv in H as [->|H]; [left|by right].
Qed.

Lemma min_fitness_desde_Ok items capacidad resto :
  Forall (λ v, length v ≤ length items)%nat resto →
  ∀ mejor f, ∃ s, min_fitness_desde items capacidad mejor f resto = Ok s.
Proof.
  induction 1 as [|x resto Hx _ IH]; intros mejor f; simpl; [eauto|].
  destruct (fitness_Ok x items capacidad Hx) as [fx ->]. simpl.
  case_decide; apply IH.
Qed.

Lemma min_fitness_Ok items capacidad pop :
  pop ≠ [] →
  Forall (λ v, length v ≤ length items)%nat pop →
  ∃ s, min_fitness items capacidad pop = Ok s.
Proof.
  intros Hne Hpop. destruct Hpop as [|x pop Hx Hpop]; [done|]. simpl.
  destruct (fitness_Ok x items capacidad Hx) as [fx ->]. simpl.
  by apply min_fitness_desde_Ok.
Qed.


(** ** Operators *)

Lemma generate_population_Ok_inv n population_size g pop g' :
  generate_population n population_size g = Ok (pop, g') →
  length pop = population_size ∧ Forall (λ v, length v = n) pop.
Proof.
  unfold generate_population. apply repetir_Ok_inv.
  intros g1 v g2 Hv.
  by apply (repetir_Ok_inv (λ _, True)) in Hv as [? _].
Qed.

Lemma generate_population_Ok n population_size g :
  ∃ pop g', generate_population n population_size g = Ok (pop, g').
Proof.
  unfold generate_population. apply repetir_Ok. intros g1.
  destruct n as [|n]; [by eexists _, _|].
  apply repetir_Ok. intros g2. apply randint_Ok. lia.
Qed.

Lemma selection_Ok_inv pop items capacidad k g s g' :
  selection pop items capacidad k g = Ok (s, g') → s ∈ pop.
Proof.
  unfold selection. intros H. inv_run H.
  apply lift_Ok_inv in H as [H _].
  apply sample_Ok_inv in Hrun as [_ Hsub].
  by apply Hsub, (min_fitness_Ok_inv items capacidad).
Qed.

Lemma selection_Ok pop items capacidad k g :
  (0 < k ≤ length pop)%nat →
  Forall (λ v, length v ≤ length items)%nat pop →
  ∃ s g', selection pop items capacidad k g = Ok (s, g').
Proof.
  intros Hk Hpop. unfold selection.
  destruct (sample_Ok pop k g) as (l & g' & Hl); [lia|].
  rewrite (bind_Ok _ _ _ _ _ Hl).
  apply sample_Ok_inv in Hl as [Hlen Hsub].
  destruct (min_fitness_Ok items capacidad l) as [s Hs].
  - destruct l; simpl in *; [lia|done].
  - rewrite Forall_forall in *. intros v Hv. by apply Hpop, Hsub.
  - exists s, g'. by apply lift_Ok.
Qed.

Lemma selection_Err pop items capacidad k g :
  (length pop < k)%nat → selection pop items capacidad k g = Err ValueError.
Proof.
  intros Hk. unfold selection. apply bind_Err. by apply sample_Err.
Qed.

Lemma crossover_corto parent1 parent2 g :
  (length parent1 < 2)%nat →
  crossover parent1 parent2 g = Ok ((parent1, parent2), g).
Proof. intros. unfold crossover. by rewrite decide_True. Qed.

Lemma crossover_dos parent1 parent2 g :
  length parent1 = 2%nat → crossover parent1 parent2 g = Err ValueError.
Proof.
  intros Hlen. unfold crossover. rewrite decide_False by lia.
  apply bind_Err, randint_Err. lia.
Qed.

Lemma crossover_largo parent1 parent2 g :
  (3 ≤ length parent1)%nat →
  ∃ point g',
    1 ≤ point ≤ Z.of_nat (length parent1) - 2 ∧
    crossover parent1 parent2 g
    = Ok ((take (Z.to_nat point) parent1 ++ drop (Z.to_nat point) parent2,
           take (Z.to_nat point) parent2 ++ drop (Z.to_nat point) parent1), g').
Proof.
  intros Hlen. unfold crossover. rewrite decide_False by lia.
  destruct (randint_Ok 1 (Z.of_nat (length parent1) - 2) g) as (point & g' & Hp); [lia|].
  exists point, g'. split; [by eapply randint_Ok_inv|].
  by rewrite (bind_Ok _ _ _ _ _ Hp).
Qed.

Lemma crossover_Ok_inv parent1 parent2 g c1 c2 g' :
  crossover parent1 parent2 g = Ok ((c1, c2), g') →
  length parent2 = length parent1 →
  length c1 = length parent1 ∧ length c2 = length parent1.
Proof.
  unfold crossover. case_decide as Hlen; intros H Heq.
  - apply mret_Ok_inv in H as [[= -> ->] _]. done.
  - inv_run H. apply mret_Ok_inv in H as [[= -> ->] _].
    apply randint_Ok_inv in Hrun.
    rewrite !length_app, !length_take, !length_drop. lia.
Qed.

Lemma random_lt_1 g r g' : random g = Ok (r, g') → (r < 1)%Q.
Proof.
  unfold random. intros H. inv_run H. apply mret_Ok_inv in H as [-> _].
  unfold Qlt. simpl.
  pose proof (Z.mod_pos_bound (Z.of_N a) (2 ^ 53)). lia.
Qed.

Lemma random_Ok g : ∃ r g', random g = Ok (r, g').
Proof. unfold random. by eexists _, _. Qed.

Lemma mutate_Ok_inv solution mutation_rate g s g' :
  mutate solution mutation_rate g = Ok (s, g') → length s = length solution.
Proof.
  unfold mutate. intros H. inv_run H. destruct (Qlt_le_dec _ _).
  - inv_run H. apply mret_Ok_inv in H as [-> _]. by rewrite length_insert.
  - by apply mret_Ok_inv in H as [-> _].
Qed.

Lemma mutate_Ok solution mutation_rate g :
  solution ≠ [] → ∃ s g', mutate solution mutation_rate g = Ok (s, g').
Proof.
  intros Hne. unfold mutate.
  destruct (random_Ok g) as (r & g1 & Hr). rewrite (bind_Ok _ _ _ _ _ Hr).
  destruct (Qlt_le_dec _ _); [|by eexists _, _].
  assert (0 ≤ Z.of_nat (length solution) - 1) by (destruct solution; simpl in *; [done|lia]).
  destruct (randint_Ok 0 (Z.of_nat (length solution) - 1) g1) as (i & g2 & Hi); [done|].
  rewrite (bind_Ok _ _ _ _ _ Hi).
  destruct (randint_Ok 0 (Z.of_nat (length solution) - 1) g2) as (v & g3 & Hv); [done|].
  rewrite (bind_Ok _ _ _ _ _ Hv). by eexists _, _.
Qed.

Lemma mutate_sin_tasa solution mutation_rate g :
  (mutation_rate <= 0)%Q → ∃ g', mutate solution mutation_rate g = Ok (solution, g').
Proof.
  intros Hrate. unfold mutate.
  destruct (random_Ok g) as (r & g1 & Hr). rewrite (bind_Ok _ _ _ _ _ Hr).
  destruct (Qlt_le_dec _ _) as [Hlt|]; [|by eexists].
  exfalso. unfold random in Hr. inv_run Hr. apply mret_Ok_inv in Hr as [-> _].
  assert (0 <= Qmake (Z.of_N a `mod` 2 ^ 53) (2 ^ 53))%Q as H0.
  { unfold Qle. simpl. pose proof (Z.mod_pos_bound (Z.of_N a) (2 ^ 53)). lia. }
  apply (Qlt_irrefl 0). eapply Qle_lt_trans; [exact H0|].
  eapply Qlt_le_trans; done.
Qed.

(** Mutating the empty vector raises as soon as the mutation fires. *)
Lemma mutate_vacio mutation_rate g :
  (1 <= mutation_rate)%Q → mutate [] mutation_rate g = Err ValueError.
Proof.
  intros Hrate. unfold mutate.
  destruct (random_Ok g) as (r & g1 & Hr). rewrite (bind_Ok _ _ _ _ _ Hr).
  apply random_lt_1 in Hr.
  destruct (Qlt_le_dec _ _) as [|Hle].
  - apply bind_Err, randint_Err. simpl. lia.
  - exfalso. apply (Qlt_irrefl r). eapply Qlt_le_trans; [exact Hr|].
    eapply Qle_trans; done.
Qed.


(** ** The generation loop *)

Section bucle_generaciones.

Context (items : list Z) (capacidad : Z).
Context (population_size : nat) (mutation_rate : Q) (patience_no_change : nat).

Local Abbreviation reproduccion := (reproduccion items capacidad mutation_rate).
Local Abbreviation generacion :=
  (generacion items capacidad population_size mutation_rate patience_no_change).
Local Abbreviation bucle :=
  (bucle items capacidad population_size mutation_rate patience_no_change).

Lemma reproduccion_pareja pop faltan g :
  reproduccion pop (S faltan) g
  = (p1 ← selection pop items capacidad 3;
     p2 ← selection pop items capacidad 3;
     '(c1, c2) ← crossover p1 p2;
     m1 ← mutate c1 mutation_rate;
     match faltan with
     | O => mret [m1]
     | S faltan' =>
         m2 ← mutate c2 mutation_rate;
         resto ← reproduccion pop faltan';
         mret (m1 :: m2 :: resto)
     end) g.
Proof. done. Qed.

Lemma reproduccion_Ok_inv pop :
  Forall (λ v, length v = length items) pop →
  ∀ faltan g hijos g',
    reproduccion pop faltan g = Ok (hijos, g') →
    length hijos = faltan ∧ Forall (λ v, length v = length items) hijos.
Proof.
  intros Hpop faltan. induction (lt_wf faltan) as [faltan _ IH].
  intros g hijos g' H. destruct faltan as [|faltan].
  { apply mret_Ok_inv in H as [-> _]. done. }
  rewrite reproduccion_pareja in H. inv_run H.
  match type of H with context [let '(_, _) := ?p in _] => destruct p as [c1 c2] end.
  inv_run H. rewrite Forall_forall in Hpop.
  repeat match goal with
  | Hs : selection _ _ _ _ _ = Ok _ |- _ => apply selection_Ok_inv, Hpop in Hs
  end.
  match goal with
  | Hc : crossover _ _ _ = Ok _ |- _ =>
      apply crossover_Ok_inv in Hc as [Hc1 Hc2]; [|congruence]
  end.
  match goal with
  | Hm : mutate c1 _ _ = Ok _ |- _ => apply mutate_Ok_inv in Hm as Hm1
  end.
  destruct faltan as [|faltan].
  { apply mret_Ok_inv in H as [-> _]. split; [done|].
    repeat constructor. congruence. }
  inv_run H. apply mret_Ok_inv in H as [-> _].
  match goal with
  | Hm : mutate c2 _ _ = Ok _ |- _ => apply mutate_Ok_inv in Hm as Hm2
  end.
  match goal with
  | Hr : Genetico.reproduccion _ _ _ _ _ _ = Ok _ |- _ =>
      apply IH in Hr as [<- Hresto]; [|lia]
  end.
  split; [done|]. repeat constructor; [congruence..|done].
Qed.

(** A tournament of three cannot be drawn from fewer than three. *)
Lemma reproduccion_Err pop faltan g :
  (length pop < 3)%nat → reproduccion pop (S faltan) g = Err ValueError.
Proof.
  intros Hpop. rewrite reproduccion_pareja. by apply bind_Err, selection_Err.
Qed.

Lemma mejora_global_Ok best_gen best_bins_gen st :
  (length best_gen ≤ length items)%nat →
  (length (best_overall st) ≤ length items)%nat →
  ∃ b, mejora_global items capacidad best_gen best_bins_gen st = Ok b.
Proof.
  intros H1 H2. unfold mejora_global.
  case_decide; [eauto|]. case_decide; [|eauto].
  destruct (fitness_Ok best_gen items capacidad H1) as [f1 ->].
  destruct (fitness_Ok (best_overall st) items capacidad H2) as [f2 ->].
  simpl. eauto.
Qed.

(** What one generation leaves behind. *)
Lemma generacion_Ok_inv st g st' romper g' :
  bien_formado items st →
  generacion st g = Ok ((st', romper), g') →
  bien_formado items st' ∧
  ∃ best_bins_gen,
    history_bins st' = history_bins st ++ [best_bins_gen] ∧
    (last_best_bins st', gens_without_change st', romper)
    = early_stopping patience_no_change (last_best_bins st)
        (gens_without_change st) best_bins_gen.
Proof.
  intros (Hpop & Hne & Hbest) H. unfold Genetico.generacion in H. inv_run H.
  repeat match goal with
  | Hl : lift _ _ = Ok _ |- _ => apply lift_Ok_inv in Hl as [Hl ->]
  end.
  match goal with
  | Hr : Genetico.reproduccion _ _ _ _ _ _ = Ok (?hijos, _),
    He : min_fitness _ _ (population st) = Ok ?elite,
    Hg : min_fitness _ _ (?elite :: ?hijos) = Ok ?best_gen |- _ =>
      apply reproduccion_Ok_inv in Hr as [_ Hhijos]; [|done];
      apply min_fitness_Ok_inv in He;
      apply min_fitness_Ok_inv in Hg;
      assert (Forall (λ v, length v = length items) (elite :: hijos)) as Hnew
        by (constructor; [by rewrite Forall_forall in Hpop; apply Hpop|done]);
      assert (length best_gen = length items) as Hlen1
        by (by rewrite Forall_forall in Hnew; apply Hnew)
  end.
  destruct (early_stopping _ _ _ _) as [[last sin] rom] eqn:Hes.
  apply mret_Ok_inv in H as [[= -> ->] _]. simpl. split.
  - split_and!; [done|done|]. simpl.
    match goal with |- context [if ?b then _ else _] => by destruct b end.
  - eexists. split; [done|]. by rewrite Hes.
Qed.

Lemma bucle_Ok_inv generations :
  ∀ st g st' g',
    bien_formado items st →
    bucle generations st g = Ok (st', g') →
    bien_formado items st'.
Proof.
  induction generations as [|n IH]; intros st g st' g' Hst H; simpl in H.
  { by apply mret_Ok_inv in H as [-> _]. }
  inv_run H. destruct a as [st1 romper].
  apply generacion_Ok_inv in Hrun as [Hst1 _]; [|done].
  destruct romper.
  - by apply mret_Ok_inv in H as [-> _].
  - by eapply IH.
Qed.

(** With more than one slot to fill and fewer than three individuals
    the first generation raises. *)
Lemma generacion_Err st g :
  bien_formado items st →
  (1 < population_size)%nat →
  (length (population st) < 3)%nat →
  generacion st g = Err ValueError.
Proof.
  intros (Hpop & Hne & Hbest) Hsize Hlen. unfold Genetico.generacion.
  destruct (min_fitness_Ok items capacidad (population st)) as [elite Helite].
  { done. }
  { eapply Forall_impl; [exact Hpop|]. simpl. intros. lia. }
  rewrite (bind_Ok _ _ _ _ _ (lift_Ok _ g _ Helite)).
  apply bind_Err.
  destruct population_size as [|[|n]]; [lia..|]. simpl.
  by apply reproduccion_Err.
Qed.

(** With a population of one the reproduction loop has nothing to do and
    a generation always completes. *)
Lemma generacion_uno st g :
  population_size = 1%nat →
  bien_formado items st →
  ∃ st' romper, generacion st g = Ok ((st', romper), g).
Proof.
  intros Hsize (Hpop & Hne & Hbest). unfold Genetico.generacion.
  destruct (min_fitness_Ok items capacidad (population st)) as [elite Helite].
  { done. }
  { eapply Forall_impl; [exact Hpop|]. simpl. intros. lia. }
  rewrite (bind_Ok _ _ _ _ _ (lift_Ok _ g _ Helite)).
  rewrite Hsize. simpl.
  apply min_fitness_Ok_inv in Helite as Hin.
  assert (length elite = length items) as Hlen.
  { rewrite Forall_forall in Hpop. by apply Hpop. }
  erewrite bind_Ok; [|reflexivity].
  destruct (min_fitness_Ok items capacidad [elite]) as [best_gen Hgen].
  { done. }
  { repeat constructor. lia. }
  rewrite (bind_Ok _ _ _ _ _ (lift_Ok _ g _ Hgen)).
  apply min_fitness_Ok_inv, list_elem_of_singleton in Hgen as ->.
  destruct (mejora_global_Ok elite (num_bins elite) st) as [b Hb]; [lia..|].
  rewrite (bind_Ok _ _ _ _ _ (lift_Ok _ g _ Hb)).
  destruct (early_stopping _ _ _ _) as [[last sin] rom]. by eexists _, _.
Qed.

Lemma bucle_uno generations :
  population_size = 1%nat →
  ∀ st g, bien_formado items st → ∃ st', bucle generations st g = Ok (st', g).
Proof.
  intros Hsize. induction generations as [|n IH]; intros st g Hst; simpl.
  { by eexists. }
  destruct (generacion_uno st g Hsize Hst) as (st1 & romper & Hgen).
  rewrite (bind_Ok _ _ _ _ _ Hgen).
  destruct romper; [by eexists|].
  apply IH. by apply generacion_Ok_inv in Hgen as [? _].
Qed.

End bucle_generaciones.


(** ** Early stopping *)

Lemma generaciones_sin_cambio_snoc history b :
  generaciones_sin_cambio (history ++ [b])
  = match last history with
    | Some a => if decide (b = a) then S (generaciones_sin_cambio history) else 0%nat
    | None => 0%nat
    end.
Proof.
  unfold generaciones_sin_cambio. rewrite reverse_snoc, <- head_reverse.
  by destruct (reverse history).
Qed.

(** The early-stopping block keeps the counter equal to the number of
    generations without change and breaks when it reaches the patience. *)
Lemma early_stopping_spec patience history b :
  (1 ≤ patience)%nat →
  early_stopping patience (last history) (generaciones_sin_cambio history) b
  = (Some b, generaciones_sin_cambio (history ++ [b]),
     bool_decide (patience ≤ generaciones_sin_cambio (history ++ [b]))%nat).
Proof.
  intros Hp. unfold early_stopping. rewrite generaciones_sin_cambio_snoc.
  destruct (last history) as [a|].
  - destruct (decide (b = a)) as [->|Hne].
    + rewrite decide_False; [done|]. intros [|]; done.
    + rewrite decide_True by (right; congruence).
      by rewrite bool_decide_eq_false_2 by lia.
  - rewrite decide_True by (by left). by rewrite bool_decide_eq_false_2 by lia.
Qed.

Section historia.

Context (items : list Z) (capacidad : Z).
Context (population_size : nat) (mutation_rate : Q) (patience_no_change : nat).
Hypothesis paciencia_positiva : (1 ≤ patience_no_change)%nat.

Local Abbreviation bucle :=
  (bucle items capacidad population_size mutation_rate patience_no_change).

(** The loop adds one entry per generation, runs on while the count of
    generations without change is below the patience, and stops short of
    its budget only when that count has reached the patience. *)
Lemma bucle_historia generations :
  ∀ st g st' g',
    bien_formado items st →
    last_best_bins st = last (history_bins st) →
    gens_without_change st = generaciones_sin_cambio (history_bins st) →
    (generaciones_sin_cambio (history_bins st) < patience_no_change)%nat →
    bucle generations st g = Ok (st', g') →
    ∃ nuevas,
      history_bins st' = history_bins st ++ nuevas ∧
      (length nuevas ≤ generations)%nat ∧
      (∀ t, (length (history_bins st) ≤ t < length (history_bins st'))%nat →
            (generaciones_sin_cambio (take t (history_bins st')) < patience_no_change)%nat) ∧
      ((length nuevas < generations)%nat →
       (patience_no_change ≤ generaciones_sin_cambio (history_bins st'))%nat).
Proof.
  induction generations as [|n IH]; intros st g st' g' Hst Hlast Hsin Hlt H;
    simpl in H.
  { apply mret_Ok_inv in H as [-> _]. exists []. rewrite app_nil_r.
    split_and!; [done|done|intros; lia|simpl; lia]. }
  inv_run H.
  match type of H with context [let '(_, _) := ?p in _] => destruct p as [st1 romper] end.
  match goal with
  | Hg : Genetico.generacion _ _ _ _ _ _ _ = Ok _ |- _ =>
      apply generacion_Ok_inv in Hg as (Hst1 & b & Hh1 & Hes); [|done]
  end.
  rewrite Hlast, Hsin, early_stopping_spec in Hes by done.
  injection Hes as Hlast1 Hsin1 Hrom. rewrite <- Hh1 in Hsin1, Hrom.
  assert (∀ t, (length (history_bins st) ≤ t < S (length (history_bins st)))%nat →
          (generaciones_sin_cambio (take t (history_bins st1)) < patience_no_change)%nat)
    as Hprimero.
  { intros t Ht. assert (t = length (history_bins st)) as -> by lia.
    by rewrite Hh1, take_app_length. }
  destruct romper.
  - apply mret_Ok_inv in H as [-> _]. exists [b].
    symmetry in Hrom. apply bool_decide_eq_true in Hrom.
    split_and!; [done|simpl; lia| |done].
    intros t Ht. apply Hprimero. rewrite Hh1, length_app in Ht. simpl in Ht. lia.
  - symmetry in Hrom. apply bool_decide_eq_false in Hrom.
    eapply IH in H as (nuevas & Hh & Hlen & Hantes & Hcorte);
      [|done|by rewrite Hlast1, Hh1, last_snoc|done|lia].
    exists (b :: nuevas). rewrite Hh, Hh1, <- app_assoc. split_and!.
    + done.
    + simpl. lia.
    + intros t Ht.
      destruct (decide (t = length (history_bins st))) as [->|Hne].
      * rewrite take_app_length. done.
      * rewrite app_assoc, <- Hh1, <- Hh. apply Hantes.
        rewrite Hh1 at 1. rewrite length_app. simpl.
        assert (length (history_bins st')
                = length (history_bins st ++ [b] ++ nuevas)) as Hl
          by (by rewrite Hh, Hh1, <- app_assoc).
        lia.
    + intros Hl. simpl in Hl. rewrite app_assoc, <- Hh1, <- Hh. apply Hcorte. lia.
Qed.

End historia.

(** ** The genetic solver as a whole *)

Section solver.

Context (sembrar : Z → rng) (items : list Z) (capacidad : Z).
Context (population_size generations : nat) (mutation_rate : Q).
Context (seed : option Z) (patience_no_change : nat).

Local Abbreviation genetic_algorithm_bpp :=
  (genetic_algorithm_bpp sembrar items capacidad population_size generations
     mutation_rate seed patience_no_change).

Lemma semilla_Ok (g : rng) :
  ∃ g', (match seed with
         | Some s => λ _, Ok (tt, sembrar s)
         | None => mret tt
         end : M unit) g = Ok (tt, g').
Proof. destruct seed; by eexists. Qed.

Lemma estado_inicial_bien_formado poblacion mejor g g' :
  generate_population (length items) population_size g = Ok (poblacion, g') →
  min_fitness items capacidad poblacion = Ok mejor →
  bien_formado items (Estado poblacion [] mejor (num_bins mejor) None 0%nat).
Proof.
  intros [_ Hpop]%generate_population_Ok_inv Hmejor.
  split_and!; simpl; [done|by destruct poblacion|].
  apply min_fitness_Ok_inv in Hmejor. rewrite Forall_forall in Hpop. by apply Hpop.
Qed.

(** What a returned result is made of. *)
Lemma genetic_algorithm_bpp_Ok_inv g k cajas best history g' :
  genetic_algorithm_bpp g = Ok ((k, cajas, best, history), g') →
  length best = length items ∧
  decodificar_bins best items = Ok cajas ∧
  k = length cajas ∧
  ((1 ≤ patience_no_change)%nat →
   (length history ≤ generations)%nat ∧
   (∀ t, (t < length history)%nat →
         (generaciones_sin_cambio (take t history) < patience_no_change)%nat) ∧
   ((length history < generations)%nat →
    (patience_no_change ≤ generaciones_sin_cambio history)%nat)).
Proof.
  intros H. unfold Genetico.genetic_algorithm_bpp in H. inv_run H.
  repeat match goal with
  | Hl : lift _ _ = Ok _ |- _ => apply lift_Ok_inv in Hl as [Hl ->]
  end.
  apply mret_Ok_inv in H as [[= -> -> -> ->] _].
  match goal with
  | Hp : generate_population _ _ _ = Ok (?pop, _),
    Hm : min_fitness _ _ ?pop = Ok _ |- _ =>
      pose proof (estado_inicial_bien_formado _ _ _ _ Hp Hm) as Hini
  end.
  match goal with
  | Hb : Genetico.bucle _ _ _ _ _ _ _ _ = Ok (?st, _) |- _ =>
      pose proof (bucle_Ok_inv _ _ _ _ _ _ _ _ _ _ Hini Hb) as (Hpop & _ & Hbest);
      rename Hb into Hbucle
  end.
  match goal with
  | Hm : min_fitness _ _ (_ :: _) = Ok _ |- _ =>
      apply min_fitness_Ok_inv in Hm; rename Hm into Hfinal
  end.
  split_and!; [|done|done|].
  - apply elem_of_cons in Hfinal as [->|Hfinal]; [done|].
    rewrite Forall_forall in Hpop. by apply Hpop.
  - intros Hp.
    eapply bucle_historia in Hbucle as (nuevas & Hh & Hlen & Hantes & Hcorte);
      [|done|done|done|done|simpl; unfold generaciones_sin_cambio; simpl; lia].
    simpl in Hh. rewrite Hh in *. split_and!; [done| |done].
    intros t Ht. apply Hantes. simpl. lia.
Qed.

(** The returned bins hold every item exactly once. *)
Lemma genetic_algorithm_bpp_reparte g k cajas best history g' :
  genetic_algorithm_bpp g = Ok ((k, cajas, best, history), g') →
  reparte items cajas.
Proof.
  intros (Hlen & Hdec & _)%genetic_algorithm_bpp_Ok_inv.
  destruct (decodificar_bins_reparte best items Hlen) as (cajas' & Hdec' & _ & Hr).
  congruence.
Qed.

(** The returned bins are within capacity exactly when the returned
    vector carries no overflow penalty. *)
Lemma genetic_algorithm_bpp_factible g k cajas best history g' :
  genetic_algorithm_bpp g = Ok ((k, cajas, best, history), g') →
  factible capacidad cajas ↔ fitness best items capacidad = Ok (Z.of_nat k).
Proof.
  intros (Hlen & Hdec & -> & _)%genetic_algorithm_bpp_Ok_inv.
  rewrite decodificar_bins_grupos in Hdec by lia. injection Hdec as <-.
  rewrite length_fmap, length_etiquetas. symmetry. apply fitness_factible. lia.
Qed.

(** Two individuals are too few for a tournament of three. *)
Lemma genetic_algorithm_bpp_dos g :
  population_size = 2%nat → (1 ≤ generations)%nat →
  genetic_algorithm_bpp g = Err ValueError.
Proof.
  intros Hsize Hgen. unfold Genetico.genetic_algorithm_bpp.
  destruct (semilla_Ok g) as (g1 & Hseed). rewrite (bind_Ok _ _ _ _ _ Hseed).
  destruct (generate_population_Ok (length items) population_size g1)
    as (pop & g2 & Hpop).
  rewrite (bind_Ok _ _ _ _ _ Hpop).
  pose proof (generate_population_Ok_inv _ _ _ _ _ Hpop) as [Hlen Hforall].
  destruct (min_fitness_Ok items capacidad pop) as [mejor Hmejor].
  { destruct pop; simpl in *; [lia|done]. }
  { eapply Forall_impl; [exact Hforall|]. simpl. intros. lia. }
  rewrite (bind_Ok _ _ _ _ _ (lift_Ok _ g2 _ Hmejor)).
  apply bind_Err. destruct generations as [|n]; [lia|]. simpl.
  apply bind_Err, generacion_Err.
  - by eapply estado_inicial_bien_formado.
  - lia.
  - simpl. lia.
Qed.

(** A population of one never raises. *)
Lemma genetic_algorithm_bpp_uno g :
  population_size = 1%nat → ∃ r g', genetic_algorithm_bpp g = Ok (r, g').
Proof.
  intros Hsize. unfold Genetico.genetic_algorithm_bpp.
  destruct (semilla_Ok g) as (g1 & Hseed). rewrite (bind_Ok _ _ _ _ _ Hseed).
  destruct (generate_population_Ok (length items) population_size g1)
    as (pop & g2 & Hpop).
  rewrite (bind_Ok _ _ _ _ _ Hpop).
  pose proof (generate_population_Ok_inv _ _ _ _ _ Hpop) as [Hlen Hforall].
  destruct (min_fitness_Ok items capacidad pop) as [mejor Hmejor].
  { destruct pop; simpl in *; [lia|done]. }
  { eapply Forall_impl; [exact Hforall|]. simpl. intros. lia. }
  rewrite (bind_Ok _ _ _ _ _ (lift_Ok _ g2 _ Hmejor)).
  pose proof (estado_inicial_bien_formado _ _ _ _ Hpop Hmejor) as Hini.
  destruct (bucle_uno items capacidad population_size mutation_rate
              patience_no_change generations Hsize _ g2 Hini) as (st & Hst).
  rewrite (bind_Ok _ _ _ _ _ Hst).
  apply bucle_Ok_inv in Hst as (Hpopst & Hne & Hbest); [|done].
  destruct (min_fitness_Ok items capacidad (best_overall st :: population st))
    as [best Hfinal].
  { done. }
  { constructor; [lia|]. eapply Forall_impl; [exact Hpopst|]. simpl. intros. lia. }
  rewrite (bind_Ok _ _ _ _ _ (lift_Ok _ g2 _ Hfinal)).
  assert (length best = length items) as Hlenb.
  { apply min_fitness_Ok_inv, elem_of_cons in Hfinal as [->|Hin]; [done|].
    rewrite Forall_forall in Hpopst. by apply Hpopst. }
  destruct (decodificar_bins_reparte best items Hlenb) as (cajas & Hdec & _).
  rewrite (bind_Ok _ _ _ _ _ (lift_Ok _ g2 _ Hdec)). by eexists _, _.
Qed.

(** With no items, a population that allows tournaments and a mutation
    that always fires, the first child cannot be mutated. *)
Lemma genetic_algorithm_bpp_vacio g :
  items = [] → (3 ≤ population_size)%nat → (1 ≤ generations)%nat →
  (1 <= mutation_rate)%Q →
  genetic_algorithm_bpp g = Err ValueError.
Proof.
  intros Hitems Hsize Hgen Hrate. unfold Genetico.genetic_algorithm_bpp.
  destruct (semilla_Ok g) as (g1 & Hseed). rewrite (bind_Ok _ _ _ _ _ Hseed).
  destruct (generate_population_Ok (length items) population_size g1)
    as (pop & g2 & Hpop).
  rewrite (bind_Ok _ _ _ _ _ Hpop).
  pose proof (generate_population_Ok_inv _ _ _ _ _ Hpop) as [Hlen Hforall].
  assert (Forall (λ v, length v ≤ length items)%nat pop) as Hle.
  { eapply Forall_impl; [exact Hforall|]. simpl. intros. lia. }
  destruct (min_fitness_Ok items capacidad pop) as [mejor Hmejor]; [|done|].
  { destruct pop; simpl in *; [lia|done]. }
  rewrite (bind_Ok _ _ _ _ _ (lift_Ok _ g2 _ Hmejor)).
  apply bind_Err. destruct generations as [|n]; [lia|]. simpl.
  apply bind_Err. unfold Genetico.generacion. simpl.
  destruct (min_fitness_Ok items capacidad pop) as [elite Helite]; [|done|].
  { destruct pop; simpl in *; [lia|done]. }
  rewrite (bind_Ok _ _ _ _ _ (lift_Ok _ g2 _ Helite)).
  apply bind_Err.
  destruct population_size as [|[|m]]; [lia..|]. simpl.
  destruct (selection_Ok pop items capacidad 3 g2) as (p1 & g3 & Hp1); [lia|done|].
  rewrite (bind_Ok _ _ _ _ _ Hp1).
  destruct (selection_Ok pop items capacidad 3 g3) as (p2 & g4 & Hp2); [lia|done|].
  rewrite (bind_Ok _ _ _ _ _ Hp2).
  apply selection_Ok_inv in Hp1, Hp2. rewrite Forall_forall in Hforall.
  apply Hforall in Hp1, Hp2. rewrite Hitems in Hp1, Hp2. simpl in *.
  destruct p1, p2; try done.
  rewrite (bind_Ok _ _ _ _ _ (crossover_corto [] [] g4 ltac:(simpl; lia))).
  by apply bind_Err, mutate_vacio.
Qed.

End solver.


(** ** The bound estimator and the heuristics *)

(** [ceil_div] is the ceiling of the quotient. *)
Lemma ceil_div_spec a b :
  0 < b → b * (ceil_div a b - 1) < a ≤ b * ceil_div a b.
Proof.
  intros Hb. unfold ceil_div.
  pose proof (Z.mul_div_le (- a) b Hb).
  pose proof (Z.mul_succ_div_gt (- a) b Hb). lia.
Qed.

Lemma heuristicos_cota_inferior alg capacidad objetos :
  alg ∈ heuristicos →
  0 < capacidad →
  Forall (λ x, x ≤ capacidad) objetos →
  ceil_div (pysum objetos) capacidad ≤ Z.of_nat (alg capacidad objetos).1.
Proof.
  intros Halg Hcap Hobj.
  destruct (heuristicos_completa alg capacidad objetos Halg) as [-> _].
  apply valido_cota_inferior; [done|]. by apply heuristicos_valido.
Qed.

(** C2 (amended): for a positive capacity, positive sizes none of which
    exceeds the capacity, and capacity and total size below [2^53],
    [minimo_teorico] returns the ceiling of the total size over the
    capacity, through the double of the code as on exact integers; the
    bin count of each of the five heuristics is at least that
    number, and so is the number of bins of any valid packing. *)
Theorem C2_greedy_at_least_theoretical_minimum capacidad objetos :
  0 < capacidad < 2 ^ 53 →
  Forall (λ x, 0 < x ∧ x ≤ capacidad) objetos →
  pysum objetos < 2 ^ 53 →
  ∃ m,
    minimo_teorico capacidad objetos = Ok m ∧
    minimo_teorico_doble capacidad objetos = Ok m ∧
    capacidad * (m - 1) < pysum objetos ≤ capacidad * m ∧
    (∀ alg, alg ∈ heuristicos → m ≤ Z.of_nat (alg capacidad objetos).1) ∧
    (∀ cajas, empaquetado_valido capacidad objetos cajas →
              m ≤ Z.of_nat (length cajas)).
Proof.
  intros Hcap Hobj Hsuma.
  assert (Forall (λ x, x ≤ capacidad) objetos) as Hle
    by (eapply Forall_impl; [exact Hobj|]; simpl; intros; lia).
  assert (0 ≤ pysum objetos) as Hpos.
  { apply pysum_nonneg. eapply Forall_impl; [exact Hobj|]. simpl. intros. lia. }
  exists (ceil_div (pysum objetos) capacidad). split_and!.
  - unfold minimo_teorico. rewrite decide_False by lia. done.
  - unfold minimo_teorico_doble. apply ceil_true_div_exacto; lia.
  - apply ceil_div_spec. lia.
  - apply ceil_div_spec. lia.
  - intros alg Halg. apply heuristicos_cota_inferior; [done|lia|done].
  - intros cajas Hcajas. apply valido_cota_inferior; [lia|done].
Qed.

Lemma C2_greedy_at_least_theoretical_minimum_witness :
  0 < 10 < 2 ^ 53 ∧ Forall (λ x, 0 < x ∧ x ≤ 10) [6; 5; 4; 3] ∧
  pysum [6; 5; 4; 3] < 2 ^ 53 ∧
  ∃ m,
    minimo_teorico 10 [6; 5; 4; 3] = Ok m ∧
    minimo_teorico_doble 10 [6; 5; 4; 3] = Ok m ∧
    10 * (m - 1) < pysum [6; 5; 4; 3] ≤ 10 * m ∧
    (∀ alg, alg ∈ heuristicos → m ≤ Z.of_nat (alg 10 [6; 5; 4; 3]).1) ∧
    (∀ cajas, empaquetado_valido 10 [6; 5; 4; 3] cajas →
              m ≤ Z.of_nat (length cajas)).
Proof.
  assert (0 < 10 < 2 ^ 53) as H1 by (simpl; lia).
  assert (Forall (λ x, 0 < x ∧ x ≤ 10) [6; 5; 4; 3]) as H2
    by (repeat constructor; lia).
  assert (pysum [6; 5; 4; 3] < 2 ^ 53) as H3 by (simpl; lia).
  exact (conj H1 (conj H2 (conj H3
    (C2_greedy_at_least_theoretical_minimum 10 [6; 5; 4; 3] H1 H2 H3)))).
Defined.

(** C2 as stated fails for an item larger than the capacity: Next Fit
    packs the single item 7 into one bin of capacity 5, below the
    theoretical minimum 2. *)
Lemma C2_greedy_below_theoretical_minimum :
  0 < 5 ∧ Forall (λ x, 0 < x) [7] ∧
  ¬ (∀ alg m, alg ∈ heuristicos → minimo_teorico 5 [7] = Ok m →
              m ≤ Z.of_nat (alg 5 [7]).1).
Proof.
  split; [lia|]. split; [repeat constructor; lia|]. intros H.
  specialize (H next_fit 2). simpl in H.
  assert (2 ≤ 1); [|lia]. apply H; [left|done].
Qed.

(** C4 (amended): for a positive capacity and positive sizes none of
    which exceeds the capacity, no bin returned by the five heuristics
    or by [resultado_optimo] exceeds the capacity. *)
Theorem C4_bins_within_capacity capacidad objetos :
  0 < capacidad →
  Forall (λ x, 0 < x ∧ x ≤ capacidad) objetos →
  (∀ alg, alg ∈ heuristicos → factible capacidad (alg capacidad objetos).2) ∧
  (∃ m cajas, resultado_optimo capacidad objetos = Ok (m, cajas) ∧
              factible capacidad cajas).
Proof.
  intros Hcap Hobj.
  assert (Forall (λ x, x ≤ capacidad) objetos) as Hle
    by (eapply Forall_impl; [exact Hobj|]; simpl; intros; lia).
  split.
  - intros alg Halg. by apply heuristicos_valido.
  - destruct (resultado_optimo_spec capacidad objetos Hcap Hobj)
      as (m & cajas & Hres & _ & [_ Hf] & _).
    eauto.
Qed.

Lemma C4_bins_within_capacity_witness :
  0 < 10 ∧ Forall (λ x, 0 < x ∧ x ≤ 10) [6; 5; 4; 3] ∧
  (∀ alg, alg ∈ heuristicos → factible 10 (alg 10 [6; 5; 4; 3]).2) ∧
  (∃ m cajas, resultado_optimo 10 [6; 5; 4; 3] = Ok (m, cajas) ∧
              factible 10 cajas).
Proof.
  assert (0 < 10) as H1 by lia.
  assert (Forall (λ x, 0 < x ∧ x ≤ 10) [6; 5; 4; 3]) as H2
    by (repeat constructor; lia).
  exact (conj H1 (conj H2 (C4_bins_within_capacity 10 [6; 5; 4; 3] H1 H2))).
Defined.

(** C4 as stated fails for an item larger than the capacity: both Next
    Fit and the exact solver return the bin [7] for capacity 5. *)
Lemma C4_bin_over_capacity :
  0 < 5 ∧ Forall (λ x, 0 < x) [7] ∧
  ¬ (∀ alg, alg ∈ heuristicos → factible 5 (alg 5 [7]).2) ∧
  ¬ (∃ m cajas, resultado_optimo 5 [7] = Ok (m, cajas) ∧ factible 5 cajas).
Proof.
  split; [lia|]. split; [repeat constructor; lia|]. split.
  - intros H. specialize (H next_fit). simpl in H.
    assert (factible 5 [[7]]) as Hf by (apply H; left).
    inversion_clear Hf as [|? ? H7 _]. simpl in H7. lia.
  - intros (m & cajas & Hres & Hf). vm_compute in Hres. simplify_eq.
    inversion_clear Hf as [|? ? H7 _]. simpl in H7. lia.
Qed.

(** C6 as stated fails: for capacity 7 and items 3, 2, 2, 3, 2, 2 First
    Fit and Best Fit use 2 bins, their decreasing variants 3. *)
Lemma C6_decreasing_can_be_worse :
  0 < 7 ∧ Forall (λ x, 0 < x) [3; 2; 2; 3; 2; 2] ∧
  ¬ ((first_fit_decreasing 7 [3; 2; 2; 3; 2; 2]%Z).1
     ≤ (first_fit 7 [3; 2; 2; 3; 2; 2]%Z).1)%nat ∧
  ¬ ((best_fit_decreasing 7 [3; 2; 2; 3; 2; 2]%Z).1
     ≤ (best_fit 7 [3; 2; 2; 3; 2; 2]%Z).1)%nat.
Proof.
  split; [lia|]. split; [repeat constructor; lia|].
  split; vm_compute; intros H; lia.
Qed.


(** ** Feasibility of the genetic solver's packing *)

(** C5 (amended): the genetic solver checks nothing after decoding; the
    bins it returns are within capacity exactly when the vector it
    returns carries no overflow penalty, that is when the fitness of the
    vector equals the returned bin count. *)
Theorem C5_genetic_feasible_iff_no_penalty sembrar capacidad objetos
    population_size generations mutation_rate seed patience_no_change
    g k cajas best history g' :
  0 < capacidad →
  Forall (λ x, 0 < x) objetos →
  genetic_algorithm_bpp sembrar objetos capacidad population_size generations
    mutation_rate seed patience_no_change g = Ok ((k, cajas, best, history), g') →
  factible capacidad cajas ↔ fitness best objetos capacidad = Ok (Z.of_nat k).
Proof. intros _ _. apply genetic_algorithm_bpp_factible. Qed.

Lemma C5_genetic_feasible_iff_no_penalty_witness :
  0 < 5 ∧ Forall (λ x, 0 < x) [5] ∧
  genetic_algorithm_bpp (λ _ _, 0%N) [5] 5 1 1 (0 # 1) None 1 (λ _, 0%N)
  = Ok ((1%nat, [[5]], [0], [1%nat]), λ _, 0%N) ∧
  (factible 5 [[5]] ↔ fitness [0] [5] 5 = Ok (Z.of_nat 1)).
Proof.
  assert (0 < 5) as H1 by lia.
  assert (Forall (λ x, 0 < x) [5]) as H2 by (repeat constructor; lia).
  assert (genetic_algorithm_bpp (λ _ _, 0%N) [5] 5 1 1 (0 # 1) None 1 (λ _, 0%N)
          = Ok ((1%nat, [[5]], [0], [1%nat]), λ _, 0%N)) as H3
    by (vm_compute; reflexivity).
  exact (conj H1 (conj H2 (conj H3
    (C5_genetic_feasible_iff_no_penalty _ _ _ _ _ _ _ _ _ _ _ _ _ _ H1 H2 H3)))).
Defined.

Lemma concat_singleton_inv (cajas : list (list Z)) x :
  concat cajas = [x] → [x] ∈ cajas.
Proof.
  induction cajas as [|caja cajas IH]; simpl; [done|].
  destruct caja as [|y [|z caja]]; simpl.
  - intros H. right. by apply IH.
  - intros [= -> _]. left.
  - by intros [=].
Qed.

(** C5 as stated fails: for the single item 7 and capacity 5 the solver,
    run with a population of one, returns a bin of total 7 whatever the
    random source and the seed are. *)
Lemma C5_genetic_bin_over_capacity :
  0 < 5 ∧ Forall (λ x, 0 < x) [7] ∧
  ∀ sembrar seed g,
    ∃ k cajas best history g',
      genetic_algorithm_bpp sembrar [7] 5 1 1 (1 # 10) seed 50 g
      = Ok ((k, cajas, best, history), g') ∧
      ¬ factible 5 cajas.
Proof.
  split; [lia|]. split; [repeat constructor; lia|]. intros sembrar seed g.
  destruct (genetic_algorithm_bpp_uno sembrar [7] 5 1 1 (1 # 10) seed 50 g)
    as ([[[k cajas] best] history] & g' & Hrun); [done|].
  exists k, cajas, best, history, g'. split; [done|]. intros Hf.
  apply genetic_algorithm_bpp_reparte in Hrun.
  apply Permutation_singleton_r, concat_singleton_inv in Hrun.
  unfold factible in Hf. rewrite Forall_forall in Hf.
  apply Hf in Hrun. simpl in Hrun. lia.
Qed.

(** Sizes within the capacity do not help: a population of one whose
    three labels are drawn equal puts the three items into one bin. *)
Example genetic_bin_over_capacity_small_items :
  genetic_algorithm_bpp (λ _ _, 0%N) [3; 3; 3] 5 1 1 (1 # 10) (Some 1) 50 (λ _, 0%N)
  = Ok ((1%nat, [[3; 3; 3]], [0; 0; 0], [1%nat]), λ _, 0%N).
Proof. vm_compute. reflexivity. Qed.


(** ** Empty input *)

(** When the genetic solver returns on the empty item list, it returns
    zero bins. *)
Lemma genetic_algorithm_bpp_vacio_Ok sembrar capacidad population_size
    generations mutation_rate seed patience_no_change g k cajas best history g' :
  genetic_algorithm_bpp sembrar [] capacidad population_size generations
    mutation_rate seed patience_no_change g = Ok ((k, cajas, best, history), g') →
  k = 0%nat ∧ cajas = [] ∧ best = [].
Proof.
  intros (Hlen & Hdec & -> & _)%genetic_algorithm_bpp_Ok_inv.
  destruct best; [|done]. vm_compute in Hdec. by simplify_eq.
Qed.

(** C7: on the empty item list the five heuristics and the exact solver
    return zero bins and an empty packing for every capacity; the
    genetic solver does not: with a population of three, one generation
    and mutation rate 1 it raises [ValueError] whatever the random
    source, the seed and the patience are. *)
Theorem C7_empty_input capacidad :
  (∀ alg, alg ∈ heuristicos → alg capacidad [] = (0%nat, [])) ∧
  resultado_optimo capacidad [] = Ok (Fin 0, []) ∧
  (∀ sembrar seed patience_no_change g,
     genetic_algorithm_bpp sembrar [] capacidad 3 1 (1 # 1) seed
       patience_no_change g = Err ValueError).
Proof.
  split_and!.
  - unfold heuristicos. intros alg.
    rewrite !elem_of_cons, elem_of_nil.
    intros [->|[->|[->|[->|[->|[]]]]]]; done.
  - done.
  - intros sembrar seed p g.
    apply genetic_algorithm_bpp_vacio; [done|lia|lia|apply Qle_refl].
Qed.

(** ** Crossover *)

(** C8: [crossover] guards only lengths below two, so for parents of
    length two the cut point is drawn from the empty range 1..0 and the
    call raises [ValueError] instead of returning two children. *)
Theorem C8_crossover_of_two_genes_raises (a b : Z) (parent2 : list Z) (g : rng) :
  crossover [a; b] parent2 g = Err ValueError.
Proof. by apply crossover_dos. Qed.

(** ** Early stopping *)

(** The counter follows the spec's wording on a history with a change:
    after 4, 4, 3, 3, 3 two generations in a row repeat the count of the
    generation before. *)
Example generaciones_sin_cambio_example :
  generaciones_sin_cambio [4; 4; 3; 3; 3]%nat = 2%nat ∧
  generaciones_sin_cambio [4; 4; 3]%nat = 0%nat ∧
  generaciones_sin_cambio [4; 4]%nat = 1%nat.
Proof. done. Qed.

(** ** Population size *)

(** C10: with a population of two, at least one item and at least one
    generation the tournament of three raises [ValueError]; with a
    population of one the reproduction loop does not run and the call
    returns. *)
Theorem C10_population_of_two_raises sembrar items capacidad generations
    mutation_rate seed patience_no_change g :
  items ≠ [] →
  (1 ≤ generations)%nat →
  genetic_algorithm_bpp sembrar items capacidad 2 generations mutation_rate
    seed patience_no_change g = Err ValueError ∧
  ∃ r g', genetic_algorithm_bpp sembrar items capacidad 1 generations
            mutation_rate seed patience_no_change g = Ok (r, g').
Proof.
  intros _ Hgen. split.
  - by apply genetic_algorithm_bpp_dos.
  - by apply genetic_algorithm_bpp_uno.
Qed.

Lemma C10_population_of_two_raises_witness :
  [4] ≠ [] ∧ (1 ≤ 1)%nat ∧
  genetic_algorithm_bpp (λ _ _, 0%N) [4] 10 2 1 (1 # 10) (Some 42) 50 (λ _, 0%N)
  = Err ValueError ∧
  ∃ r g', genetic_algorithm_bpp (λ _ _, 0%N) [4] 10 1 1 (1 # 10) (Some 42) 50
            (λ _, 0%N) = Ok (r, g').
Proof.
  assert ([4] ≠ @nil Z) as H1 by done.
  assert (1 ≤ 1)%nat as H2 by lia.
  exact (conj H1 (conj H2
    (C10_population_of_two_raises (λ _ _, 0%N) [4] 10 1 (1 # 10) (Some 42) 50
       (λ _, 0%N) H1 H2))).
Defined.

(** The solver on the GA scenario of the specification, for one
    concrete stream of draws. *)
Example genetic_algorithm_bpp_example :
  let g : rng := λ i, ((N.of_nat i * 7919 + 13) `mod` 1009)%N in
  ∃ history g',
    genetic_algorithm_bpp (λ _, g) [5; 5; 5; 5] 10 20 50 (1 # 10) (Some 1) 50 g
    = Ok ((2%nat, [[5; 5]; [5; 5]], [3; 0; 0; 3], history), g').
Proof. intros g. eexists _, _. vm_compute. reflexivity. Qed.


(** * Further properties of the heuristics *)

(** ** When a bin is opened *)

Lemma next_fit_step_casos capacidad cajas x ultima :
  last cajas = Some ultima →
  (pysum ultima + x ≤ capacidad ∧
   next_fit_step capacidad cajas x
   = alter (λ c, c ++ [x]) (pred (length cajas)) cajas) ∨
  (capacidad < pysum ultima + x ∧
   next_fit_step capacidad cajas x = cajas ++ [[x]]).
Proof.
  intros Hl. unfold next_fit_step. rewrite Hl.
  case_decide; [left|right]; split; (done || lia).
Qed.

Lemma first_fit_place_None capacidad x cajas :
  first_fit_place capacidad x cajas = None ↔
  Forall (λ c, capacidad < pysum c + x) cajas.
Proof.
  induction cajas as [|c cajas IH]; simpl; [done|].
  rewrite Forall_cons, <- IH. case_decide.
  - split; [done|]. lia.
  - destruct (first_fit_place capacidad x cajas); simpl; split; try done.
    + by intros [_ ?].
    + intros _. split; [lia|done].
Qed.

(** The [break] of First Fit: the bin that takes the item is the first
    one with room. *)
Lemma first_fit_place_primero capacidad x cajas i caja :
  cajas !! i = Some caja →
  pysum caja + x ≤ capacidad →
  (∀ j c, (j < i)%nat → cajas !! j = Some c → capacidad < pysum c + x) →
  first_fit_place capacidad x cajas = Some (alter (λ c, c ++ [x]) i cajas).
Proof.
  revert i. induction cajas as [|c cajas IH]; intros i Hi Hcabe Hantes; [done|].
  simpl. destruct i as [|i]; simplify_eq/=.
  - by rewrite decide_True.
  - assert (capacidad < pysum c + x) as H0 by (apply (Hantes 0%nat); [lia|done]).
    rewrite decide_False by lia.
    rewrite (IH i); [done|done|done|].
    intros j c' Hj Hc'. apply (Hantes (S j)); [lia|done].
Qed.

Lemma best_fit_scan_snoc capacidad x cajas c :
  best_fit_scan capacidad x (cajas ++ [c])
  = best_fit_scan_step capacidad x (best_fit_scan capacidad x cajas)
      (length cajas, c).
Proof.
  unfold best_fit_scan. by rewrite imap_pair_snoc, fold_left_app.
Qed.

(** The scan of Best Fit over bins of non-negative content: either no bin
    has room, or the chosen bin has room, no bin with room has less space
    left, and no earlier bin with room has as little. *)
Lemma best_fit_scan_spec capacidad x cajas :
  Forall (λ c, 0 ≤ pysum c) cajas →
  (best_fit_scan capacidad x cajas = (None, capacidad + 1) ∧
   Forall (λ c, capacidad < pysum c + x) cajas) ∨
  (∃ i caja,
     best_fit_scan capacidad x cajas = (Some i, capacidad - pysum caja) ∧
     cajas !! i = Some caja ∧ pysum caja + x ≤ capacidad ∧
     ∀ j c, cajas !! j = Some c → pysum c + x ≤ capacidad →
            pysum c < pysum caja ∨ (pysum c = pysum caja ∧ (i ≤ j)%nat)).
Proof.
  induction cajas as [|c cajas IH] using rev_ind; intros Hpos.
  { left. split; [done|constructor]. }
  apply Forall_app in Hpos as [Hpos Hc]. inversion_clear Hc as [|? ? Hc0 _].
  rewrite best_fit_scan_snoc.
  destruct (IH Hpos) as [[-> Hno]|(i & caja & -> & Hi & Hcabe & Hmin)];
    unfold best_fit_scan_step; simpl.
  - case_decide as Hd.
    + right. exists (length cajas), c. split_and!; [done| |lia|].
      * by rewrite list_lookup_middle.
      * intros j c' Hj Hc'. apply lookup_app_Some in Hj as [Hj|[Hlen Hj]].
        -- rewrite Forall_forall in Hno.
           apply list_elem_of_lookup_2, Hno in Hj. lia.
        -- apply list_lookup_singleton_Some in Hj as [Hj ->]. right. split; [done|lia].
    + left. split; [done|]. apply Forall_app. split; [done|].
      repeat constructor. lia.
  - apply lookup_lt_Some in Hi as Hlt.
    case_decide as Hd.
    + right. exists (length cajas), c. split_and!; [done| |lia|].
      * by rewrite list_lookup_middle.
      * intros j c' Hj Hc'. apply lookup_app_Some in Hj as [Hj|[Hlen Hj]].
        -- destruct (Hmin j c' Hj Hc') as [?|[? ?]]; left; lia.
        -- apply list_lookup_singleton_Some in Hj as [Hj ->]. right. split; [done|lia].
    + right. exists i, caja. split_and!; [done| |done|].
      * by apply lookup_app_l_Some.
      * intros j c' Hj Hc'. apply lookup_app_Some in Hj as [Hj|[Hlen Hj]].
        -- by apply Hmin.
        -- apply list_lookup_singleton_Some in Hj as [Hj ->].
           destruct (decide (pysum c' < pysum caja)); [by left|].
           right. split; lia.
Qed.

(** ** Shape kept by the placements *)

Lemma vecinas_llenas_cola capacidad c cajas :
  vecinas_llenas capacidad (c :: cajas) → vecinas_llenas capacidad cajas.
Proof. destruct cajas; simpl; [done|]. by intros [_ ?]. Qed.

Lemma vecinas_llenas_alter capacidad cajas i x :
  0 ≤ x → vecinas_llenas capacidad cajas →
  vecinas_llenas capacidad (alter (λ c, c ++ [x]) i cajas).
Proof.
  intros Hx. revert i.
  induction cajas as [|c cajas IH]; intros i Hv; [done|].
  destruct cajas as [|c' cajas].
  { by destruct i as [|[|i]]. }
  destruct Hv as [Hcc Hv]. destruct i as [|i].
  - simpl. split; [|done]. rewrite pysum_snoc. lia.
  - specialize (IH i Hv). change (vecinas_llenas capacidad
      (c :: alter (λ c, c ++ [x]) i (c' :: cajas))).
    destruct i as [|i]; simpl in *.
    + split; [|done]. rewrite pysum_snoc. lia.
    + split; done.
Qed.

Lemma vecinas_llenas_snoc capacidad cajas x :
  vecinas_llenas capacidad cajas →
  (∀ ultima, last cajas = Some ultima → capacidad < pysum ultima + x) →
  vecinas_llenas capacidad (cajas ++ [[x]]).
Proof.
  induction cajas as [|c cajas IH]; intros Hv Hl; [done|].
  destruct cajas as [|c' cajas].
  - simpl. split; [|done]. specialize (Hl c eq_refl). lia.
  - destruct Hv as [Hcc Hv]. simpl. split; [done|]. apply IH; [done|].
    intros u Hu. apply Hl. done.
Qed.

Lemma abre_solo_si_no_cabe_alter capacidad cajas i x :
  0 ≤ x → cajas_propias cajas →
  abre_solo_si_no_cabe capacidad cajas →
  abre_solo_si_no_cabe capacidad (alter (λ c, c ++ [x]) i cajas).
Proof.
  intros Hx Hprop Habre a b anterior caja y Hab Ha Hb Hy.
  assert (∃ anterior0, cajas !! a = Some anterior0 ∧ pysum anterior0 ≤ pysum anterior)
    as (anterior0 & Ha0 & Hle).
  { destruct (decide (i = a)) as [->|Hne].
    - rewrite list_lookup_alter_eq in Ha.
      destruct (cajas !! a) as [c|]; simplify_eq/=.
      exists c. split; [done|]. rewrite pysum_snoc. lia.
    - rewrite list_lookup_alter_ne in Ha by done. exists anterior. split; [done|lia]. }
  assert (∃ caja0, cajas !! b = Some caja0 ∧ head caja0 = Some y) as (caja0 & Hb0 & Hy0).
  { destruct (decide (i = b)) as [->|Hne].
    - rewrite list_lookup_alter_eq in Hb.
      destruct (cajas !! b) as [c|] eqn:Hc; simplify_eq/=.
      exists c. split; [done|].
      unfold cajas_propias in Hprop. rewrite Forall_forall in Hprop.
      destruct (Hprop c) as [Hne _]; [by eapply list_elem_of_lookup_2|].
      by destruct c.
    - rewrite list_lookup_alter_ne in Hb by done. exists caja. done. }
  specialize (Habre a b anterior0 caja0 y Hab Ha0 Hb0 Hy0). lia.
Qed.

Lemma abre_solo_si_no_cabe_snoc capacidad cajas x :
  abre_solo_si_no_cabe capacidad cajas →
  Forall (λ c, capacidad < pysum c + x) cajas →
  abre_solo_si_no_cabe capacidad (cajas ++ [[x]]).
Proof.
  intros Habre Hno a b anterior caja y Hab Ha Hb Hy.
  apply lookup_app_Some in Hb as [Hb|[Hlen Hb]].
  - apply lookup_lt_Some in Hb as Hlt.
    rewrite lookup_app_l in Ha by lia.
    exact (Habre a b anterior caja y Hab Ha Hb Hy).
  - apply list_lookup_singleton_Some in Hb as [Hb <-]. simpl in Hy. simplify_eq.
    rewrite lookup_app_l in Ha by lia.
    rewrite Forall_forall in Hno. by apply Hno, list_elem_of_lookup_2 with a.
Qed.

Lemma cajas_propias_alter cajas i x :
  0 ≤ x → cajas_propias cajas → cajas_propias (alter (λ c, c ++ [x]) i cajas).
Proof.
  intros Hx Hp. apply Forall_alter; [done|]. intros c _ [Hne Hpos]. split.
  - by destruct c.
  - apply Forall_app. split; [done|]. by repeat constructor.
Qed.

Lemma cajas_propias_snoc cajas x :
  0 ≤ x → cajas_propias cajas → cajas_propias (cajas ++ [[x]]).
Proof.
  intros Hx Hp. apply Forall_app. split; [done|]. by repeat constructor.
Qed.

Lemma cajas_propias_sumas cajas :
  cajas_propias cajas → Forall (λ c, 0 ≤ pysum c) cajas.
Proof.
  intros Hp. eapply Forall_impl; [exact Hp|].
  intros c [_ Hpos]. by apply pysum_nonneg.
Qed.


(** ** Shape of the packings of the heuristics *)

Lemma fold_left_forma (I : list (list Z) → Prop)
    (paso : list (list Z) → Z → list (list Z)) objetos :
  (∀ cajas x, 0 ≤ x → I cajas → I (paso cajas x)) →
  Forall (λ x, 0 ≤ x) objetos →
  ∀ cajas, I cajas → I (fold_left paso objetos cajas).
Proof.
  intros Hpaso Hpos. apply fold_left_invariante.
  intros cajas x Hx. apply Hpaso. rewrite Forall_forall in Hpos. by apply Hpos.
Qed.

Lemma next_fit_step_forma capacidad cajas x :
  0 ≤ x →
  cajas ≠ [] ∧ cajas_propias cajas ∧ vecinas_llenas capacidad cajas →
  let cajas' := next_fit_step capacidad cajas x in
  cajas' ≠ [] ∧ cajas_propias cajas' ∧ vecinas_llenas capacidad cajas'.
Proof.
  intros Hx (Hne & Hp & Hv). simpl.
  destruct (last_is_Some cajas) as [_ [ultima Hl]]; [done|].
  destruct (next_fit_step_casos capacidad cajas x ultima Hl) as [[_ ->]|[Hno ->]].
  - split_and!.
    + intros Hnil. apply (f_equal length) in Hnil. rewrite length_alter in Hnil.
      by destruct cajas.
    + by apply cajas_propias_alter.
    + by apply vecinas_llenas_alter.
  - split_and!.
    + by destruct cajas.
    + by apply cajas_propias_snoc.
    + apply vecinas_llenas_snoc; [done|]. intros u Hu. by simplify_eq.
Qed.

Lemma first_fit_step_forma capacidad cajas x :
  0 ≤ x →
  cajas_propias cajas ∧ vecinas_llenas capacidad cajas ∧
    abre_solo_si_no_cabe capacidad cajas →
  let cajas' := first_fit_step capacidad cajas x in
  cajas_propias cajas' ∧ vecinas_llenas capacidad cajas' ∧
    abre_solo_si_no_cabe capacidad cajas'.
Proof.
  intros Hx (Hp & Hv & Ha). simpl. unfold first_fit_step.
  destruct (first_fit_place capacidad x cajas) as [r|] eqn:Hplace.
  - apply first_fit_place_Some in Hplace as (i & caja & _ & _ & ->).
    split_and!; [by apply cajas_propias_alter|by apply vecinas_llenas_alter|
                 by apply abre_solo_si_no_cabe_alter].
  - apply first_fit_place_None in Hplace.
    split_and!; [by apply cajas_propias_snoc| |by apply abre_solo_si_no_cabe_snoc].
    apply vecinas_llenas_snoc; [done|]. intros u Hu%last_Some_elem_of.
    rewrite Forall_forall in Hplace. by apply Hplace.
Qed.

Lemma best_fit_step_casos capacidad cajas x :
  Forall (λ c, 0 ≤ pysum c) cajas →
  (∃ i caja,
     cajas !! i = Some caja ∧ pysum caja + x ≤ capacidad ∧
     (∀ j c, cajas !! j = Some c → pysum c + x ≤ capacidad →
             pysum c < pysum caja ∨ (pysum c = pysum caja ∧ (i ≤ j)%nat)) ∧
     best_fit_step capacidad cajas x = alter (λ c, c ++ [x]) i cajas) ∨
  (Forall (λ c, capacidad < pysum c + x) cajas ∧
   best_fit_step capacidad cajas x = cajas ++ [[x]]).
Proof.
  intros Hpos. unfold best_fit_step.
  destruct (best_fit_scan_spec capacidad x cajas Hpos)
    as [[-> Hno]|(i & caja & -> & Hi & Hcabe & Hmin)]; simpl.
  - by right.
  - left. by exists i, caja.
Qed.

Lemma best_fit_step_forma capacidad cajas x :
  0 ≤ x →
  cajas_propias cajas ∧ vecinas_llenas capacidad cajas ∧
    abre_solo_si_no_cabe capacidad cajas →
  let cajas' := best_fit_step capacidad cajas x in
  cajas_propias cajas' ∧ vecinas_llenas capacidad cajas' ∧
    abre_solo_si_no_cabe capacidad cajas'.
Proof.
  intros Hx (Hp & Hv & Ha). simpl.
  destruct (best_fit_step_casos capacidad cajas x (cajas_propias_sumas _ Hp))
    as [(i & caja & _ & _ & _ & ->)|[Hno ->]].
  - split_and!; [by apply cajas_propias_alter|by apply vecinas_llenas_alter|
                 by apply abre_solo_si_no_cabe_alter].
  - split_and!; [by apply cajas_propias_snoc| |by apply abre_solo_si_no_cabe_snoc].
    apply vecinas_llenas_snoc; [done|]. intros u Hu%last_Some_elem_of.
    rewrite Forall_forall in Hno. by apply Hno.
Qed.

Lemma abre_solo_si_no_cabe_nil capacidad : abre_solo_si_no_cabe capacidad [].
Proof. intros i j a c x _ Hi. by rewrite lookup_nil in Hi. Qed.

Lemma next_fit_forma capacidad objetos :
  Forall (λ x, 0 ≤ x) objetos →
  cajas_propias (next_fit capacidad objetos).2 ∧
  vecinas_llenas capacidad (next_fit capacidad objetos).2.
Proof.
  intros Hpos. destruct objetos as [|x objetos]; [by split; [constructor|]|].
  inversion_clear Hpos as [|? ? Hx Hpos']. simpl.
  apply (fold_left_forma
           (λ cajas, cajas ≠ [] ∧ cajas_propias cajas ∧ vecinas_llenas capacidad cajas)
           (next_fit_step capacidad) objetos).
  - intros cajas y Hy. by apply next_fit_step_forma.
  - done.
  - split_and!; [done| |done]. by repeat constructor.
Qed.

Lemma first_fit_forma capacidad objetos :
  Forall (λ x, 0 ≤ x) objetos →
  cajas_propias (first_fit capacidad objetos).2 ∧
  vecinas_llenas capacidad (first_fit capacidad objetos).2 ∧
  abre_solo_si_no_cabe capacidad (first_fit capacidad objetos).2.
Proof.
  intros Hpos.
  assert (∀ cajas, cajas = fold_left (first_fit_step capacidad) objetos [] →
            cajas_propias cajas ∧ vecinas_llenas capacidad cajas ∧
            abre_solo_si_no_cabe capacidad cajas) as H.
  { intros cajas ->.
    apply (fold_left_forma
             (λ cajas, cajas_propias cajas ∧ vecinas_llenas capacidad cajas ∧
                       abre_solo_si_no_cabe capacidad cajas)
             (first_fit_step capacidad) objetos); [|done|].
    - intros cajas y Hy. by apply first_fit_step_forma.
    - split_and!; [constructor|done|apply abre_solo_si_no_cabe_nil]. }
  destruct objetos as [|x objetos]; [|by apply H].
  split_and!; [constructor|done|apply abre_solo_si_no_cabe_nil].
Qed.

Lemma best_fit_forma capacidad objetos :
  Forall (λ x, 0 ≤ x) objetos →
  cajas_propias (best_fit capacidad objetos).2 ∧
  vecinas_llenas capacidad (best_fit capacidad objetos).2 ∧
  abre_solo_si_no_cabe capacidad (best_fit capacidad objetos).2.
Proof.
  intros Hpos.
  assert (∀ cajas, cajas = fold_left (best_fit_step capacidad) objetos [] →
            cajas_propias cajas ∧ vecinas_llenas capacidad cajas ∧
            abre_solo_si_no_cabe capacidad cajas) as H.
  { intros cajas ->.
    apply (fold_left_forma
             (λ cajas, cajas_propias cajas ∧ vecinas_llenas capacidad cajas ∧
                       abre_solo_si_no_cabe capacidad cajas)
             (best_fit_step capacidad) objetos); [|done|].
    - intros cajas y Hy. by apply best_fit_step_forma.
    - split_and!; [constructor|done|apply abre_solo_si_no_cabe_nil]. }
  destruct objetos as [|x objetos]; [|by apply H].
  split_and!; [constructor|done|apply abre_solo_si_no_cabe_nil].
Qed.

Lemma sorted_reverse_Forall (P : Z → Prop) objetos :
  Forall P objetos → Forall P (sorted_reverse objetos).
Proof.
  rewrite !Forall_forall. intros H x Hx. apply H.
  by rewrite <- (sorted_reverse_Permutation objetos).
Qed.

(** Every heuristic leaves neighbouring bins that together exceed the
    capacity. *)
Lemma heuristicos_vecinas_llenas alg capacidad objetos :
  alg ∈ heuristicos →
  Forall (λ x, 0 ≤ x) objetos →
  cajas_propias (alg capacidad objetos).2 ∧
  vecinas_llenas capacidad (alg capacidad objetos).2.
Proof.
  unfold heuristicos. rewrite !elem_of_cons, elem_of_nil.
  intros [->|[->|[->|[->|[->|[]]]]]] Hpos.
  - by apply next_fit_forma.
  - by destruct (first_fit_forma capacidad objetos Hpos) as (? & ? & _).
  - by destruct (best_fit_forma capacidad objetos Hpos) as (? & ? & _).
  - unfold first_fit_decreasing.
    by destruct (first_fit_forma capacidad (sorted_reverse objetos)
                   (sorted_reverse_Forall _ _ Hpos)) as (? & ? & _).
  - unfold best_fit_decreasing.
    by destruct (best_fit_forma capacidad (sorted_reverse objetos)
                   (sorted_reverse_Forall _ _ Hpos)) as (? & ? & _).
Qed.

(** Bins that pairwise exceed the capacity hold more than half their
    number of capacities. *)
Lemma vecinas_llenas_cota capacidad cajas :
  (vecinas_llenas capacidad cajas → Forall (λ c, 0 ≤ pysum c) cajas →
   ∃ h, 0 ≤ h ∧ Z.of_nat (length cajas) ≤ 2 * h + 1 ∧
        capacidad * h ≤ pysum (concat cajas) ∧
        ((2 ≤ length cajas)%nat → capacidad * h < pysum (concat cajas))) ∧
  ∀ c, vecinas_llenas capacidad (c :: cajas) →
       Forall (λ c, 0 ≤ pysum c) (c :: cajas) →
       ∃ h, 0 ≤ h ∧ Z.of_nat (length (c :: cajas)) ≤ 2 * h + 1 ∧
            capacidad * h ≤ pysum (concat (c :: cajas)) ∧
            ((2 ≤ length (c :: cajas))%nat →
             capacidad * h < pysum (concat (c :: cajas))).
Proof.
  induction cajas as [|c' cajas [IH1 IH2]].
  - split.
    + intros _ _. exists 0. simpl. lia.
    + intros c _ Hpos. inversion_clear Hpos as [|? ? Hc _].
      exists 0. simpl. rewrite app_nil_r. lia.
  - split; [apply IH2|].
    intros c [Hcc Hv] Hpos.
    inversion_clear Hpos as [|? ? Hc Hpos']. inversion_clear Hpos' as [|? ? Hc' Hpos''].
    apply vecinas_llenas_cola in Hv.
    destruct (IH1 Hv Hpos'') as (h & Hh & Hlen & Hsum & _).
    exists (h + 1). simpl in *. rewrite !pysum_app. lia.
Qed.


(** ** Next Fit keeps the input order *)

Lemma concat_alter_ultima (cajas : list (list Z)) ultima x :
  last cajas = Some ultima →
  concat (alter (λ c, c ++ [x]) (pred (length cajas)) cajas) = concat cajas ++ [x].
Proof.
  intros [l' ->]%last_Some. rewrite length_app. simpl.
  rewrite alter_app_r_alt by lia.
  replace (pred (length l' + 1) - length l')%nat with 0%nat by lia. simpl.
  rewrite !concat_app. simpl. by rewrite !app_nil_r, app_assoc.
Qed.

Lemma next_fit_fold_concat capacidad resto :
  ∀ cajas, cajas ≠ [] →
    concat (fold_left (next_fit_step capacidad) resto cajas) = concat cajas ++ resto.
Proof.
  induction resto as [|x resto IH]; intros cajas Hne; simpl.
  { by rewrite app_nil_r. }
  destruct (last_is_Some cajas) as [_ [ultima Hl]]; [done|].
  destruct (next_fit_step_casos capacidad cajas x ultima Hl) as [[_ Heq]|[_ Heq]];
    rewrite Heq, IH.
  - rewrite (concat_alter_ultima _ _ _ Hl), <- app_assoc. done.
  - intros Hnil. apply (f_equal length) in Hnil. rewrite length_alter in Hnil.
    by destruct cajas.
  - rewrite concat_app. simpl. by rewrite <- app_assoc.
  - by destruct cajas.
Qed.

(** X1: read bin after bin, the packing of Next Fit is the input list
    itself: items stay in input order and a bin is a run of consecutive
    items. *)
Theorem next_fit_keeps_input_order capacidad lista_de_objetos :
  concat (next_fit capacidad lista_de_objetos).2 = lista_de_objetos.
Proof.
  destruct lista_de_objetos as [|x resto]; [done|]. simpl.
  by rewrite next_fit_fold_concat.
Qed.

(** ** Fewer than twice the theoretical minimum *)

Lemma pysum_pos l : l ≠ [] → Forall (λ x, 0 < x) l → 0 < pysum l.
Proof.
  intros Hne Hpos. destruct Hpos as [|x l Hx Hl]; [done|]. simpl.
  assert (0 ≤ pysum l); [|lia].
  apply pysum_nonneg. eapply Forall_impl; [exact Hl|]. simpl. intros. lia.
Qed.

(** X2: on a non-empty list of positive sizes, with capacity and total
    size below [2^53], each of the five heuristics uses at most [2 m - 1]
    bins, [m] being the theoretical minimum as the code computes it,
    whether or not the items fit a bin. *)
Theorem heuristics_use_less_than_twice_the_minimum alg capacidad lista_de_objetos :
  alg ∈ heuristicos →
  0 < capacidad < 2 ^ 53 →
  lista_de_objetos ≠ [] →
  Forall (λ x, 0 < x) lista_de_objetos →
  pysum lista_de_objetos < 2 ^ 53 →
  ∃ m, minimo_teorico capacidad lista_de_objetos = Ok m ∧
       minimo_teorico_doble capacidad lista_de_objetos = Ok m ∧
       Z.of_nat (alg capacidad lista_de_objetos).1 ≤ 2 * m - 1.
Proof.
  intros Halg [Hcap Hcap53] Hne Hpos Hsuma53.
  exists (ceil_div (pysum lista_de_objetos) capacidad).
  pose proof (pysum_pos _ Hne Hpos) as Hsuma.
  split_and!.
  { unfold minimo_teorico. by rewrite decide_False by lia. }
  { unfold minimo_teorico_doble. apply ceil_true_div_exacto; lia. }
  assert (Forall (λ x, 0 ≤ x) lista_de_objetos) as Hpos0
    by (eapply Forall_impl; [exact Hpos|]; simpl; intros; lia).
  destruct (heuristicos_completa alg capacidad lista_de_objetos Halg) as [-> _].
  destruct (heuristicos_vecinas_llenas alg capacidad lista_de_objetos Halg Hpos0)
    as [Hprop Hvec].
  pose proof (heuristicos_reparte alg capacidad lista_de_objetos Halg) as Hrep.
  apply pysum_Permutation in Hrep.
  destruct (vecinas_llenas_cota capacidad (alg capacidad lista_de_objetos).2)
    as [Hcota _].
  destruct (Hcota Hvec (cajas_propias_sumas _ Hprop)) as (h & Hh & Hlen & Hsum & Hstrict).
  pose proof (ceil_div_ge (pysum lista_de_objetos) capacidad Hcap) as Hm.
  rewrite Hrep in Hsum, Hstrict.
  destruct (decide (2 ≤ length (alg capacidad lista_de_objetos).2)%nat) as [H2|H2].
  - specialize (Hstrict H2).
    assert (h < ceil_div (pysum lista_de_objetos) capacidad)
      by (apply (Z.mul_lt_mono_pos_l capacidad); lia).
    lia.
  - assert (0 < ceil_div (pysum lista_de_objetos) capacidad)
      by (apply (Z.mul_lt_mono_pos_l capacidad); lia).
    lia.
Qed.

Lemma heuristics_use_less_than_twice_the_minimum_witness :
  best_fit ∈ heuristicos ∧ 0 < 10 < 2 ^ 53 ∧ [6; 5; 4; 3] ≠ [] ∧
  Forall (λ x, 0 < x) [6; 5; 4; 3] ∧ pysum [6; 5; 4; 3] < 2 ^ 53 ∧
  ∃ m, minimo_teorico 10 [6; 5; 4; 3] = Ok m ∧
       minimo_teorico_doble 10 [6; 5; 4; 3] = Ok m ∧
       Z.of_nat (best_fit 10 [6; 5; 4; 3]).1 ≤ 2 * m - 1.
Proof.
  assert (best_fit ∈ heuristicos) as H0 by (unfold heuristicos; do 2 right; left).
  assert (0 < 10 < 2 ^ 53) as H1 by (simpl; lia).
  assert ([6; 5; 4; 3] ≠ @nil Z) as H2 by done.
  assert (Forall (λ x, 0 < x) [6; 5; 4; 3]) as H3 by (repeat constructor; lia).
  assert (pysum [6; 5; 4; 3] < 2 ^ 53) as H4 by (simpl; lia).
  exact (conj H0 (conj H1 (conj H2 (conj H3 (conj H4
    (heuristics_use_less_than_twice_the_minimum best_fit 10 [6; 5; 4; 3]
       H0 H1 H2 H3 H4)))))).
Defined.

(** ** A bin is opened only for an item that fits nowhere *)

(** X3: in the packings of First Fit, Best Fit and their decreasing
    variants, for non-negative sizes, the item that opened a bin does not
    fit into any bin opened before it, even as those bins are at the end. *)
Theorem any_fit_opens_bins_only_when_needed capacidad lista_de_objetos :
  Forall (λ x, 0 ≤ x) lista_de_objetos →
  abre_solo_si_no_cabe capacidad (first_fit capacidad lista_de_objetos).2 ∧
  abre_solo_si_no_cabe capacidad (best_fit capacidad lista_de_objetos).2 ∧
  abre_solo_si_no_cabe capacidad (first_fit_decreasing capacidad lista_de_objetos).2 ∧
  abre_solo_si_no_cabe capacidad (best_fit_decreasing capacidad lista_de_objetos).2.
Proof.
  intros Hpos. pose proof (sorted_reverse_Forall _ _ Hpos) as Hsorted.
  unfold first_fit_decreasing, best_fit_decreasing. split_and!.
  - by destruct (first_fit_forma capacidad lista_de_objetos Hpos) as (_ & _ & ?).
  - by destruct (best_fit_forma capacidad lista_de_objetos Hpos) as (_ & _ & ?).
  - by destruct (first_fit_forma capacidad _ Hsorted) as (_ & _ & ?).
  - by destruct (best_fit_forma capacidad _ Hsorted) as (_ & _ & ?).
Qed.

Lemma any_fit_opens_bins_only_when_needed_witness :
  Forall (λ x, 0 ≤ x) [6; 5; 4; 3] ∧
  abre_solo_si_no_cabe 10 (first_fit 10 [6; 5; 4; 3]).2 ∧
  abre_solo_si_no_cabe 10 (best_fit 10 [6; 5; 4; 3]).2 ∧
  abre_solo_si_no_cabe 10 (first_fit_decreasing 10 [6; 5; 4; 3]).2 ∧
  abre_solo_si_no_cabe 10 (best_fit_decreasing 10 [6; 5; 4; 3]).2.
Proof.
  assert (Forall (λ x, 0 ≤ x) [6; 5; 4; 3]) as H1 by (repeat constructor; lia).
  exact (conj H1 (any_fit_opens_bins_only_when_needed 10 [6; 5; 4; 3] H1)).
Defined.

(** X4: the loop body of First Fit puts the item into the first bin that
    has room for it and leaves the other bins as they are; it opens a
    bin at the end exactly when no bin has room. *)
Theorem first_fit_takes_the_first_bin_with_room capacidad cajas objeto :
  (∃ i caja,
     cajas !! i = Some caja ∧ pysum caja + objeto ≤ capacidad ∧
     (∀ j c, (j < i)%nat → cajas !! j = Some c → capacidad < pysum c + objeto) ∧
     first_fit_step capacidad cajas objeto = alter (λ c, c ++ [objeto]) i cajas) ∨
  (Forall (λ c, capacidad < pysum c + objeto) cajas ∧
   first_fit_step capacidad cajas objeto = cajas ++ [[objeto]]).
Proof.
  unfold first_fit_step.
  destruct (decide (Forall (λ c, capacidad < pysum c + objeto) cajas)) as [Hno|Hsi].
  { right. split; [done|]. by rewrite (proj2 (first_fit_place_None _ _ _) Hno). }
  left. apply not_Forall_Exists in Hsi; [|intros c; apply _].
  assert (∃ i caja, cajas !! i = Some caja ∧ pysum caja + objeto ≤ capacidad ∧
            ∀ j c, (j < i)%nat → cajas !! j = Some c → capacidad < pysum c + objeto)
    as (i & caja & Hi & Hcabe & Hantes).
  { clear -Hsi. induction cajas as [|c cajas IH]; [by inversion Hsi|].
    destruct (decide (pysum c + objeto ≤ capacidad)) as [Hc|Hc].
    - exists 0%nat, c. split_and!; [done|done|]. intros j c' Hj. lia.
    - destruct IH as (i & caja & Hi & Hcabe & Hantes).
      { inversion Hsi as [? ? Hhd|]; subst; [simpl in Hhd; lia|done]. }
      exists (S i), caja. split_and!; [done|done|].
      intros [|j] c' Hj Hc'; simplify_eq/=; [lia|].
      apply (Hantes j); [lia|done]. }
  exists i, caja. split_and!; [done..|].
  by rewrite (first_fit_place_primero _ _ _ _ _ Hi Hcabe Hantes).
Qed.

(** X5: over bins of non-negative content the loop body of Best Fit puts
    the item into the bin with room that has the least space left, the
    earliest of them when several are as tight, and opens a bin at the
    end exactly when no bin has room. *)
Theorem best_fit_takes_the_tightest_bin capacidad cajas objeto :
  Forall (λ c, 0 ≤ pysum c) cajas →
  (∃ i caja,
     cajas !! i = Some caja ∧ pysum caja + objeto ≤ capacidad ∧
     (∀ j c, cajas !! j = Some c → pysum c + objeto ≤ capacidad →
             pysum c < pysum caja ∨ (pysum c = pysum caja ∧ (i ≤ j)%nat)) ∧
     best_fit_step capacidad cajas objeto = alter (λ c, c ++ [objeto]) i cajas) ∨
  (Forall (λ c, capacidad < pysum c + objeto) cajas ∧
   best_fit_step capacidad cajas objeto = cajas ++ [[objeto]]).
Proof. apply best_fit_step_casos. Qed.

Lemma best_fit_takes_the_tightest_bin_witness :
  Forall (λ c, 0 ≤ pysum c) [[6]; [5; 2]; [7]; [9]] ∧
  best_fit_step 10 [[6]; [5; 2]; [7]; [9]] 3 = [[6]; [5; 2; 3]; [7]; [9]].
Proof.
  assert (Forall (λ c, 0 ≤ pysum c) [[6]; [5; 2]; [7]; [9]]) as H1
    by (repeat constructor; simpl; lia).
  split; [done|].
  destruct (best_fit_takes_the_tightest_bin 10 [[6]; [5; 2]; [7]; [9]] 3 H1)
    as [(i & caja & _ & _ & _ & _)|[_ _]]; reflexivity.
Defined.

(** ** The decreasing variants see only the multiset *)

Lemma sorted_reverse_Permutation_eq l1 l2 :
  l1 ≡ₚ l2 → sorted_reverse l1 = sorted_reverse l2.
Proof.
  intros Hperm.
  assert (Transitive Z.ge) by (intros x y z; lia).
  assert (Total Z.ge) by (intros x y; lia).
  assert (AntiSymm (=) Z.ge) by (intros x y; lia).
  apply (StronglySorted_unique Z.ge).
  - by apply StronglySorted_merge_sort.
  - by apply StronglySorted_merge_sort.
  - by rewrite !sorted_reverse_Permutation.
Qed.

(** X6: First Fit Decreasing and Best Fit Decreasing return the same
    count and the same bins for any two orderings of the same items. *)
Theorem decreasing_variants_ignore_input_order capacidad objetos1 objetos2 :
  objetos1 ≡ₚ objetos2 →
  first_fit_decreasing capacidad objetos1 = first_fit_decreasing capacidad objetos2 ∧
  best_fit_decreasing capacidad objetos1 = best_fit_decreasing capacidad objetos2.
Proof.
  intros Hperm. unfold first_fit_decreasing, best_fit_decreasing.
  by rewrite (sorted_reverse_Permutation_eq _ _ Hperm).
Qed.

Lemma decreasing_variants_ignore_input_order_witness :
  [3; 2; 2; 3] ≡ₚ [2; 3; 3; 2] ∧
  first_fit_decreasing 7 [3; 2; 2; 3] = first_fit_decreasing 7 [2; 3; 3; 2] ∧
  best_fit_decreasing 7 [3; 2; 2; 3] = best_fit_decreasing 7 [2; 3; 3; 2].
Proof.
  assert ([3; 2; 2; 3] ≡ₚ [2; 3; 3; 2]) as H1.
  { apply (Permutation_trans (l' := [2; 3; 2; 3])).
    - apply perm_swap.
    - apply perm_skip. apply perm_skip. apply perm_swap. }
  exact (conj H1 (decreasing_variants_ignore_input_order 7 _ _ H1)).
Defined.


(** ** Bin counts *)

Lemma coloca_length_sup capacidad x cajas cajas' :
  coloca capacidad x cajas cajas' → (length cajas' ≤ S (length cajas))%nat.
Proof.
  destruct 1; [rewrite length_alter|rewrite length_app; simpl]; lia.
Qed.

Lemma completa_length_sup capacidad pendientes cajas final :
  completa capacidad pendientes cajas final →
  (length final ≤ length cajas + length pendientes)%nat.
Proof.
  induction 1 as [cajas|x pend cajas cajas' final Hc _ IH]; simpl; [lia|].
  apply coloca_length_sup in Hc. lia.
Qed.

(** A packing reached from no bins has no empty bin, at most one bin per
    item, and no bin at all only for no items. *)
Lemma completa_cuenta capacidad objetos final :
  completa capacidad objetos [] final →
  Forall (λ c, c ≠ []) final ∧
  (length final ≤ length objetos)%nat ∧
  (length final = 0%nat ↔ objetos = []).
Proof.
  intros Hc. split_and!.
  - eapply completa_no_vacias; [done|constructor].
  - apply completa_length_sup in Hc. simpl in Hc. lia.
  - apply completa_reparte in Hc as Hr. simpl in Hr. split.
    + intros Hlen. destruct final; [|done]. simpl in Hr.
      by apply Permutation_nil in Hr.
    + intros ->. apply completa_length_sup in Hc. simpl in Hc. lia.
Qed.

(** X8: for a positive capacity and positive sizes that fit a bin, the
    count of the exact solver lies between the theoretical minimum and
    the count of each of the five heuristics. *)
Theorem exact_between_minimum_and_heuristics capacidad lista_de_objetos :
  0 < capacidad →
  Forall (λ x, 0 < x ∧ x ≤ capacidad) lista_de_objetos →
  ∃ minimo m cajas,
    minimo_teorico capacidad lista_de_objetos = Ok minimo ∧
    resultado_optimo capacidad lista_de_objetos = Ok (Fin m, cajas) ∧
    minimo ≤ Z.of_nat m ∧
    ∀ alg, alg ∈ heuristicos → (m ≤ (alg capacidad lista_de_objetos).1)%nat.
Proof.
  intros Hcap Hobj.
  assert (Forall (λ x, x ≤ capacidad) lista_de_objetos) as Hle
    by (eapply Forall_impl; [exact Hobj|]; simpl; intros; lia).
  destruct (resultado_optimo_spec capacidad lista_de_objetos Hcap Hobj)
    as (m & cajas & Hres & Hlen & Hval & Hopt).
  exists (ceil_div (pysum lista_de_objetos) capacidad), m, cajas. split_and!.
  - unfold minimo_teorico. by rewrite decide_False by lia.
  - done.
  - rewrite <- Hlen. by apply valido_cota_inferior.
  - intros alg Halg.
    destruct (heuristicos_completa alg capacidad lista_de_objetos Halg) as [-> _].
    by apply Hopt, heuristicos_valido.
Qed.

Lemma exact_between_minimum_and_heuristics_witness :
  0 < 10 ∧ Forall (λ x, 0 < x ∧ x ≤ 10) [6; 5; 4; 3] ∧
  ∃ minimo m cajas,
    minimo_teorico 10 [6; 5; 4; 3] = Ok minimo ∧
    resultado_optimo 10 [6; 5; 4; 3] = Ok (Fin m, cajas) ∧
    minimo ≤ Z.of_nat m ∧
    ∀ alg, alg ∈ heuristicos → (m ≤ (alg 10%Z [6; 5; 4; 3]%Z).1)%nat.
Proof.
  assert (0 < 10) as H1 by lia.
  assert (Forall (λ x, 0 < x ∧ x ≤ 10) [6; 5; 4; 3]) as H2
    by (repeat constructor; lia).
  exact (conj H1 (conj H2
    (exact_between_minimum_and_heuristics 10 [6; 5; 4; 3] H1 H2))).
Defined.

(** X9: the count of the exact solver depends on the items only, not on
    their order: two orderings of the same positive sizes that fit a bin
    get the same count (the bins may differ). *)
Theorem exact_count_ignores_input_order capacidad objetos1 objetos2 :
  0 < capacidad →
  Forall (λ x, 0 < x ∧ x ≤ capacidad) objetos1 →
  objetos1 ≡ₚ objetos2 →
  ∃ m cajas1 cajas2,
    resultado_optimo capacidad objetos1 = Ok (Fin m, cajas1) ∧
    resultado_optimo capacidad objetos2 = Ok (Fin m, cajas2).
Proof.
  intros Hcap Hobj1 Hperm.
  assert (Forall (λ x, 0 < x ∧ x ≤ capacidad) objetos2) as Hobj2.
  { rewrite Forall_forall in *. intros x Hx. apply Hobj1. by rewrite Hperm. }
  destruct (resultado_optimo_spec capacidad objetos1 Hcap Hobj1)
    as (m1 & cajas1 & Hres1 & Hlen1 & [Hr1 Hf1] & Hopt1).
  destruct (resultado_optimo_spec capacidad objetos2 Hcap Hobj2)
    as (m2 & cajas2 & Hres2 & Hlen2 & [Hr2 Hf2] & Hopt2).
  assert (m1 ≤ m2)%nat as H12.
  { rewrite <- Hlen2. apply Hopt1. split; [|done].
    unfold reparte in *. by rewrite Hr2. }
  assert (m2 ≤ m1)%nat as H21.
  { rewrite <- Hlen1. apply Hopt2. split; [|done].
    unfold reparte in *. by rewrite Hr1. }
  assert (m1 = m2) as -> by lia. eauto.
Qed.

Lemma exact_count_ignores_input_order_witness :
  0 < 10 ∧ Forall (λ x, 0 < x ∧ x ≤ 10) [6; 5; 4; 3] ∧
  [6; 5; 4; 3] ≡ₚ [5; 6; 4; 3] ∧
  ∃ m cajas1 cajas2,
    resultado_optimo 10 [6; 5; 4; 3] = Ok (Fin m, cajas1) ∧
    resultado_optimo 10 [5; 6; 4; 3] = Ok (Fin m, cajas2).
Proof.
  assert (0 < 10) as H1 by lia.
  assert (Forall (λ x, 0 < x ∧ x ≤ 10) [6; 5; 4; 3]) as H2
    by (repeat constructor; lia).
  assert ([6; 5; 4; 3] ≡ₚ [5; 6; 4; 3]) as H3 by apply perm_swap.
  exact (conj H1 (conj H2 (conj H3
    (exact_count_ignores_input_order 10 _ _ H1 H2 H3)))).
Defined.


(** * Further properties of the genetic solver *)

(** ** Decoding *)

Lemma grupo_no_vacio solution items l :
  (length solution ≤ length items)%nat →
  l ∈ solution → grupo solution items l ≠ [].
Proof.
  induction solution as [|b solution IH] using rev_ind; intros Hlen Hl.
  { by apply elem_of_nil in Hl. }
  rewrite length_app in Hlen. simpl in Hlen.
  destruct (lookup_lt_is_Some_2 items (length solution)) as [w Hw]; [lia|].
  rewrite grupo_snoc, Hw. simpl.
  destruct (decide (b = l)) as [->|Hne].
  - by destruct (grupo solution items l).
  - rewrite app_nil_r. apply IH; [lia|].
    apply elem_of_app in Hl as [Hl|Hl%list_elem_of_singleton]; [done|congruence].
Qed.

(** X10: for a vector no longer than the item list [decodificar_bins]
    returns one bin per distinct label, in the order in which the labels
    first appear in the vector; the bin of a label holds the items at
    the positions that carry it, in input order, and is not empty. *)
Theorem decodificar_bins_groups_by_first_appearance solution items :
  (length solution ≤ length items)%nat →
  decodificar_bins solution items = Ok (grupo solution items <$> etiquetas solution) ∧
  NoDup (etiquetas solution) ∧
  (∀ l, l ∈ etiquetas solution ↔ l ∈ solution) ∧
  (∀ b, etiquetas (solution ++ [b])
        = etiquetas solution ++ (if decide (b ∈ solution) then [] else [b])) ∧
  length (grupo solution items <$> etiquetas solution) = num_bins solution ∧
  Forall (λ c, c ≠ []) (grupo solution items <$> etiquetas solution).
Proof.
  intros Hlen. split_and!.
  - by apply decodificar_bins_grupos.
  - apply etiquetas_NoDup.
  - intros l. apply elem_of_etiquetas.
  - intros b. apply etiquetas_snoc.
  - by rewrite length_fmap, length_etiquetas.
  - apply Forall_fmap, Forall_forall. intros l Hl. simpl.
    apply grupo_no_vacio; [done|]. by apply elem_of_etiquetas.
Qed.

Lemma decodificar_bins_groups_by_first_appearance_witness :
  (length [7; 3; 7; 9; 3]%Z ≤ length [10; 20; 30; 40; 50]%Z)%nat ∧
  decodificar_bins [7; 3; 7; 9; 3] [10; 20; 30; 40; 50]
  = Ok [[10; 30]; [20; 50]; [40]].
Proof.
  assert (length [7; 3; 7; 9; 3]%Z ≤ length [10; 20; 30; 40; 50]%Z)%nat as H1
    by (simpl; lia).
  split; [done|].
  destruct (decodificar_bins_groups_by_first_appearance
              [7; 3; 7; 9; 3] [10; 20; 30; 40; 50] H1) as [-> _].
  reflexivity.
Defined.

Lemma foldM_app {A B} (f : B → A → result B) l1 l2 b :
  foldM f (l1 ++ l2) b = foldM f l1 b ≫= foldM f l2.
Proof.
  revert b. induction l1 as [|x l1 IH]; intros b; simpl; [done|].
  destruct (f b x); simpl; [apply IH|done].
Qed.

Lemma imap_pair_app_cons {A} (l1 : list A) x l2 :
  ∃ cola, imap pair (l1 ++ x :: l2) = imap pair l1 ++ (length l1, x) :: cola.
Proof.
  rewrite imap_app, imap_cons. rewrite Nat.add_0_r. eauto.
Qed.

Lemma demasiado_larga (solution items : list Z) :
  (length items < length solution)%nat →
  ∃ prefijo b resto,
    solution = prefijo ++ b :: resto ∧ length prefijo = length items.
Proof.
  intros Hlen. exists (take (length items) solution).
  destruct (drop (length items) solution) as [|b resto] eqn:Hdrop.
  { apply (f_equal length) in Hdrop. rewrite length_drop in Hdrop. simpl in Hdrop. lia. }
  exists b, resto. split.
  - by rewrite <- Hdrop, take_drop.
  - rewrite length_take. lia.
Qed.

Lemma decodificar_bins_IndexError solution items :
  (length items < length solution)%nat →
  decodificar_bins solution items = Err IndexError.
Proof.
  intros Hlen.
  destruct (demasiado_larga solution items Hlen) as (prefijo & b & resto & Hsol & Hpre).
  unfold decodificar_bins. fold (etiquetas solution).
  destruct (imap_pair_app_cons prefijo b resto) as [cola Himap].
  rewrite Hsol at 2. rewrite Himap, foldM_app.
  destruct (bins_dict_prefijo solution items prefijo (b :: resto))
    as (d & -> & _); [done|lia|]. simpl.
  assert (b ∈ etiquetas solution) as Hb.
  { apply elem_of_etiquetas. rewrite Hsol, elem_of_app, elem_of_cons. auto. }
  apply list_elem_of_lookup in Hb as [jb Hjb].
  assert (bins_dict_step (id_map_de (etiquetas solution)) items d (length prefijo, b)
          = Err IndexError) as ->; [|done].
  unfold bins_dict_step. simpl.
  rewrite (proj2 (id_map_de_lookup _ _ _ (etiquetas_NoDup solution)) Hjb).
  by rewrite Hpre, (lookup_ge_None_2 items (length items)) by lia.
Qed.

(** X11: a vector longer than the item list makes [decodificar_bins]
    raise [IndexError], at the first position without an item; it never
    raises [KeyError]. *)
Theorem decodificar_bins_vector_too_long solution items :
  (length items < length solution)%nat →
  decodificar_bins solution items = Err IndexError.
Proof. apply decodificar_bins_IndexError. Qed.

Lemma decodificar_bins_vector_too_long_witness :
  (length [5]%Z < length [0; 0]%Z)%nat ∧
  decodificar_bins [0; 0] [5] = Err IndexError.
Proof.
  assert (length [5]%Z < length [0; 0]%Z)%nat as H1 by (simpl; lia).
  exact (conj H1 (decodificar_bins_vector_too_long [0; 0] [5] H1)).
Defined.

(** ** Fitness *)

Lemma fitness_IndexError solution items capacidad :
  (length items < length solution)%nat →
  fitness solution items capacidad = Err IndexError.
Proof.
  intros Hlen.
  destruct (demasiado_larga solution items Hlen) as (prefijo & b & resto & -> & Hpre).
  unfold fitness.
  destruct (imap_pair_app_cons prefijo b resto) as [cola ->].
  rewrite foldM_app.
  destruct (bins_sum_prefijo items prefijo) as (m & -> & _); [lia|]. simpl.
  assert (fitness_step items m (length prefijo, b) = Err IndexError) as ->; [|done].
  unfold fitness_step. simpl.
  by rewrite Hpre, (lookup_ge_None_2 items (length items)) by lia.
Qed.

(** X12: a vector longer than the item list makes [fitness] raise
    [IndexError]. *)
Theorem fitness_vector_too_long solution items capacidad :
  (length items < length solution)%nat →
  fitness solution items capacidad = Err IndexError.
Proof. apply fitness_IndexError. Qed.

Lemma fitness_vector_too_long_witness :
  (length [5]%Z < length [0; 0]%Z)%nat ∧ fitness [0; 0] [5] 10 = Err IndexError.
Proof.
  assert (length [5]%Z < length [0; 0]%Z)%nat as H1 by (simpl; lia).
  exact (conj H1 (fitness_vector_too_long [0; 0] [5] 10 H1)).
Defined.

Lemma bins_sum_lista solution items (m : gmap Z Z) :
  (∀ l, m !! l = if decide (l ∈ solution)
                 then Some (pysum (grupo solution items l)) else None) →
  (map_to_list m).*2 ≡ₚ (λ l, pysum (grupo solution items l)) <$> etiquetas solution.
Proof.
  intros Hm.
  set (L := (λ l, (l, pysum (grupo solution items l))) <$> etiquetas solution).
  assert (L.*1 = etiquetas solution) as HL1.
  { unfold L. rewrite <- list_fmap_compose. apply list_fmap_id. }
  assert (m = list_to_map L) as ->.
  { apply map_eq. intros l. rewrite Hm. symmetry. case_decide as Hl.
    - apply elem_of_list_to_map_1.
      + rewrite HL1. apply etiquetas_NoDup.
      + apply list_elem_of_fmap. exists l. split; [done|]. by apply elem_of_etiquetas.
    - apply not_elem_of_list_to_map_1. rewrite HL1. by rewrite elem_of_etiquetas. }
  rewrite map_to_list_to_map by (rewrite HL1; apply etiquetas_NoDup).
  unfold L. by rewrite <- list_fmap_compose.
Qed.

(** The fitness written out over the labels of the vector. *)
Lemma fitness_formula solution items capacidad :
  (length solution ≤ length items)%nat →
  fitness solution items capacidad
  = Ok (Z.of_nat (num_bins solution)
        + pysum ((λ c, Z.max 0 (pysum c - capacidad))
                   <$> (grupo solution items <$> etiquetas solution)) * 10).
Proof.
  intros Hlen. unfold fitness.
  destruct (bins_sum_prefijo items solution Hlen) as (m & -> & Hm). simpl.
  do 2 f_equal.
  - do 2 f_equal. unfold num_bins. rewrite <- size_dom. f_equal.
    apply set_eq. intros l. rewrite elem_of_dom, elem_of_list_to_set, Hm.
    case_decide; [by split; eauto|]. split; [by intros [? ?]|done].
  - f_equal.
    rewrite (pysum_Permutation _ ((λ w, Z.max 0 (w - capacidad))
               <$> ((λ l, pysum (grupo solution items l)) <$> etiquetas solution))).
    + by rewrite <- !list_fmap_compose.
    + apply fmap_Permutation. by apply bins_sum_lista.
Qed.

(** X13: the fitness of a vector no longer than the item list is the
    number of bins of its decoded packing plus ten times the total
    excess of those bins over the capacity. *)
Theorem fitness_counts_bins_and_overflow solution items capacidad :
  (length solution ≤ length items)%nat →
  ∃ cajas,
    decodificar_bins solution items = Ok cajas ∧
    fitness solution items capacidad
    = Ok (Z.of_nat (length cajas)
          + pysum ((λ c, Z.max 0 (pysum c - capacidad)) <$> cajas) * 10).
Proof.
  intros Hlen. eexists. split; [by apply decodificar_bins_grupos|].
  rewrite fitness_formula by done.
  by rewrite length_fmap, length_etiquetas.
Qed.

Lemma fitness_counts_bins_and_overflow_witness :
  (length [0; 0; 1]%Z ≤ length [3; 3; 3]%Z)%nat ∧
  ∃ cajas,
    decodificar_bins [0; 0; 1] [3; 3; 3] = Ok cajas ∧
    fitness [0; 0; 1] [3; 3; 3] 5
    = Ok (Z.of_nat (length cajas)
          + pysum ((λ c, Z.max 0 (pysum c - 5)) <$> cajas) * 10).
Proof.
  assert (length [0; 0; 1]%Z ≤ length [3; 3; 3]%Z)%nat as H1 by (simpl; lia).
  exact (conj H1 (fitness_counts_bins_and_overflow [0; 0; 1] [3; 3; 3] 5 H1)).
Defined.

(** ** Labels are names only *)

Lemma etiquetas_fmap (f : Z → Z) `{!Inj (=) (=) f} solution :
  etiquetas (f <$> solution) = f <$> etiquetas solution.
Proof.
  induction solution as [|b solution IH] using rev_ind; [done|].
  rewrite fmap_app. simpl. rewrite !etiquetas_snoc, fmap_app, IH. f_equal.
  destruct (decide (b ∈ solution)) as [Hb|Hb].
  - rewrite decide_True; [done|]. by apply list_elem_of_fmap_2.
  - rewrite decide_False; [done|]. by rewrite (list_elem_of_fmap_inj f).
Qed.

Lemma grupo_fmap (f : Z → Z) `{!Inj (=) (=) f} solution items l :
  grupo (f <$> solution) items (f l) = grupo solution items l.
Proof.
  induction solution as [|b solution IH] using rev_ind; [done|].
  rewrite fmap_app. simpl. rewrite !grupo_snoc, IH, length_fmap. f_equal.
  destruct (decide (b = l)) as [->|Hne].
  - by rewrite decide_True.
  - rewrite decide_False; [done|]. intros Heq. by apply Hne, (inj f).
Qed.

(** X14: renaming the labels of a vector one-to-one changes neither the
    decoded bins nor the fitness, errors included. *)
Theorem relabelling_changes_nothing (f : Z → Z) solution items capacidad :
  Inj (=) (=) f →
  decodificar_bins (f <$> solution) items = decodificar_bins solution items ∧
  fitness (f <$> solution) items capacidad = fitness solution items capacidad.
Proof.
  intros Hf.
  destruct (decide (length solution ≤ length items)%nat) as [Hlen|Hlen].
  - assert (grupo (f <$> solution) items <$> etiquetas (f <$> solution)
            = grupo solution items <$> etiquetas solution) as Heq.
    { rewrite etiquetas_fmap by done. rewrite <- list_fmap_compose.
      apply list_fmap_ext. intros i l _. simpl. by apply grupo_fmap. }
    split.
    + rewrite !decodificar_bins_grupos by (by rewrite ?length_fmap). by rewrite Heq.
    + rewrite !fitness_formula by (by rewrite ?length_fmap). rewrite Heq.
      do 3 f_equal. rewrite <- !length_etiquetas, etiquetas_fmap by done.
      by rewrite length_fmap.
  - split.
    + rewrite !decodificar_bins_IndexError; [done|lia|rewrite length_fmap; lia].
    + rewrite !fitness_IndexError; [done|lia|rewrite length_fmap; lia].
Qed.

Lemma relabelling_changes_nothing_witness :
  Inj (=) (=) (Z.add 5) ∧
  decodificar_bins (Z.add 5 <$> [0; 0; 1]) [3; 3; 3]
  = decodificar_bins [0; 0; 1] [3; 3; 3] ∧
  fitness (Z.add 5 <$> [0; 0; 1]) [3; 3; 3] 5 = fitness [0; 0; 1] [3; 3; 3] 5.
Proof.
  assert (Inj (=) (=) (Z.add 5)) as H1 by (intros x y; lia).
  exact (conj H1 (relabelling_changes_nothing (Z.add 5) [0; 0; 1] [3; 3; 3] 5 H1)).
Defined.


(** ** The individual of least fitness *)

Lemma min_fitness_desde_spec items capacidad resto :
  ∀ previos i mejor f s,
    previos !! i = Some mejor →
    fitness mejor items capacidad = Ok f →
    (∀ j v, previos !! j = Some v →
            ∃ fv, fitness v items capacidad = Ok fv ∧ f ≤ fv ∧ ((j < i)%nat → f < fv)) →
    min_fitness_desde items capacidad mejor f resto = Ok s →
    ∃ i' fs,
      (previos ++ resto) !! i' = Some s ∧
      fitness s items capacidad = Ok fs ∧
      ∀ j v, (previos ++ resto) !! j = Some v →
             ∃ fv, fitness v items capacidad = Ok fv ∧ fs ≤ fv ∧
                   ((j < i')%nat → fs < fv).
Proof.
  induction resto as [|x resto IH]; intros previos i mejor f s Hi Hf Hprev H;
    simpl in H.
  { simplify_eq. rewrite app_nil_r. eauto. }
  apply rbind_Ok_inv in H as (fx & Hfx & H).
  apply lookup_lt_Some in Hi as Hlt.
  rewrite (cons_middle x previos resto), app_assoc.
  case_decide as Hd.
  - apply (IH (previos ++ [x]) (length previos) x fx s); [|done| |done].
    + by rewrite list_lookup_middle.
    + intros j v Hj. apply lookup_app_Some in Hj as [Hj|[Hlen Hj]].
      * destruct (Hprev j v Hj) as (fv & Hfv & Hle & _).
        exists fv. split_and!; [done|lia|lia].
      * apply list_lookup_singleton_Some in Hj as [Hj ->].
        exists fx. split_and!; [done|lia|lia].
  - apply (IH (previos ++ [x]) i mejor f s); [|done| |done].
    + by apply lookup_app_l_Some.
    + intros j v Hj. apply lookup_app_Some in Hj as [Hj|[Hlen Hj]].
      * by apply Hprev.
      * apply list_lookup_singleton_Some in Hj as [Hj ->].
        exists fx. split_and!; [done|lia|lia].
Qed.

Lemma min_fitness_spec items capacidad pop s :
  min_fitness items capacidad pop = Ok s →
  ∃ i fs,
    pop !! i = Some s ∧ fitness s items capacidad = Ok fs ∧
    ∀ j v, pop !! j = Some v →
           ∃ fv, fitness v items capacidad = Ok fv ∧ fs ≤ fv ∧
                 ((j < i)%nat → fs < fv).
Proof.
  destruct pop as [|x pop]; [done|]. simpl. intros H.
  apply rbind_Ok_inv in H as (fx & Hfx & H).
  apply (min_fitness_desde_spec items capacidad pop [x] 0%nat x fx s); [done|done| |done].
  intros j v Hj. apply list_lookup_singleton_Some in Hj as [-> ->].
  exists fx. split_and!; [done|lia|lia].
Qed.

(** X15: when the choice by fitness returns, it returns a member of the
    sequence whose fitness is at most that of every member and strictly
    below that of every member before it: the first of least fitness. *)
Theorem min_fitness_returns_first_of_least_fitness items capacidad pop s :
  min_fitness items capacidad pop = Ok s →
  ∃ i fs,
    pop !! i = Some s ∧ fitness s items capacidad = Ok fs ∧
    ∀ j v, pop !! j = Some v →
           ∃ fv, fitness v items capacidad = Ok fv ∧ fs ≤ fv ∧
                 ((j < i)%nat → fs < fv).
Proof. apply min_fitness_spec. Qed.

Lemma min_fitness_returns_first_of_least_fitness_witness :
  min_fitness [3; 3; 3] 5 [[0; 0; 0]; [0; 1; 2]; [2; 1; 0]] = Ok [0; 1; 2] ∧
  ∃ i fs,
    [[0; 0; 0]; [0; 1; 2]; [2; 1; 0]] !! i = Some [0; 1; 2] ∧
    fitness [0; 1; 2] [3; 3; 3] 5 = Ok fs ∧
    ∀ j v, [[0; 0; 0]; [0; 1; 2]; [2; 1; 0]] !! j = Some v →
           ∃ fv, fitness v [3; 3; 3] 5 = Ok fv ∧ fs ≤ fv ∧ ((j < i)%nat → fs < fv).
Proof.
  assert (min_fitness [3; 3; 3] 5 [[0; 0; 0]; [0; 1; 2]; [2; 1; 0]] = Ok [0; 1; 2])
    as H1 by (vm_compute; reflexivity).
  exact (conj H1 (min_fitness_returns_first_of_least_fitness _ _ _ _ H1)).
Defined.

(** ** The initial population *)

Lemma repetir_Ok_Forall {A} (P : A → Prop) (m : M A) n :
  (∀ g, ∃ x g', m g = Ok (x, g') ∧ P x) →
  ∀ g, ∃ l g', repetir n m g = Ok (l, g') ∧ length l = n ∧ Forall P l.
Proof.
  intros Hm. induction n as [|n IH]; intros g; simpl.
  { eexists _, _. split; [done|]. by split. }
  destruct (Hm g) as (x & g1 & Hx & HP). rewrite (bind_Ok _ _ _ _ _ Hx).
  destruct (IH g1) as (l & g2 & Hl & Hlen & HF). rewrite (bind_Ok _ _ _ _ _ Hl).
  eexists _, _. split; [done|]. simpl. split; [by rewrite Hlen|by constructor].
Qed.

(** X16: [generate_population] never raises; it returns
    [population_size] vectors, each with one label per item, every label
    between 0 and [n_items - 1]. *)
Theorem generate_population_shape n_items population_size g :
  ∃ pop g',
    generate_population n_items population_size g = Ok (pop, g') ∧
    length pop = population_size ∧
    Forall (λ v, length v = n_items ∧ Forall (λ b, 0 ≤ b < Z.of_nat n_items) v) pop.
Proof.
  unfold generate_population.
  apply (repetir_Ok_Forall
           (λ v, length v = n_items ∧ Forall (λ b, 0 ≤ b < Z.of_nat n_items) v)).
  intros g1. destruct n_items as [|n].
  { eexists _, _. split; [done|]. by split. }
  destruct (repetir_Ok_Forall (λ b, 0 ≤ b < Z.of_nat (S n))
              (randint 0 (Z.of_nat (S n) - 1)) (S n)) with (g := g1)
    as (v & g2 & Hv & Hlen & HF).
  { intros g2. destruct (randint_Ok 0 (Z.of_nat (S n) - 1) g2) as (b & g3 & Hb); [lia|].
    exists b, g3. split; [done|]. apply randint_Ok_inv in Hb. lia. }
  by exists v, g2.
Qed.

(** ** Tournament selection *)

(** X17: over vectors no longer than the item list, a tournament of [k]
    returns a member of the population when [1 <= k <= len(pop)], and
    raises [ValueError] when [k] is zero or exceeds the population. *)
Theorem selection_returns_a_member_or_raises pop items capacidad k g :
  Forall (λ v, length v ≤ length items)%nat pop →
  ((1 ≤ k ≤ length pop)%nat →
   ∃ s g', selection pop items capacidad k g = Ok (s, g') ∧ s ∈ pop) ∧
  ((k = 0 ∨ length pop < k)%nat →
   selection pop items capacidad k g = Err ValueError).
Proof.
  intros Hpop. split.
  - intros Hk. destruct (selection_Ok pop items capacidad k g) as (s & g' & Hs);
      [lia|done|].
    exists s, g'. split; [done|]. by eapply selection_Ok_inv.
  - intros [->|Hk]; [|by apply selection_Err].
    unfold selection, sample. rewrite decide_True by lia. done.
Qed.

Lemma selection_returns_a_member_or_raises_witness :
  Forall (λ v, length v ≤ length [3; 3]%Z)%nat [[0; 1]; [1; 1]; [0; 0]] ∧
  ((1 ≤ 3 ≤ length [[0; 1]; [1; 1]; [0; 0]]%Z)%nat →
   ∃ s g', selection [[0; 1]; [1; 1]; [0; 0]] [3; 3] 5 3 (λ _, 0%N) = Ok (s, g') ∧
           s ∈ [[0; 1]; [1; 1]; [0; 0]]) ∧
  ((3 = 0 ∨ length [[0; 1]; [1; 1]; [0; 0]]%Z < 3)%nat →
   selection [[0; 1]; [1; 1]; [0; 0]] [3; 3] 5 3 (λ _, 0%N) = Err ValueError).
Proof.
  assert (Forall (λ v, length v ≤ length [3; 3]%Z)%nat [[0; 1]; [1; 1]; [0; 0]]) as H1
    by (repeat constructor).
  exact (conj H1 (selection_returns_a_member_or_raises
                    [[0; 1]; [1; 1]; [0; 0]] [3; 3] 5 3 (λ _, 0%N) H1)).
Defined.


(** ** Crossover *)

Lemma lookup_cruce (p q : list Z) (point i : nat) :
  (point ≤ length p)%nat →
  (take point p ++ drop point q) !! i
  = if decide (i < point)%nat then p !! i else q !! i.
Proof.
  intros Hpoint. case_decide as Hi.
  - rewrite lookup_app_l by (rewrite length_take; lia).
    by rewrite lookup_take_lt by lia.
  - rewrite lookup_app_r by (rewrite length_take; lia).
    rewrite length_take, lookup_drop. f_equal. lia.
Qed.

(** X18: when [crossover] returns for parents of equal length, the
    children have that length and there is a cut point before which
    each child carries the genes of its own parent and from which on
    those of the other parent; the cut is the whole length for parents
    shorter than two, and leaves at least one gene on either side for
    parents of three or more genes. *)
Theorem crossover_swaps_the_tails parent1 parent2 g child1 child2 g' :
  length parent2 = length parent1 →
  crossover parent1 parent2 g = Ok ((child1, child2), g') →
  length child1 = length parent1 ∧ length child2 = length parent1 ∧
  ∃ point : nat,
    (∀ i, (i < point)%nat →
          child1 !! i = parent1 !! i ∧ child2 !! i = parent2 !! i) ∧
    (∀ i, (point ≤ i)%nat →
          child1 !! i = parent2 !! i ∧ child2 !! i = parent1 !! i) ∧
    ((length parent1 < 2)%nat → point = length parent1) ∧
    ((2 ≤ length parent1)%nat → (1 ≤ point ≤ length parent1 - 2)%nat).
Proof.
  intros Hlen H.
  destruct (crossover_Ok_inv _ _ _ _ _ _ H Hlen) as [Hc1 Hc2].
  split; [done|]. split; [done|].
  unfold crossover in H. case_decide as Hcorto.
  - apply mret_Ok_inv in H as [[= -> ->] _]. exists (length parent1). split_and!.
    + done.
    + intros i Hi. by rewrite !lookup_ge_None_2 by lia.
    + done.
    + lia.
  - inv_run H. apply mret_Ok_inv in H as [[= -> ->] _].
    match goal with Hr : randint _ _ _ = Ok (?p, _) |- _ =>
      apply randint_Ok_inv in Hr; exists (Z.to_nat p); rename Hr into Hp
    end.
    split_and!.
    + intros i Hi. rewrite !lookup_cruce by lia. by rewrite !decide_True by done.
    + intros i Hi. rewrite !lookup_cruce by lia. by rewrite !decide_False by lia.
    + lia.
    + lia.
Qed.

Lemma crossover_swaps_the_tails_witness :
  length [5; 6; 7; 8] = length [1; 2; 3; 4] ∧
  crossover [1; 2; 3; 4] [5; 6; 7; 8] (λ _, 1%N)
  = Ok (([1; 2; 7; 8], [5; 6; 3; 4]), λ _, 1%N) ∧
  length [1; 2; 7; 8] = length [1; 2; 3; 4] ∧
  length [5; 6; 3; 4] = length [1; 2; 3; 4] ∧
  ∃ point : nat,
    (∀ i, (i < point)%nat →
          [1; 2; 7; 8] !! i = [1; 2; 3; 4] !! i ∧
          [5; 6; 3; 4] !! i = [5; 6; 7; 8] !! i) ∧
    (∀ i, (point ≤ i)%nat →
          [1; 2; 7; 8] !! i = [5; 6; 7; 8] !! i ∧
          [5; 6; 3; 4] !! i = [1; 2; 3; 4] !! i) ∧
    ((length [1; 2; 3; 4]%Z < 2)%nat → point = length [1; 2; 3; 4]) ∧
    ((2 ≤ length [1; 2; 3; 4]%Z)%nat → (1 ≤ point ≤ length [1; 2; 3; 4]%Z - 2)%nat).
Proof.
  assert (length [5; 6; 7; 8] = length [1; 2; 3; 4]) as H1 by done.
  assert (crossover [1; 2; 3; 4] [5; 6; 7; 8] (λ _, 1%N)
          = Ok (([1; 2; 7; 8], [5; 6; 3; 4]), λ _, 1%N)) as H2
    by (vm_compute; reflexivity).
  exact (conj H1 (conj H2 (crossover_swaps_the_tails _ _ _ _ _ _ H1 H2))).
Defined.

(** X19: [crossover] raises for parents of exactly two genes and for no
    other length, and [ValueError] is the only exception it raises. *)
Theorem crossover_raises_exactly_for_two_genes parent1 parent2 g :
  (∀ e, crossover parent1 parent2 g = Err e →
        length parent1 = 2%nat ∧ e = ValueError) ∧
  (length parent1 = 2%nat → crossover parent1 parent2 g = Err ValueError).
Proof.
  split; [|apply crossover_dos].
  intros e He.
  destruct (decide (length parent1 = 2%nat)) as [H2|H2].
  { rewrite crossover_dos in He by done. by simplify_eq. }
  exfalso. destruct (decide (length parent1 < 2)%nat) as [Hc|Hc].
  - by rewrite crossover_corto in He.
  - destruct (crossover_largo parent1 parent2 g) as (p & g' & _ & Heq); [lia|].
    by rewrite Heq in He.
Qed.

(** ** Mutation *)

(** X20: when [mutate] returns, the vector has kept its length and is
    either unchanged or changed at one position to a label between 0
    and [len - 1]; with a mutation rate of zero or less it is unchanged. *)
Theorem mutate_changes_at_most_one_gene solution mutation_rate g mutada g' :
  mutate solution mutation_rate g = Ok (mutada, g') →
  length mutada = length solution ∧
  (mutada = solution ∨
   ∃ (idx : nat) v,
     (idx < length solution)%nat ∧ 0 ≤ v < Z.of_nat (length solution) ∧
     mutada = <[idx := v]> solution) ∧
  ((mutation_rate <= 0)%Q → mutada = solution).
Proof.
  intros H. split; [by eapply mutate_Ok_inv|]. split.
  - unfold mutate in H. inv_run H. destruct (Qlt_le_dec _ _).
    + inv_run H. apply mret_Ok_inv in H as [-> _].
      repeat match goal with
      | Hr : randint _ _ _ = Ok _ |- _ => apply randint_Ok_inv in Hr
      end.
      right. eexists _, _. split_and!; [|..|done]; lia.
    + apply mret_Ok_inv in H as [-> _]. by left.
  - intros Hrate. destruct (mutate_sin_tasa solution mutation_rate g Hrate) as [g1 Hg].
    rewrite Hg in H. by simplify_eq.
Qed.

Lemma mutate_changes_at_most_one_gene_witness :
  mutate [4; 4; 4] (1 # 1) (λ _, 1%N) = Ok ([4; 1; 4], λ _, 1%N) ∧
  length [4; 1; 4] = length [4; 4; 4] ∧
  ([4; 1; 4] = [4; 4; 4] ∨
   ∃ (idx : nat) v,
     (idx < length [4; 4; 4]%Z)%nat ∧ 0 ≤ v < Z.of_nat (length [4; 4; 4]) ∧
     [4; 1; 4] = <[idx := v]> [4; 4; 4]) ∧
  ((1 # 1 <= 0)%Q → [4; 1; 4] = [4; 4; 4]).
Proof.
  assert (mutate [4; 4; 4] (1 # 1) (λ _, 1%N) = Ok ([4; 1; 4], λ _, 1%N)) as H1
    by (vm_compute; reflexivity).
  exact (conj H1 (mutate_changes_at_most_one_gene _ _ _ _ _ H1)).
Defined.

(** X21: [mutate] raises only on the empty vector, only [ValueError], and
    only with a positive mutation rate; on the empty vector a rate of one
    or more always raises. *)
Theorem mutate_raises_only_on_the_empty_vector solution mutation_rate g :
  (∀ e, mutate solution mutation_rate g = Err e →
        solution = [] ∧ e = ValueError ∧ (0 < mutation_rate)%Q) ∧
  (solution = [] → (1 <= mutation_rate)%Q →
   mutate solution mutation_rate g = Err ValueError).
Proof.
  split.
  - intros e He. split_and!.
    + destruct solution as [|b solution]; [done|].
      destruct (mutate_Ok (b :: solution) mutation_rate g) as (s & g' & Hs); [done|].
      by rewrite Hs in He.
    + unfold mutate in He.
      destruct (random_Ok g) as (r & g1 & Hr). rewrite (bind_Ok _ _ _ _ _ Hr) in He.
      destruct (Qlt_le_dec _ _); [|done].
      destruct (decide (0 ≤ Z.of_nat (length solution) - 1)) as [Hn|Hn].
      * destruct (randint_Ok 0 _ g1 Hn) as (i & g2 & Hi).
        rewrite (bind_Ok _ _ _ _ _ Hi) in He.
        destruct (randint_Ok 0 _ g2 Hn) as (v & g3 & Hv).
        by rewrite (bind_Ok _ _ _ _ _ Hv) in He.
      * assert (randint 0 (Z.of_nat (length solution) - 1) g1 = Err ValueError)
          as Herr by (apply randint_Err; lia).
        rewrite (bind_Err _ _ _ _ Herr) in He. by simplify_eq.
    + destruct (Qlt_le_dec 0 mutation_rate) as [|Hle]; [done|].
      destruct (mutate_sin_tasa solution mutation_rate g Hle) as [g1 Hg].
      by rewrite Hg in He.
  - intros -> Hrate. by apply mutate_vacio.
Qed.


(** ** One generation, step by step *)

Section generacion_detalle.

Context (items : list Z) (capacidad : Z).
Context (population_size : nat) (mutation_rate : Q) (patience_no_change : nat).

Local Abbreviation reproduccion := (reproduccion items capacidad mutation_rate).
Local Abbreviation generacion :=
  (generacion items capacidad population_size mutation_rate patience_no_change).
Local Abbreviation bucle :=
  (bucle items capacidad population_size mutation_rate patience_no_change).

(** Everything a successful generation has computed. *)
Lemma generacion_detalle st g st' romper g' :
  generacion st g = Ok ((st', romper), g') →
  ∃ elite hijos best_gen (mejora : bool),
    min_fitness items capacidad (population st) = Ok elite ∧
    reproduccion (population st) (population_size - 1) g = Ok (hijos, g') ∧
    min_fitness items capacidad (elite :: hijos) = Ok best_gen ∧
    population st' = elite :: hijos ∧
    history_bins st' = history_bins st ++ [num_bins best_gen] ∧
    best_overall st' = (if mejora then best_gen else best_overall st).
Proof.
  intros H. unfold Genetico.generacion in H. inv_run H.
  repeat match goal with
  | Hl : lift _ _ = Ok _ |- _ => apply lift_Ok_inv in Hl as [Hl ->]
  end.
  destruct (early_stopping _ _ _ _) as [[last sin] rom].
  apply mret_Ok_inv in H as [[= -> ->] ->]. simpl.
  match goal with
  | Hr : Genetico.reproduccion _ _ _ _ _ _ = Ok (?hijos, _),
    He : min_fitness _ _ (population st) = Ok ?elite,
    Hg : min_fitness _ _ (?elite :: ?hijos) = Ok ?best_gen,
    Hm : mejora_global _ _ _ _ _ = Ok ?mejora |- _ =>
      exists elite, hijos, best_gen, mejora
  end.
  done.
Qed.

(** *** A property of vectors that the operators keep *)

Section propiedad.

Context (P : list Z → Prop).
Hypothesis cruce_P : ∀ p1 p2 g c1 c2 g',
  P p1 → P p2 → crossover p1 p2 g = Ok ((c1, c2), g') → P c1 ∧ P c2.
Hypothesis mutacion_P : ∀ s g s' g',
  P s → mutate s mutation_rate g = Ok (s', g') → P s'.

Lemma reproduccion_P pop :
  Forall P pop →
  ∀ faltan g hijos g',
    reproduccion pop faltan g = Ok (hijos, g') → Forall P hijos.
Proof.
  intros Hpop faltan. induction (lt_wf faltan) as [faltan _ IH].
  intros g hijos g' H. destruct faltan as [|faltan].
  { apply mret_Ok_inv in H as [-> _]. done. }
  rewrite reproduccion_pareja in H. inv_run H.
  match type of H with context [let '(_, _) := ?p in _] => destruct p as [c1 c2] end.
  inv_run H. rewrite Forall_forall in Hpop.
  repeat match goal with
  | Hs : selection _ _ _ _ _ = Ok _ |- _ => apply selection_Ok_inv, Hpop in Hs
  end.
  match goal with
  | Hc : crossover _ _ _ = Ok _ |- _ =>
      apply cruce_P in Hc as [Hc1 Hc2]; [|done..]
  end.
  match goal with
  | Hm : mutate c1 _ _ = Ok _ |- _ => apply mutacion_P in Hm as Hm1; [|done]
  end.
  destruct faltan as [|faltan].
  { apply mret_Ok_inv in H as [-> _]. by repeat constructor. }
  inv_run H. apply mret_Ok_inv in H as [-> _].
  match goal with
  | Hm : mutate c2 _ _ = Ok _ |- _ => apply mutacion_P in Hm as Hm2; [|done]
  end.
  match goal with
  | Hr : Genetico.reproduccion _ _ _ _ _ _ = Ok _ |- _ =>
      apply IH in Hr; [|lia]
  end.
  by repeat constructor.
Qed.

Lemma generacion_P st g st' romper g' :
  Forall P (population st) → P (best_overall st) →
  generacion st g = Ok ((st', romper), g') →
  Forall P (population st') ∧ P (best_overall st').
Proof.
  intros Hpop Hbest H.
  apply generacion_detalle in H
    as (elite & hijos & best_gen & mejora & He & Hr & Hg & -> & _ & ->).
  apply min_fitness_Ok_inv in He. apply reproduccion_P in Hr; [|done].
  assert (Forall P (elite :: hijos)) as Hnew.
  { constructor; [|done]. rewrite Forall_forall in Hpop. by apply Hpop. }
  split; [done|]. destruct mejora; [|done].
  apply min_fitness_Ok_inv in Hg. rewrite Forall_forall in Hnew. by apply Hnew.
Qed.

Lemma bucle_P generations :
  ∀ st g st' g',
    Forall P (population st) → P (best_overall st) →
    bucle generations st g = Ok (st', g') →
    Forall P (population st') ∧ P (best_overall st').
Proof.
  induction generations as [|n IH]; intros st g st' g' Hpop Hbest H; simpl in H.
  { by apply mret_Ok_inv in H as [-> _]. }
  inv_run H.
  match type of H with context [let '(_, _) := ?p in _] => destruct p as [st1 romper] end.
  match goal with
  | Hg : Genetico.generacion _ _ _ _ _ _ _ = Ok _ |- _ =>
      apply generacion_P in Hg as [Hpop1 Hbest1]; [|done..]
  end.
  destruct romper.
  - by apply mret_Ok_inv in H as [-> _].
  - by eapply IH.
Qed.

End propiedad.

(** *** Generations that complete *)

Lemma reproduccion_Ok pop :
  Forall (λ v, length v = length items) pop →
  (3 ≤ length pop)%nat →
  length items = 1%nat ∨ (3 ≤ length items)%nat →
  ∀ faltan g, ∃ hijos g', reproduccion pop faltan g = Ok (hijos, g').
Proof.
  intros Hpop Hsize Hn faltan. induction (lt_wf faltan) as [faltan _ IH].
  intros g. destruct faltan as [|faltan]; [by eexists _, _|].
  rewrite reproduccion_pareja.
  assert (Forall (λ v, length v ≤ length items)%nat pop) as Hle
    by (eapply Forall_impl; [exact Hpop|]; simpl; intros; lia).
  destruct (selection_Ok pop items capacidad 3 g) as (p1 & g1 & Hp1); [lia|done|].
  rewrite (bind_Ok _ _ _ _ _ Hp1).
  destruct (selection_Ok pop items capacidad 3 g1) as (p2 & g2 & Hp2); [lia|done|].
  rewrite (bind_Ok _ _ _ _ _ Hp2).
  apply selection_Ok_inv in Hp1, Hp2. rewrite Forall_forall in Hpop.
  apply Hpop in Hp1, Hp2.
  assert (∃ c1 c2 g3, crossover p1 p2 g2 = Ok ((c1, c2), g3)) as (c1 & c2 & g3 & Hc).
  { destruct Hn as [Hn|Hn].
    - eexists _, _, _. apply crossover_corto. lia.
    - destruct (crossover_largo p1 p2 g2) as (p & g3 & _ & Heq); [lia|]. eauto. }
  rewrite (bind_Ok _ _ _ _ _ Hc).
  apply crossover_Ok_inv in Hc as [Hc1 Hc2]; [|congruence].
  destruct (mutate_Ok c1 mutation_rate g3) as (m1 & g4 & Hm1).
  { destruct c1; simpl in *; [lia|done]. }
  rewrite (bind_Ok _ _ _ _ _ Hm1).
  destruct faltan as [|faltan]; [by eexists _, _|].
  destruct (mutate_Ok c2 mutation_rate g4) as (m2 & g5 & Hm2).
  { destruct c2; simpl in *; [lia|done]. }
  rewrite (bind_Ok _ _ _ _ _ Hm2).
  destruct (IH faltan ltac:(lia) g5) as (resto & g6 & Hr).
  rewrite (bind_Ok _ _ _ _ _ Hr). by eexists _, _.
Qed.

Lemma generacion_Ok st g :
  bien_formado items st →
  length (population st) = population_size →
  population_size = 1%nat ∨
    ((3 ≤ population_size)%nat ∧
     (length items = 1%nat ∨ (3 ≤ length items)%nat)) →
  ∃ st' romper g',
    generacion st g = Ok ((st', romper), g') ∧
    bien_formado items st' ∧ length (population st') = population_size.
Proof.
  intros Hst Hlen Hcaso.
  assert (∃ r, generacion st g = Ok r) as ([[st' romper] g'] & Hgen).
  { destruct Hst as (Hpop & Hne & Hbest).
    destruct Hcaso as [Huno|[Hsize Hn]].
    { destruct (generacion_uno items capacidad population_size mutation_rate
                  patience_no_change st g Huno) as (st' & r & Hg); [done|]. eauto. }
    unfold Genetico.generacion.
    assert (Forall (λ v, length v ≤ length items)%nat (population st)) as Hle
      by (eapply Forall_impl; [exact Hpop|]; simpl; intros; lia).
    destruct (min_fitness_Ok items capacidad (population st)) as [elite Helite];
      [done|done|].
    rewrite (bind_Ok _ _ _ _ _ (lift_Ok _ g _ Helite)).
    destruct (reproduccion_Ok (population st) Hpop ltac:(lia) Hn
                (population_size - 1) g) as (hijos & g1 & Hr).
    rewrite (bind_Ok _ _ _ _ _ Hr).
    apply reproduccion_Ok_inv in Hr as [_ Hhijos]; [|done].
    apply min_fitness_Ok_inv in Helite as Hin.
    assert (Forall (λ v, length v = length items) (elite :: hijos)) as Hnew.
    { constructor; [|done]. rewrite Forall_forall in Hpop. by apply Hpop. }
    destruct (min_fitness_Ok items capacidad (elite :: hijos)) as [best_gen Hgen];
      [done| |].
    { eapply Forall_impl; [exact Hnew|]. simpl. intros. lia. }
    rewrite (bind_Ok _ _ _ _ _ (lift_Ok _ g1 _ Hgen)).
    apply min_fitness_Ok_inv in Hgen.
    assert (length best_gen = length items) as Hlb.
    { rewrite Forall_forall in Hnew. by apply Hnew. }
    destruct (mejora_global_Ok items capacidad best_gen (num_bins best_gen) st)
      as [b Hb]; [lia..|].
    rewrite (bind_Ok _ _ _ _ _ (lift_Ok _ g1 _ Hb)).
    destruct (early_stopping _ _ _ _) as [[last sin] rom]. by eexists. }
  exists st', romper, g'. split; [done|].
  pose proof (generacion_Ok_inv _ _ _ _ _ _ _ _ _ _ Hst Hgen) as [Hst' _].
  split; [done|].
  apply generacion_detalle in Hgen
    as (elite & hijos & best_gen & mejora & _ & Hr & _ & -> & _).
  destruct Hst as (Hpop & _).
  apply reproduccion_Ok_inv in Hr as [Hl _]; [|done]. simpl. rewrite Hl.
  destruct Hcaso as [->|[? _]]; lia.
Qed.

Lemma bucle_Ok generations :
  population_size = 1%nat ∨
    ((3 ≤ population_size)%nat ∧
     (length items = 1%nat ∨ (3 ≤ length items)%nat)) →
  ∀ st g,
    bien_formado items st →
    length (population st) = population_size →
    ∃ st' g', bucle generations st g = Ok (st', g') ∧ bien_formado items st'.
Proof.
  intros Hcaso. induction generations as [|n IH]; intros st g Hst Hlen; simpl.
  { by eexists _, _. }
  destruct (generacion_Ok st g Hst Hlen Hcaso) as (st1 & romper & g1 & Hgen & Hst1 & Hl1).
  rewrite (bind_Ok _ _ _ _ _ Hgen).
  destruct romper; [by eexists _, _|]. by apply IH.
Qed.

End generacion_detalle.


(** ** Labels stay in range *)

Lemma num_bins_le v : (num_bins v ≤ length v)%nat.
Proof.
  rewrite <- length_etiquetas. apply submseteq_length, NoDup_submseteq.
  - apply etiquetas_NoDup.
  - intros x. by rewrite elem_of_etiquetas.
Qed.

Lemma num_bins_pos v : v ≠ [] → (1 ≤ num_bins v)%nat.
Proof.
  intros Hne. rewrite <- length_etiquetas.
  destruct v as [|b v]; [done|].
  assert (b ∈ etiquetas (b :: v)) as Hb by (apply elem_of_etiquetas; left).
  destruct (etiquetas (b :: v)); [by apply elem_of_nil in Hb|simpl; lia].
Qed.

Lemma crossover_rango n p1 p2 g c1 c2 g' :
  length p1 = n ∧ Forall (λ b, 0 ≤ b < Z.of_nat n) p1 →
  length p2 = n ∧ Forall (λ b, 0 ≤ b < Z.of_nat n) p2 →
  crossover p1 p2 g = Ok ((c1, c2), g') →
  (length c1 = n ∧ Forall (λ b, 0 ≤ b < Z.of_nat n) c1) ∧
  (length c2 = n ∧ Forall (λ b, 0 ≤ b < Z.of_nat n) c2).
Proof.
  intros [Hl1 Hr1] [Hl2 Hr2] H.
  destruct (crossover_Ok_inv _ _ _ _ _ _ H) as [Hc1 Hc2]; [congruence|].
  unfold crossover in H. case_decide.
  - apply mret_Ok_inv in H as [[= -> ->] _]. done.
  - inv_run H. apply mret_Ok_inv in H as [[= -> ->] _].
    split; (split; [congruence|]); apply Forall_app;
      split; (by apply Forall_take || by apply Forall_drop).
Qed.

Lemma mutate_rango n mutation_rate s g s' g' :
  length s = n ∧ Forall (λ b, 0 ≤ b < Z.of_nat n) s →
  mutate s mutation_rate g = Ok (s', g') →
  length s' = n ∧ Forall (λ b, 0 ≤ b < Z.of_nat n) s'.
Proof.
  intros [Hl Hr] H. split.
  { apply mutate_Ok_inv in H. congruence. }
  unfold mutate in H. inv_run H. destruct (Qlt_le_dec _ _).
  - inv_run H. apply mret_Ok_inv in H as [-> _].
    repeat match goal with
    | Hr : randint _ _ _ = Ok _ |- _ => apply randint_Ok_inv in Hr
    end.
    apply Forall_insert; [done|]. lia.
  - by apply mret_Ok_inv in H as [-> _].
Qed.

Lemma generate_population_rango n population_size g pop g' :
  generate_population n population_size g = Ok (pop, g') →
  Forall (λ v, length v = n ∧ Forall (λ b, 0 ≤ b < Z.of_nat n) v) pop.
Proof.
  unfold generate_population. intros H.
  eapply repetir_Ok_inv in H as [_ H]; [exact H|].
  intros g1 v g2 Hv. simpl.
  eapply repetir_Ok_inv in Hv; [exact Hv|].
  intros g3 b g4 Hb. apply randint_Ok_inv in Hb. simpl. lia.
Qed.

(** ** The solver, step by step *)

Section solver_detalle.

Context (sembrar : Z → rng) (items : list Z) (capacidad : Z).
Context (population_size generations : nat) (mutation_rate : Q).
Context (seed : option Z) (patience_no_change : nat).

Local Abbreviation genetic_algorithm_bpp :=
  (genetic_algorithm_bpp sembrar items capacidad population_size generations
     mutation_rate seed patience_no_change).
Local Abbreviation bucle :=
  (bucle items capacidad population_size mutation_rate patience_no_change).
Local Abbreviation generacion :=
  (generacion items capacidad population_size mutation_rate patience_no_change).

Lemma genetic_algorithm_bpp_detalle g k cajas best history g' :
  genetic_algorithm_bpp g = Ok ((k, cajas, best, history), g') →
  ∃ g1 poblacion g2 mejor st,
    generate_population (length items) population_size g1 = Ok (poblacion, g2) ∧
    min_fitness items capacidad poblacion = Ok mejor ∧
    bucle generations (Estado poblacion [] mejor (num_bins mejor) None 0%nat) g2
    = Ok (st, g') ∧
    min_fitness items capacidad (best_overall st :: population st) = Ok best ∧
    decodificar_bins best items = Ok cajas ∧
    k = length cajas ∧ history = history_bins st.
Proof.
  intros H. unfold Genetico.genetic_algorithm_bpp in H. inv_run H.
  repeat match goal with
  | Hl : lift _ _ = Ok _ |- _ => apply lift_Ok_inv in Hl as [Hl ->]
  end.
  apply mret_Ok_inv in H as [[= -> -> -> ->] ->].
  eexists _, _, _, _, _. split_and!; done.
Qed.

Lemma bucle_historia_rango generations' :
  ∀ st g st' g',
    bien_formado items st →
    Forall (λ b, (b ≤ length items)%nat ∧ (items ≠ [] → (1 ≤ b)%nat)) (history_bins st) →
    bucle generations' st g = Ok (st', g') →
    Forall (λ b, (b ≤ length items)%nat ∧ (items ≠ [] → (1 ≤ b)%nat)) (history_bins st').
Proof.
  induction generations' as [|n IH]; intros st g st' g' Hst Hh H; simpl in H.
  { by apply mret_Ok_inv in H as [-> _]. }
  inv_run H.
  match type of H with context [let '(_, _) := ?p in _] => destruct p as [st1 romper] end.
  match goal with
  | Hg : Genetico.generacion _ _ _ _ _ _ _ = Ok _ |- _ =>
      pose proof (generacion_Ok_inv _ _ _ _ _ _ _ _ _ _ Hst Hg) as [Hst1 _];
      apply generacion_detalle in Hg
        as (elite & hijos & best_gen & mejora & _ & _ & Hgen & Hpop1 & Hh1 & _)
  end.
  assert (Forall (λ b, (b ≤ length items)%nat ∧ (items ≠ [] → (1 ≤ b)%nat))
            (history_bins st1)) as Hhist1.
  { rewrite Hh1. apply Forall_app. split; [done|]. repeat constructor.
    - apply min_fitness_Ok_inv in Hgen. rewrite <- Hpop1 in Hgen.
      destruct Hst1 as (Hpop & _). rewrite Forall_forall in Hpop.
      rewrite <- (Hpop _ Hgen). apply num_bins_le.
    - intros Hne. apply num_bins_pos.
      apply min_fitness_Ok_inv in Hgen. rewrite <- Hpop1 in Hgen.
      destruct Hst1 as (Hpop & _). rewrite Forall_forall in Hpop.
      apply Hpop in Hgen. destruct best_gen; [|done]. by destruct items. }
  destruct romper.
  - by apply mret_Ok_inv in H as [-> _].
  - by eapply IH.
Qed.

(** What the four components of a returned result are. *)
Lemma genetic_algorithm_bpp_forma g k cajas best history g' :
  genetic_algorithm_bpp g = Ok ((k, cajas, best, history), g') →
  length best = length items ∧
  Forall (λ b, 0 ≤ b < Z.of_nat (length items)) best ∧
  cajas = grupo best items <$> etiquetas best ∧
  k = num_bins best ∧
  (k ≤ length items)%nat ∧ (items ≠ [] → (1 ≤ k)%nat) ∧
  Forall (λ c, c ≠ []) cajas ∧
  Forall (λ b, (b ≤ length items)%nat ∧ (items ≠ [] → (1 ≤ b)%nat)) history.
Proof.
  intros H.
  destruct (genetic_algorithm_bpp_detalle _ _ _ _ _ _ H)
    as (g1 & pop & g2 & mejor & st & Hgen & Hmejor & Hbucle & Hfinal & Hdec & -> & ->).
  pose proof (estado_inicial_bien_formado _ _ _ _ _ _ _ Hgen Hmejor) as Hini.
  pose proof (generate_population_rango _ _ _ _ _ Hgen) as Hrango.
  assert (length mejor = length items ∧
          Forall (λ b, 0 ≤ b < Z.of_nat (length items)) mejor) as Hmejor_r.
  { apply min_fitness_Ok_inv in Hmejor. rewrite Forall_forall in Hrango.
    by apply Hrango. }
  pose proof Hbucle as Hbucle'.
  apply (bucle_P items capacidad population_size mutation_rate patience_no_change
           (λ v, length v = length items ∧
                 Forall (λ b, 0 ≤ b < Z.of_nat (length items)) v)
           (λ p1 p2 g c1 c2 g', crossover_rango (length items) p1 p2 g c1 c2 g')
           (mutate_rango (length items) mutation_rate))
    in Hbucle' as [Hpop_r Hbest_r]; [|exact Hrango|exact Hmejor_r].
  assert (length best = length items ∧
          Forall (λ b, 0 ≤ b < Z.of_nat (length items)) best) as [Hlen Hr].
  { apply min_fitness_Ok_inv, elem_of_cons in Hfinal as [->|Hin]; [done|].
    rewrite Forall_forall in Hpop_r. by apply Hpop_r. }
  rewrite decodificar_bins_grupos in Hdec by lia. injection Hdec as <-.
  rewrite length_fmap, length_etiquetas.
  split_and!; [done|done|done|done| | | |].
  - rewrite <- Hlen. apply num_bins_le.
  - intros Hne. apply num_bins_pos. destruct best; [|done]. by destruct items.
  - apply Forall_fmap, Forall_forall. intros l Hl. simpl.
    apply grupo_no_vacio; [lia|]. by apply elem_of_etiquetas.
  - by apply (bucle_historia_rango _ _ _ _ _ Hini) in Hbucle.
Qed.

(** The solver returns whenever tournaments, cuts and mutations are all
    possible. *)
Lemma genetic_algorithm_bpp_Ok g :
  population_size = 1%nat ∨
    ((3 ≤ population_size)%nat ∧
     (length items = 1%nat ∨ (3 ≤ length items)%nat)) →
  ∃ r g', genetic_algorithm_bpp g = Ok (r, g').
Proof.
  intros Hcaso. unfold Genetico.genetic_algorithm_bpp.
  destruct (semilla_Ok sembrar seed g) as (g1 & Hseed).
  rewrite (bind_Ok _ _ _ _ _ Hseed).
  destruct (generate_population_Ok (length items) population_size g1)
    as (pop & g2 & Hpop).
  rewrite (bind_Ok _ _ _ _ _ Hpop).
  pose proof (generate_population_Ok_inv _ _ _ _ _ Hpop) as [Hlen Hforall].
  destruct (min_fitness_Ok items capacidad pop) as [mejor Hmejor].
  { destruct pop; simpl in *; [|done]. destruct Hcaso as [?|[? _]]; lia. }
  { eapply Forall_impl; [exact Hforall|]. simpl. intros. lia. }
  rewrite (bind_Ok _ _ _ _ _ (lift_Ok _ g2 _ Hmejor)).
  pose proof (estado_inicial_bien_formado _ _ _ _ _ _ _ Hpop Hmejor) as Hini.
  destruct (bucle_Ok items capacidad population_size mutation_rate
              patience_no_change generations Hcaso _ g2 Hini Hlen)
    as (st & g3 & Hst & (Hpopst & Hne & Hbest)).
  rewrite (bind_Ok _ _ _ _ _ Hst).
  destruct (min_fitness_Ok items capacidad (best_overall st :: population st))
    as [best Hfinal].
  { done. }
  { constructor; [lia|]. eapply Forall_impl; [exact Hpopst|]. simpl. intros. lia. }
  rewrite (bind_Ok _ _ _ _ _ (lift_Ok _ g3 _ Hfinal)).
  assert (length best = length items) as Hlenb.
  { apply min_fitness_Ok_inv, elem_of_cons in Hfinal as [->|Hin]; [done|].
    rewrite Forall_forall in Hpopst. by apply Hpopst. }
  destruct (decodificar_bins_reparte best items Hlenb) as (cajas & Hdec & _).
  rewrite (bind_Ok _ _ _ _ _ (lift_Ok _ g3 _ Hdec)). by eexists _, _.
Qed.

(** With exactly two items the first crossover has no cut point. *)
Lemma genetic_algorithm_bpp_dos_items g :
  length items = 2%nat → (3 ≤ population_size)%nat → (1 ≤ generations)%nat →
  genetic_algorithm_bpp g = Err ValueError.
Proof.
  intros Hitems Hsize Hgen. unfold Genetico.genetic_algorithm_bpp.
  destruct (semilla_Ok sembrar seed g) as (g1 & Hseed).
  rewrite (bind_Ok _ _ _ _ _ Hseed).
  destruct (generate_population_Ok (length items) population_size g1)
    as (pop & g2 & Hpop).
  rewrite (bind_Ok _ _ _ _ _ Hpop).
  pose proof (generate_population_Ok_inv _ _ _ _ _ Hpop) as [Hlen Hforall].
  assert (Forall (λ v, length v ≤ length items)%nat pop) as Hle.
  { eapply Forall_impl; [exact Hforall|]. simpl. intros. lia. }
  destruct (min_fitness_Ok items capacidad pop) as [mejor Hmejor]; [|done|].
  { destruct pop; simpl in *; [lia|done]. }
  rewrite (bind_Ok _ _ _ _ _ (lift_Ok _ g2 _ Hmejor)).
  apply bind_Err. destruct generations as [|n]; [lia|]. simpl.
  apply bind_Err. unfold Genetico.generacion. simpl.
  destruct (min_fitness_Ok items capacidad pop) as [elite Helite]; [|done|].
  { destruct pop; simpl in *; [lia|done]. }
  rewrite (bind_Ok _ _ _ _ _ (lift_Ok _ g2 _ Helite)).
  apply bind_Err.
  destruct population_size as [|[|m]]; [lia..|]. simpl.
  destruct (selection_Ok pop items capacidad 3 g2) as (p1 & g3 & Hp1); [lia|done|].
  rewrite (bind_Ok _ _ _ _ _ Hp1).
  destruct (selection_Ok pop items capacidad 3 g3) as (p2 & g4 & Hp2); [lia|done|].
  rewrite (bind_Ok _ _ _ _ _ Hp2).
  apply selection_Ok_inv in Hp1. rewrite Forall_forall in Hforall.
  apply Hforall in Hp1.
  apply bind_Err, crossover_dos. congruence.
Qed.

End solver_detalle.


(** ** Length of a run, patience, elitism *)

Lemma racha_le l : (racha l ≤ pred (length l))%nat.
Proof.
  induction l as [|a [|b l] IH]; simpl; [lia..|].
  case_decide; [|lia]. simpl in IH. lia.
Qed.

Lemma generaciones_sin_cambio_le history :
  (generaciones_sin_cambio history ≤ pred (length history))%nat.
Proof.
  unfold generaciones_sin_cambio. rewrite <- (length_reverse history).
  apply racha_le.
Qed.

Lemma bind_ext {A B} (m m' : M A) (f f' : A → M B) g :
  m g = m' g → (∀ a g1, f a g1 = f' a g1) → (m ≫= f) g = (m' ≫= f') g.
Proof.
  intros Hm Hf. unfold mbind, M_bind. rewrite Hm.
  destruct (m' g) as [[a g1]|e]; [apply Hf|done].
Qed.

Lemma early_stopping_cero last sin_cambio best_bins_gen :
  early_stopping 0 last sin_cambio best_bins_gen
  = early_stopping 1 last sin_cambio best_bins_gen.
Proof.
  unfold early_stopping. case_decide; [done|].
  by rewrite !bool_decide_eq_true_2 by lia.
Qed.

Section paciencia_y_elitismo.

Context (sembrar : Z → rng) (items : list Z) (capacidad : Z).
Context (population_size : nat) (mutation_rate : Q).

Lemma generacion_paciencia_cero st g :
  generacion items capacidad population_size mutation_rate 0 st g
  = generacion items capacidad population_size mutation_rate 1 st g.
Proof.
  unfold generacion.
  repeat (apply bind_ext; [done|]; intros).
  by rewrite early_stopping_cero.
Qed.

Lemma bucle_paciencia_cero generations :
  ∀ st g,
    bucle items capacidad population_size mutation_rate 0 generations st g
    = bucle items capacidad population_size mutation_rate 1 generations st g.
Proof.
  induction generations as [|n IH]; intros st g; [done|]. simpl.
  apply bind_ext; [apply generacion_paciencia_cero|].
  intros [st1 []] g1; [done|apply IH].
Qed.

Lemma genetic_algorithm_bpp_paciencia_cero generations seed g :
  genetic_algorithm_bpp sembrar items capacidad population_size generations
    mutation_rate seed 0 g
  = genetic_algorithm_bpp sembrar items capacidad population_size generations
      mutation_rate seed 1 g.
Proof.
  unfold genetic_algorithm_bpp.
  do 3 (apply bind_ext; [done|]; intros).
  apply bind_ext; [apply bucle_paciencia_cero|done].
Qed.

Lemma genetic_algorithm_bpp_largo_historia generations seed patience_no_change
    g k cajas best history g' :
  genetic_algorithm_bpp sembrar items capacidad population_size generations
    mutation_rate seed patience_no_change g = Ok ((k, cajas, best, history), g') →
  (generations `min` S (1 `max` patience_no_change) ≤ length history
   ≤ generations)%nat.
Proof.
  intros H.
  assert (genetic_algorithm_bpp sembrar items capacidad population_size generations
            mutation_rate seed (1 `max` patience_no_change) g
          = Ok ((k, cajas, best, history), g')) as H1.
  { destruct patience_no_change as [|p].
    - by rewrite genetic_algorithm_bpp_paciencia_cero in H.
    - by replace (1 `max` S p)%nat with (S p) by lia. }
  apply genetic_algorithm_bpp_Ok_inv in H1 as (_ & _ & _ & Hh).
  destruct Hh as (Hle & _ & Hcorte); [lia|]. split; [|done].
  destruct (decide (length history < generations)%nat) as [Hlt|]; [|lia].
  specialize (Hcorte Hlt).
  pose proof (generaciones_sin_cambio_le history). lia.
Qed.

Lemma generacion_elitismo patience_no_change cota st g st' romper g' :
  (∃ v f, v ∈ population st ∧ fitness v items capacidad = Ok f ∧ f ≤ cota) →
  generacion items capacidad population_size mutation_rate patience_no_change st g
  = Ok ((st', romper), g') →
  ∃ v f, v ∈ population st' ∧ fitness v items capacidad = Ok f ∧ f ≤ cota.
Proof.
  intros (v & f & Hv & Hf & Hle) H.
  apply generacion_detalle in H
    as (elite & hijos & best_gen & mejora & Helite & _ & _ & Hpop & _).
  apply min_fitness_spec in Helite as (i & fs & _ & Hfs & Hmin).
  apply list_elem_of_lookup in Hv as [j Hj].
  destruct (Hmin j v Hj) as (fv & Hfv & Hle' & _).
  exists elite, fs. rewrite Hpop. split_and!; [left|done|].
  rewrite Hf in Hfv. injection Hfv as <-. lia.
Qed.

Lemma bucle_elitismo patience_no_change cota generations :
  ∀ st g st' g',
    (∃ v f, v ∈ population st ∧ fitness v items capacidad = Ok f ∧ f ≤ cota) →
    bucle items capacidad population_size mutation_rate patience_no_change
      generations st g = Ok (st', g') →
    ∃ v f, v ∈ population st' ∧ fitness v items capacidad = Ok f ∧ f ≤ cota.
Proof.
  induction generations as [|n IH]; intros st g st' g' Hst H; simpl in H.
  { by apply mret_Ok_inv in H as [-> _]. }
  inv_run H.
  match type of H with context [let '(_, _) := ?p in _] => destruct p as [st1 romper] end.
  match goal with
  | Hg : generacion _ _ _ _ _ _ _ = Ok _ |- _ =>
      apply (generacion_elitismo _ cota) in Hg; [|done]
  end.
  destruct romper.
  - by apply mret_Ok_inv in H as [-> _].
  - by eapply IH.
Qed.

Lemma genetic_algorithm_bpp_elitismo generations seed patience_no_change
    g k cajas best history g' poblacion g2 v :
  genetic_algorithm_bpp sembrar items capacidad population_size generations
    mutation_rate seed patience_no_change g = Ok ((k, cajas, best, history), g') →
  generate_population (length items) population_size
    (match seed with Some s => sembrar s | None => g end) = Ok (poblacion, g2) →
  v ∈ poblacion →
  ∃ f fv, fitness best items capacidad = Ok f ∧
          fitness v items capacidad = Ok fv ∧ f ≤ fv.
Proof.
  intros H Hgen Hv.
  unfold genetic_algorithm_bpp in H.
  apply bind_Ok_inv in H as ([] & g1 & Hseed & H).
  assert (g1 = match seed with Some s => sembrar s | None => g end) as ->.
  { destruct seed; [by injection Hseed|]. by apply mret_Ok_inv in Hseed as [_ ->]. }
  apply bind_Ok_inv in H as (pop & g2' & Hgen' & H).
  rewrite Hgen in Hgen'. injection Hgen' as <- <-.
  inv_run H.
  repeat match goal with
  | Hl : lift _ _ = Ok _ |- _ => apply lift_Ok_inv in Hl as [Hl ->]
  end.
  apply mret_Ok_inv in H as [[= -> -> -> ->] _].
  pose proof (generate_population_Ok_inv _ _ _ _ _ Hgen) as [_ Hlen].
  rewrite Forall_forall in Hlen.
  destruct (fitness_Ok v items capacidad) as [fv Hfv].
  { rewrite (Hlen v Hv). lia. }
  match goal with
  | Hb : bucle _ _ _ _ _ _ _ _ = Ok (?st, _) |- _ =>
      apply (bucle_elitismo _ fv) in Hb as (w & fw & Hw & Hfw & Hle);
        [|exists v, fv; simpl; split_and!; [done|done|lia]]
  end.
  match goal with
  | Hm : min_fitness _ _ (_ :: _) = Ok _ |- _ =>
      apply min_fitness_spec in Hm as (i & fs & _ & Hfs & Hmin)
  end.
  apply list_elem_of_lookup in Hw as [j Hj].
  destruct (Hmin (S j) w Hj) as (fw' & Hfw' & Hle' & _).
  rewrite Hfw in Hfw'. injection Hfw' as <-.
  exists fs, fv. split_and!; [done|done|lia].
Qed.

End paciencia_y_elitismo.


(** ** The theoretical minimum *)

(** X22: for a positive capacity and a non-negative total size, both
    below [2^53], the theoretical minimum, as the code computes it through
    a double, is the least number of bins whose total capacity holds the
    total size, so no packing within capacity, by any method, uses fewer
    bins. *)
Theorem theoretical_minimum_bounds_every_packing capacidad lista_de_objetos :
  0 < capacidad < 2 ^ 53 →
  0 ≤ pysum lista_de_objetos < 2 ^ 53 →
  ∃ m, minimo_teorico capacidad lista_de_objetos = Ok m ∧
       minimo_teorico_doble capacidad lista_de_objetos = Ok m ∧
       capacidad * (m - 1) < pysum lista_de_objetos ≤ capacidad * m ∧
       ∀ cajas, empaquetado_valido capacidad lista_de_objetos cajas →
                m ≤ Z.of_nat (length cajas).
Proof.
  intros Hcap Hsuma. exists (ceil_div (pysum lista_de_objetos) capacidad). split_and!.
  - unfold minimo_teorico. by rewrite decide_False by lia.
  - unfold minimo_teorico_doble. by apply ceil_true_div_exacto.
  - apply ceil_div_spec. lia.
  - apply ceil_div_spec. lia.
  - intros cajas Hval. apply valido_cota_inferior; [lia|done].
Qed.

Lemma theoretical_minimum_bounds_every_packing_witness :
  0 < 10 < 2 ^ 53 ∧ 0 ≤ pysum [6; 5; 4; 3] < 2 ^ 53 ∧
  ∃ m, minimo_teorico 10 [6; 5; 4; 3] = Ok m ∧
       minimo_teorico_doble 10 [6; 5; 4; 3] = Ok m ∧
       10 * (m - 1) < pysum [6; 5; 4; 3] ≤ 10 * m ∧
       ∀ cajas, empaquetado_valido 10 [6; 5; 4; 3] cajas →
                m ≤ Z.of_nat (length cajas).
Proof.
  assert (0 < 10 < 2 ^ 53) as H1 by (simpl; lia).
  assert (0 ≤ pysum [6; 5; 4; 3] < 2 ^ 53) as H2 by (simpl; lia).
  exact (conj H1 (conj H2
    (theoretical_minimum_bounds_every_packing 10 [6; 5; 4; 3] H1 H2))).
Defined.

(** ** The genetic solver as a whole *)

(** X23: with a population of one vector, or with a population of at
    least three vectors over one item or at least three items, the
    genetic solver returns a result, for every state of the random
    generator and every number of generations, rate, seed and patience. *)
Theorem genetic_solver_returns sembrar items capacidad population_size
    generations mutation_rate seed patience_no_change g :
  population_size = 1%nat ∨
    ((3 ≤ population_size)%nat ∧
     (length items = 1%nat ∨ (3 ≤ length items)%nat)) →
  ∃ r g',
    genetic_algorithm_bpp sembrar items capacidad population_size generations
      mutation_rate seed patience_no_change g = Ok (r, g').
Proof. apply genetic_algorithm_bpp_Ok. Qed.

Lemma genetic_solver_returns_witness :
  (4 = 1 ∨ (3 ≤ 4 ∧ (length [4; 3; 3; 2]%Z = 1 ∨ 3 ≤ length [4; 3; 3; 2]%Z)))%nat ∧
  ∃ r g',
    genetic_algorithm_bpp (λ _ i, N.of_nat (i * 7 + 3)) [4; 3; 3; 2]%Z 5 4 6
      (1 # 4) (Some 1) 1 (λ _, 0%N) = Ok (r, g').
Proof.
  assert (4 = 1 ∨ (3 ≤ 4 ∧ (length [4; 3; 3; 2]%Z = 1
                             ∨ 3 ≤ length [4; 3; 3; 2]%Z)))%nat as H1
    by (right; simpl; lia).
  exact (conj H1
    (genetic_solver_returns (λ _ i, N.of_nat (i * 7 + 3)) [4; 3; 3; 2]%Z 5 4 6
       (1 # 4) (Some 1) 1%nat (λ _, 0%N) H1)).
Defined.

(** X24: with exactly two items, a population of at least three vectors
    and at least one generation, the genetic solver raises ValueError: the
    first crossover has no cut point to draw. *)
Theorem genetic_solver_raises_for_two_items sembrar items capacidad
    population_size generations mutation_rate seed patience_no_change g :
  length items = 2%nat → (3 ≤ population_size)%nat → (1 ≤ generations)%nat →
  genetic_algorithm_bpp sembrar items capacidad population_size generations
    mutation_rate seed patience_no_change g = Err ValueError.
Proof. apply genetic_algorithm_bpp_dos_items. Qed.

Lemma genetic_solver_raises_for_two_items_witness :
  length [6; 4]%Z = 2%nat ∧ (3 ≤ 1000)%nat ∧ (1 ≤ 500)%nat ∧
  genetic_algorithm_bpp (λ _ _, 0%N) [6; 4]%Z 10 1000 500 (1 # 10) (Some 42) 50
    (λ _, 0%N) = Err ValueError.
Proof.
  assert (length [6; 4]%Z = 2%nat) as H1 by reflexivity.
  assert (3 ≤ 1000)%nat as H2 by lia.
  assert (1 ≤ 500)%nat as H3 by lia.
  exact (conj H1 (conj H2 (conj H3
    (genetic_solver_raises_for_two_items (λ _ _, 0%N) [6; 4]%Z 10 1000%nat 500%nat
       (1 # 10) (Some 42) 50%nat (λ _, 0%N) H1 H2 H3)))).
Defined.

(** X25: the four components of a returned result fit together. The
    vector has one label per item, each label between 0 and the number of
    items minus one; the bins are the groups of the vector in order of
    first appearance of their labels and none is empty; the count is the
    number of distinct labels of the vector, at most the number of items
    and at least one when there are items; and every history entry lies in
    the same range. *)
Theorem genetic_solver_result_shape sembrar items capacidad population_size
    generations mutation_rate seed patience_no_change g k cajas best history g' :
  genetic_algorithm_bpp sembrar items capacidad population_size generations
    mutation_rate seed patience_no_change g = Ok ((k, cajas, best, history), g') →
  length best = length items ∧
  Forall (λ b, 0 ≤ b < Z.of_nat (length items)) best ∧
  cajas = grupo best items <$> etiquetas best ∧
  k = num_bins best ∧
  (k ≤ length items)%nat ∧ (items ≠ [] → (1 ≤ k)%nat) ∧
  Forall (λ c, c ≠ []) cajas ∧
  Forall (λ b, (b ≤ length items)%nat ∧ (items ≠ [] → (1 ≤ b)%nat)) history.
Proof. apply genetic_algorithm_bpp_forma. Qed.

Lemma genetic_solver_result_shape_witness :
  ∃ g',
    genetic_algorithm_bpp (λ _ i, N.of_nat (i * 7 + 3)) [4; 3; 3; 2]%Z 5 4 6
      (1 # 4) (Some 1) 1 (λ _, 0%N)
    = Ok ((3%nat, [[4]; [3; 2]; [3]], [3; 2; 1; 2], [3; 3]%nat), g') ∧
    length [3; 2; 1; 2] = length [4; 3; 3; 2] ∧
    Forall (λ b, 0 ≤ b < Z.of_nat (length [4; 3; 3; 2])) [3; 2; 1; 2] ∧
    [[4]; [3; 2]; [3]] = grupo [3; 2; 1; 2] [4; 3; 3; 2] <$> etiquetas [3; 2; 1; 2] ∧
    3%nat = num_bins [3; 2; 1; 2] ∧
    (3 ≤ length [4; 3; 3; 2]%Z)%nat ∧ ([4; 3; 3; 2] ≠ [] → (1 ≤ 3)%nat) ∧
    Forall (λ c : list Z, c ≠ []) [[4]; [3; 2]; [3]] ∧
    Forall (λ b, (b ≤ length [4; 3; 3; 2]%Z)%nat ∧ ([4; 3; 3; 2] ≠ [] → (1 ≤ b)%nat))
      [3; 3]%nat.
Proof.
  eexists. refine (let H := _ in conj H
    (genetic_solver_result_shape (λ _ i, N.of_nat (i * 7 + 3)) [4; 3; 3; 2]%Z 5 4%nat
       6%nat (1 # 4) (Some 1) 1%nat (λ _, 0%N) _ _ _ _ _ H)).
  vm_compute. reflexivity.
Defined.

(** X26: a run that returns has made at most [generations] iterations and
    at least the smaller of [generations] and the patience plus one, where
    a patience of zero counts as one: the loop cannot break before a
    generation has repeated the count of the one before that many times. *)
Theorem genetic_solver_history_length sembrar items capacidad population_size
    generations mutation_rate seed patience_no_change g k cajas best history g' :
  genetic_algorithm_bpp sembrar items capacidad population_size generations
    mutation_rate seed patience_no_change g = Ok ((k, cajas, best, history), g') →
  (generations `min` S (1 `max` patience_no_change) ≤ length history
   ≤ generations)%nat.
Proof. apply genetic_algorithm_bpp_largo_historia. Qed.

Lemma genetic_solver_history_length_witness :
  ∃ g',
    genetic_algorithm_bpp (λ _ i, N.of_nat (i * 7 + 3)) [4; 3; 3; 2]%Z 5 4 6
      (1 # 4) (Some 1) 1 (λ _, 0%N)
    = Ok ((3%nat, [[4]; [3; 2]; [3]], [3; 2; 1; 2], [3; 3]%nat), g') ∧
    (6 `min` S (1 `max` 1) ≤ length [3; 3]%nat ≤ 6)%nat.
Proof.
  eexists. refine (let H := _ in conj H
    (genetic_solver_history_length (λ _ i, N.of_nat (i * 7 + 3)) [4; 3; 3; 2]%Z 5 4%nat
       6%nat (1 # 4) (Some 1) 1%nat (λ _, 0%N) _ _ _ _ _ H)).
  vm_compute. reflexivity.
Defined.

(** X27: a patience of zero behaves as a patience of one: the counter is
    compared with the patience only after it has been incremented, so the
    loop breaks at the first generation that repeats the count of the one
    before in both cases. *)
Theorem patience_zero_is_patience_one sembrar items capacidad population_size
    generations mutation_rate seed g :
  genetic_algorithm_bpp sembrar items capacidad population_size generations
    mutation_rate seed 0 g
  = genetic_algorithm_bpp sembrar items capacidad population_size generations
      mutation_rate seed 1 g.
Proof. apply genetic_algorithm_bpp_paciencia_cero. Qed.

(** X28: elitism never loses ground: the vector of a returned result has
    a fitness at most that of every vector of the initial random
    population (the one drawn right after seeding). *)
Theorem genetic_solver_at_least_as_fit_as_initial_population sembrar items
    capacidad population_size generations mutation_rate seed patience_no_change
    g k cajas best history g' poblacion g2 v :
  genetic_algorithm_bpp sembrar items capacidad population_size generations
    mutation_rate seed patience_no_change g = Ok ((k, cajas, best, history), g') →
  generate_population (length items) population_size
    (match seed with Some s => sembrar s | None => g end) = Ok (poblacion, g2) →
  v ∈ poblacion →
  ∃ f fv, fitness best items capacidad = Ok f ∧
          fitness v items capacidad = Ok fv ∧ f ≤ fv.
Proof. apply genetic_algorithm_bpp_elitismo. Qed.

Lemma genetic_solver_at_least_as_fit_as_initial_population_witness :
  ∃ g' g2,
    genetic_algorithm_bpp (λ _ i, N.of_nat (i * 7 + 3)) [4; 3; 3; 2]%Z 5 4 6
      (1 # 4) (Some 1) 1 (λ _, 0%N)
    = Ok ((3%nat, [[4]; [3; 2]; [3]], [3; 2; 1; 2], [3; 3]%nat), g') ∧
    generate_population 4 4 (λ i, N.of_nat (i * 7 + 3))
    = Ok ([[3; 2; 1; 0]; [3; 2; 1; 0]; [3; 2; 1; 0]; [3; 2; 1; 0]], g2) ∧
    [3; 2; 1; 0] ∈ [[3; 2; 1; 0]; [3; 2; 1; 0]; [3; 2; 1; 0]; [3; 2; 1; 0]] ∧
    ∃ f fv, fitness [3; 2; 1; 2] [4; 3; 3; 2] 5 = Ok f ∧
            fitness [3; 2; 1; 0] [4; 3; 3; 2] 5 = Ok fv ∧ f ≤ fv.
Proof.
  eexists _, _.
  split; [vm_compute; reflexivity|].
  split; [vm_compute; reflexivity|].
  split; [apply list_elem_of_here|].
  eapply (genetic_solver_at_least_as_fit_as_initial_population
            (λ _ i, N.of_nat (i * 7 + 3)) [4; 3; 3; 2]%Z 5 4%nat 6%nat (1 # 4) (Some 1)
            1%nat (λ _, 0%N)).
  - vm_compute. reflexivity.
  - vm_compute. reflexivity.
  - apply list_elem_of_here.
Defined.


(** X29: one generation of the loop, when it completes on a population
    whose vectors have one label per item: the new population starts with
    the first vector of least fitness of the old one, holds
    [population_size] vectors (one when [population_size] is zero), also
    when the last pair of children does not fit entirely, and the history
    grows by exactly one entry. *)
Theorem generation_keeps_elite_and_size items capacidad population_size
    mutation_rate patience_no_change st g st' romper g' :
  bien_formado items st →
  generacion items capacidad population_size mutation_rate patience_no_change st g
  = Ok ((st', romper), g') →
  ∃ elite,
    min_fitness items capacidad (population st) = Ok elite ∧
    head (population st') = Some elite ∧
    length (population st') = (1 `max` population_size)%nat ∧
    length (history_bins st') = S (length (history_bins st)).
Proof.
  intros (Hpop & _ & _) H.
  apply generacion_detalle in H
    as (elite & hijos & best_gen & mejora & Helite & Hrep & _ & Hpop' & Hhist & _).
  eapply reproduccion_Ok_inv in Hrep as [Hlen _]; [|exact Hpop].
  exists elite. rewrite Hpop', Hhist, length_app. simpl.
  split_and!; [done|done|lia|lia].
Qed.

Lemma generation_keeps_elite_and_size_witness :
  ∃ g',
    bien_formado [4; 3; 3; 2]
      (Estado [[0; 0; 0; 0]; [0; 1; 2; 3]; [0; 1; 1; 0]; [3; 2; 1; 0]] []
         [0; 0; 0; 0] 1 None 0) ∧
    generacion [4; 3; 3; 2] 5 4 (1 # 4) 1
      (Estado [[0; 0; 0; 0]; [0; 1; 2; 3]; [0; 1; 1; 0]; [3; 2; 1; 0]] []
         [0; 0; 0; 0] 1 None 0) (λ i, N.of_nat (i * 7 + 3))
    = Ok ((Estado [[0; 1; 2; 3]; [3; 2; 2; 2]; [3; 1; 1; 0]; [3; 2; 1; 0]] [4%nat]
             [0; 0; 0; 0] 1 (Some 4%nat) 0, false), g') ∧
    ∃ elite,
      min_fitness [4; 3; 3; 2] 5
        [[0; 0; 0; 0]; [0; 1; 2; 3]; [0; 1; 1; 0]; [3; 2; 1; 0]] = Ok elite ∧
      head [[0; 1; 2; 3]; [3; 2; 2; 2]; [3; 1; 1; 0]; [3; 2; 1; 0]] = Some elite ∧
      length [[0; 1; 2; 3]; [3; 2; 2; 2]; [3; 1; 1; 0]; [3; 2; 1; 0]]
      = (1 `max` 4)%nat ∧
      length [4%nat] = S (length (@nil nat)).
Proof.
  assert (bien_formado [4; 3; 3; 2]
            (Estado [[0; 0; 0; 0]; [0; 1; 2; 3]; [0; 1; 1; 0]; [3; 2; 1; 0]] []
               [0; 0; 0; 0] 1 None 0)) as H1
    by (split_and!; [by repeat constructor|done|done]).
  eexists. refine (let H2 := _ in conj H1 (conj H2
    (generation_keeps_elite_and_size [4; 3; 3; 2] 5 4%nat (1 # 4) 1%nat _ _ _ _ _
       H1 H2))).
  vm_compute. reflexivity.
Defined.


(** * Decreasing variants against other packings *)

(** ** Items larger than half a bin, sizes cut at the capacity *)

Lemma grandes_en_caja capacidad c :
  Forall (λ x, 0 ≤ x) c →
  Z.of_nat (length (filter (λ x, capacidad < 2 * x) c)) * (capacidad + 1)
  ≤ 2 * pysum c.
Proof.
  induction 1 as [|x c Hx _ IH]; simpl; [lia|].
  rewrite filter_cons. case_decide; simpl length; lia.
Qed.

(** Bins that are within capacity or hold a single item, which is what
    the heuristics build from sizes of any magnitude: a bin holds at most
    one item larger than half the capacity. *)
Lemma grandes_en_empaquetado capacidad cajas :
  0 < capacidad →
  Forall (λ c, pysum c ≤ capacidad ∨ ∃ x, c = [x]) cajas →
  Forall (λ x, 0 ≤ x) (concat cajas) →
  (length (filter (λ x, (capacidad < 2 * x)%Z) (concat cajas)) ≤ length cajas)%nat.
Proof.
  intros Hcap Hf. induction Hf as [|c cajas Hc _ IH]; simpl; [done|].
  intros [Hpc Hpos]%Forall_app. rewrite filter_app, length_app.
  specialize (IH Hpos).
  assert (length (filter (λ x, (capacidad < 2 * x)%Z) c) ≤ 1)%nat; [|lia].
  destruct Hc as [Hc|[x ->]].
  - pose proof (grandes_en_caja capacidad c Hpc) as Hg.
    destruct (length (filter (λ x, (capacidad < 2 * x)%Z) c)) as [|[|n]]; [lia|lia|].
    exfalso. nia.
  - rewrite filter_cons. case_decide; simpl; lia.
Qed.

Lemma pysum_cortado_nonneg capacidad l :
  0 ≤ capacidad → Forall (λ x, 0 ≤ x) l →
  0 ≤ pysum ((λ x, Z.min x capacidad) <$> l).
Proof.
  intros Hcap Hl. apply pysum_nonneg, Forall_fmap.
  eapply Forall_impl; [exact Hl|]. simpl. intros. lia.
Qed.

Lemma pysum_cortado_min capacidad l :
  0 ≤ capacidad → Forall (λ x, 0 ≤ x) l →
  Z.min (pysum l) capacidad ≤ pysum ((λ x, Z.min x capacidad) <$> l).
Proof.
  intros Hcap. induction 1 as [|x l Hx Hl IH]; csimpl; [lia|].
  pose proof (pysum_nonneg _ Hl). lia.
Qed.

(** Such bins hold at most one capacity each of sizes cut at the
    capacity. *)
Lemma pysum_cortado_empaquetado capacidad cajas :
  0 ≤ capacidad →
  Forall (λ c, pysum c ≤ capacidad ∨ ∃ x, c = [x]) cajas →
  Forall (λ x, 0 ≤ x) (concat cajas) →
  pysum ((λ x, Z.min x capacidad) <$> concat cajas)
  ≤ capacidad * Z.of_nat (length cajas).
Proof.
  intros Hcap Hf. induction Hf as [|c cajas Hc _ IH]; simpl; [lia|].
  intros [Hpc Hpos]%Forall_app. rewrite fmap_app, pysum_app.
  specialize (IH Hpos).
  assert (pysum ((λ x, Z.min x capacidad) <$> c) ≤ capacidad); [|lia].
  destruct Hc as [Hc|[x ->]]; [|csimpl; lia].
  assert (pysum ((λ x, Z.min x capacidad) <$> c) ≤ pysum c); [|lia].
  clear Hc. induction Hpc as [|x c Hx _ IHc]; csimpl; lia.
Qed.

(** Bins none of which has room for [y], filled with items of size at
    least [y]: a bin holds an item larger than half the capacity or at
    least two items. *)
Lemma cajas_sin_sitio_cota capacidad y cajas :
  0 < y ≤ capacidad →
  Forall (λ c, capacidad < pysum c + y) cajas →
  Forall (λ c, c ≠ [] ∧ Forall (λ x, y ≤ x) c) cajas →
  ∃ grandes dobles : nat,
    length cajas = (grandes + dobles)%nat ∧
    (grandes ≤ length (filter (λ x, (capacidad < 2 * x)%Z) (concat cajas)))%nat ∧
    Z.of_nat grandes * (capacidad - y + 1)
    + Z.of_nat dobles * Z.max (capacidad - y + 1) (2 * y)
    ≤ pysum ((λ x, Z.min x capacidad) <$> concat cajas).
Proof.
  intros Hy Hno Hit. induction cajas as [|c cajas IH].
  { exists 0%nat, 0%nat. simpl. lia. }
  inversion_clear Hno as [|? ? Hc Hno']. inversion_clear Hit as [|? ? [Hne Hge] Hit'].
  destruct (IH Hno' Hit') as (grandes & dobles & Hlen & Hg & Hsum).
  simpl. rewrite filter_app, length_app, fmap_app, pysum_app.
  assert (Forall (λ x, 0 ≤ x) c) as Hpc
    by (eapply Forall_impl; [exact Hge|]; simpl; intros; lia).
  pose proof (pysum_cortado_min capacidad c ltac:(lia) Hpc) as Hmin.
  destruct c as [|x1 [|x2 c]]; [done| |].
  - exists (S grandes), dobles. inversion_clear Hge as [|? ? Hx1 _].
    simpl in Hc. rewrite filter_cons, decide_True by lia.
    csimpl in *. split_and!; lia.
  - exists grandes, (S dobles).
    inversion_clear Hge as [|? ? Hx1 Hge']. inversion_clear Hge' as [|? ? Hx2 Hge''].
    assert (0 ≤ pysum ((λ x, Z.min x capacidad) <$> c)).
    { apply pysum_cortado_nonneg; [lia|].
      eapply Forall_impl; [exact Hge''|]. simpl. intros. lia. }
    csimpl in *. split_and!; lia.
Qed.

Lemma tres_medios_cuenta (capacidad y suma : Z) (grandes dobles k : nat) :
  0 < y ≤ capacidad →
  (grandes ≤ k)%nat →
  Z.of_nat grandes * (capacidad - y + 1)
  + Z.of_nat dobles * Z.max (capacidad - y + 1) (2 * y) + y ≤ suma →
  suma ≤ capacidad * Z.of_nat k →
  (2 * S (grandes + dobles) ≤ 3 * k)%nat.
Proof.
  intros Hy Hg Hinf Hsup.
  destruct (decide (grandes + dobles < k)%nat) as [|Hk]; [lia|].
  destruct (decide (2 * S (grandes + dobles) ≤ 3 * k)%nat) as [|Hno]; [done|].
  exfalso.
  set (M := Z.max (capacidad - y + 1) (2 * y)) in *.
  set (b := Z.of_nat grandes) in *. set (s := Z.of_nat dobles) in *.
  set (n := Z.of_nat k) in *.
  assert (0 ≤ b ≤ n) by lia.
  assert (n ≤ b + s) by lia.
  assert (3 * n ≤ 2 * b + 2 * s + 1) by lia.
  assert (0 ≤ (n - b) * (M - (capacidad - y + 1))) by (apply Z.mul_nonneg_nonneg; lia).
  assert (0 ≤ (b + s - n) * (M - 2 * y)) by (apply Z.mul_nonneg_nonneg; lia).
  assert (0 ≤ y * (2 * b + 2 * s + 1 - 3 * n)) by (apply Z.mul_nonneg_nonneg; lia).
  nia.
Qed.

Lemma filter_todos (P : Z → Prop) `{∀ x, Decision (P x)} l :
  Forall P l → filter P l = l.
Proof.
  induction 1 as [|x l Hx _ IH]; [done|].
  by rewrite filter_cons, decide_True, IH.
Qed.

Lemma length_concat_no_vacias (cajas : list (list Z)) :
  Forall (λ c, c ≠ []) cajas → (length cajas ≤ length (concat cajas))%nat.
Proof.
  induction 1 as [|c cajas Hc _ IH]; simpl; [done|].
  rewrite length_app. destruct c; [done|]. simpl. lia.
Qed.

(** ** A step that opens a bin only for an item that fits nowhere *)

Section ajuste_decreciente.

Context (capacidad : Z) (paso : list (list Z) → Z → list (list Z)).
Hypothesis paso_casos : ∀ cajas x,
  cajas_propias cajas →
  (∃ i caja, cajas !! i = Some caja ∧
             paso cajas x = alter (λ c, c ++ [x]) i cajas) ∨
  (Forall (λ c, capacidad < pysum c + x) cajas ∧ paso cajas x = cajas ++ [[x]]).

Lemma paso_propias objetos :
  Forall (λ x, 0 ≤ x) objetos → cajas_propias (fold_left paso objetos []).
Proof.
  intros Hpos. apply (fold_left_forma cajas_propias paso objetos); [|done|constructor].
  intros cajas x Hx Hp.
  destruct (paso_casos cajas x Hp) as [(i & caja & _ & ->)|[_ ->]].
  - by apply cajas_propias_alter.
  - by apply cajas_propias_snoc.
Qed.

Lemma paso_reparte objetos :
  Forall (λ x, 0 ≤ x) objetos → concat (fold_left paso objetos []) ≡ₚ objetos.
Proof.
  induction objetos as [|x objetos IH] using rev_ind; intros Hpos; [done|].
  apply Forall_app in Hpos as [Hpos Hx]. rewrite fold_left_app. simpl.
  destruct (paso_casos (fold_left paso objetos []) x (paso_propias _ Hpos))
    as [(i & caja & Hi & ->)|[_ ->]].
  - rewrite (concat_alter_snoc _ _ _ _ Hi), (IH Hpos).
    by rewrite <- Permutation_cons_append.
  - rewrite concat_app, (IH Hpos). by simpl.
Qed.

(** The item that opened the last bin: no bin had room for it, and no bin
    was opened after it. *)
Lemma ultima_apertura objetos :
  Forall (λ x, 0 ≤ x) objetos →
  fold_left paso objetos [] ≠ [] →
  ∃ antes y despues,
    objetos = antes ++ y :: despues ∧
    Forall (λ c, capacidad < pysum c + y) (fold_left paso antes []) ∧
    length (fold_left paso objetos []) = S (length (fold_left paso antes [])).
Proof.
  induction objetos as [|x objetos IH] using rev_ind; intros Hpos Hne; [done|].
  apply Forall_app in Hpos as [Hpos Hx].
  rewrite fold_left_app in Hne |- *. simpl in Hne |- *.
  destruct (paso_casos (fold_left paso objetos []) x (paso_propias _ Hpos))
    as [(i & caja & Hi & Heq)|[Hno Heq]]; rewrite Heq.
  - rewrite length_alter.
    destruct IH as (antes & y & despues & -> & Hnoy & Hlen); [done| |].
    { intros Hnil. by rewrite Hnil in Hi. }
    exists antes, y, (despues ++ [x]). split_and!; [|done|done].
    by rewrite <- app_assoc.
  - exists objetos, x, []. rewrite length_app. simpl. split_and!; [done|done|lia].
Qed.

(** On positive sizes in non-increasing order such a step uses at most
    three bins for every two bins of any packing of the same items whose
    bins are within capacity or hold a single item. *)
Lemma ajuste_decreciente_tres_medios objetos otras :
  0 < capacidad →
  Forall (λ x, 0 < x) objetos →
  StronglySorted Z.ge objetos →
  reparte objetos otras →
  Forall (λ c, pysum c ≤ capacidad ∨ ∃ x, c = [x]) otras →
  (2 * length (fold_left paso objetos []) ≤ 3 * length otras)%nat.
Proof.
  intros Hcap Hobj Hsorted Hrep Hfac. unfold reparte in Hrep.
  assert (Forall (λ x, 0 ≤ x) objetos) as Hpos
    by (eapply Forall_impl; [exact Hobj|]; simpl; intros; lia).
  assert (Forall (λ x, 0 ≤ x) (concat otras)) as Hpo.
  { rewrite Forall_forall in Hpos |- *. intros x Hx. apply Hpos. by rewrite <- Hrep. }
  pose proof (grandes_en_empaquetado capacidad otras Hcap Hfac Hpo) as Hgrandes.
  pose proof (pysum_cortado_empaquetado capacidad otras ltac:(lia) Hfac Hpo) as Hsuma.
  rewrite (Permutation_length
             (filter_Permutation (λ x, capacidad < 2 * x) _ _ Hrep)) in Hgrandes.
  rewrite (pysum_Permutation _ _
             (fmap_Permutation (λ x, Z.min x capacidad) _ _ Hrep)) in Hsuma.
  clear Hpo Hrep Hfac.
  destruct (decide (fold_left paso objetos [] = [])) as [->|Hne]; [simpl; lia|].
  destruct (ultima_apertura objetos Hpos Hne)
    as (antes & y & despues & -> & Hno & ->).
  apply Forall_app in Hobj as [_ Hy]. inversion_clear Hy as [|? ? Hy' _].
  apply Forall_app in Hpos as [Hantes Hresto].
  inversion_clear Hresto as [|? ? _ Hpd].
  pose proof (paso_propias antes Hantes) as Hprop.
  pose proof (paso_reparte antes Hantes) as Hperm.
  assert (Forall (λ x, y ≤ x) antes) as Hmayores.
  { rewrite Forall_forall. intros x Hx.
    assert (Z.ge x y); [|lia].
    apply (StronglySorted_app_1_elem_of Z.ge antes (y :: despues)); [done|done|left]. }
  assert (Forall (λ c, c ≠ [] ∧ Forall (λ x, y ≤ x) c) (fold_left paso antes []))
    as Hit.
  { rewrite Forall_forall. intros c Hc. split.
    - unfold cajas_propias in Hprop. rewrite Forall_forall in Hprop.
      by apply Hprop.
    - rewrite Forall_forall. intros x Hx.
      rewrite Forall_forall in Hmayores. apply Hmayores.
      rewrite <- Hperm. apply list_elem_of_In, in_concat. exists c.
      split; by apply list_elem_of_In. }
  rewrite filter_app, filter_cons, length_app in Hgrandes.
  rewrite fmap_app, fmap_cons, pysum_app in Hsuma. simpl in Hsuma.
  pose proof (pysum_cortado_nonneg capacidad despues ltac:(lia) Hpd) as Hcola.
  destruct (decide (y ≤ capacidad)) as [Hcabe|Hgrande].
  - destruct (cajas_sin_sitio_cota capacidad y _ ltac:(lia) Hno Hit)
      as (grandes & dobles & -> & Hg & Hsum).
    rewrite (Permutation_length
               (filter_Permutation (λ x, capacidad < 2 * x) _ _ Hperm)) in Hg.
    rewrite (pysum_Permutation _ _
               (fmap_Permutation (λ x, Z.min x capacidad) _ _ Hperm)) in Hsum.
    apply (tres_medios_cuenta capacidad y
             (pysum ((λ x, Z.min x capacidad) <$> antes) + y)); [lia|lia|lia|lia].
  - assert (filter (λ x, (capacidad < 2 * x)%Z) antes = antes) as Hfil.
    { apply filter_todos. eapply Forall_impl; [exact Hmayores|]. simpl. intros. lia. }
    rewrite Hfil, decide_True in Hgrandes by lia. simpl in Hgrandes.
    assert (length (fold_left paso antes []) ≤ length antes)%nat; [|lia].
    rewrite <- (Permutation_length Hperm). apply length_concat_no_vacias.
    eapply Forall_impl; [exact Hit|]. by intros c [? _].
Qed.

End ajuste_decreciente.

Lemma first_fit_step_casos capacidad cajas x :
  cajas_propias cajas →
  (∃ i caja, cajas !! i = Some caja ∧
             first_fit_step capacidad cajas x = alter (λ c, c ++ [x]) i cajas) ∨
  (Forall (λ c, capacidad < pysum c + x) cajas ∧
   first_fit_step capacidad cajas x = cajas ++ [[x]]).
Proof.
  intros _. unfold first_fit_step.
  destruct (first_fit_place capacidad x cajas) as [r|] eqn:Hplace.
  - apply first_fit_place_Some in Hplace as (i & caja & Hi & _ & ->). left. eauto.
  - apply first_fit_place_None in Hplace. by right.
Qed.

Lemma best_fit_step_apertura capacidad cajas x :
  cajas_propias cajas →
  (∃ i caja, cajas !! i = Some caja ∧
             best_fit_step capacidad cajas x = alter (λ c, c ++ [x]) i cajas) ∨
  (Forall (λ c, capacidad < pysum c + x) cajas ∧
   best_fit_step capacidad cajas x = cajas ++ [[x]]).
Proof.
  intros Hp.
  destruct (best_fit_step_casos capacidad cajas x (cajas_propias_sumas _ Hp))
    as [(i & caja & Hi & _ & _ & ->)|[Hno ->]]; [left; eauto|by right].
Qed.

Lemma sorted_reverse_sorted l : StronglySorted Z.ge (sorted_reverse l).
Proof.
  assert (Transitive Z.ge) by (intros x y z; lia).
  assert (Total Z.ge) by (intros x y; lia).
  by apply StronglySorted_merge_sort.
Qed.

Lemma first_fit_cuenta capacidad l :
  (first_fit capacidad l).1 = length (fold_left (first_fit_step capacidad) l []).
Proof. by destruct l. Qed.

Lemma best_fit_cuenta capacidad l :
  (best_fit capacidad l).1 = length (fold_left (best_fit_step capacidad) l []).
Proof. by destruct l. Qed.

(** A bin is placed into only within capacity, so a bin over capacity
    holds the one item that opened it. *)
Lemma coloca_una_o_cabe capacidad x cajas cajas' :
  coloca capacidad x cajas cajas' →
  Forall (λ c, pysum c ≤ capacidad ∨ ∃ z, c = [z]) cajas →
  Forall (λ c, pysum c ≤ capacidad ∨ ∃ z, c = [z]) cajas'.
Proof.
  intros [i caja Hi Hcabe|] Hf.
  - apply Forall_alter; [done|]. intros c Hc _. left.
    rewrite Hi in Hc. injection Hc as <-. rewrite pysum_snoc. lia.
  - apply Forall_app. split; [done|]. apply Forall_singleton. right. eauto.
Qed.

Lemma completa_una_o_cabe capacidad pendientes cajas final :
  completa capacidad pendientes cajas final →
  Forall (λ c, pysum c ≤ capacidad ∨ ∃ z, c = [z]) cajas →
  Forall (λ c, pysum c ≤ capacidad ∨ ∃ z, c = [z]) final.
Proof.
  induction 1 as [|x pend cajas cajas' final Hc _ IH]; [done|].
  intros Hf. by eapply IH, coloca_una_o_cabe.
Qed.

(** First Fit Decreasing and Best Fit Decreasing against a packing of the
    same items whose bins are within capacity or hold a single item. *)
Lemma decrecientes_tres_medios capacidad objetos otras :
  0 < capacidad →
  Forall (λ x, 0 < x) objetos →
  reparte objetos otras →
  Forall (λ c, pysum c ≤ capacidad ∨ ∃ x, c = [x]) otras →
  (2 * (first_fit_decreasing capacidad objetos).1 ≤ 3 * length otras)%nat ∧
  (2 * (best_fit_decreasing capacidad objetos).1 ≤ 3 * length otras)%nat.
Proof.
  intros Hcap Hobj Hrep Hfac.
  pose proof (sorted_reverse_Forall _ _ Hobj) as Hord.
  pose proof (sorted_reverse_sorted objetos) as Hsorted.
  assert (reparte (sorted_reverse objetos) otras) as Hrep'.
  { unfold reparte in *. by rewrite Hrep, sorted_reverse_Permutation. }
  unfold first_fit_decreasing, best_fit_decreasing.
  rewrite first_fit_cuenta, best_fit_cuenta. split.
  - apply (ajuste_decreciente_tres_medios capacidad (first_fit_step capacidad)
             (first_fit_step_casos capacidad)); done.
  - apply (ajuste_decreciente_tres_medios capacidad (best_fit_step capacidad)
             (best_fit_step_apertura capacidad)); done.
Qed.

(** The packings of the heuristics are such packings. *)
Lemma heuristicos_una_o_cabe alg capacidad objetos :
  alg ∈ heuristicos →
  Forall (λ c, pysum c ≤ capacidad ∨ ∃ x, c = [x]) (alg capacidad objetos).2.
Proof.
  intros Halg.
  destruct (heuristicos_completa alg capacidad objetos Halg)
    as (_ & orden & _ & Hc).
  eapply completa_una_o_cabe; [exact Hc|constructor].
Qed.

(** * The generations of a run *)

Section generaciones_de_una_corrida.

Context (sembrar : Z → rng) (items : list Z) (capacidad : Z).
Context (population_size : nat) (mutation_rate : Q) (patience_no_change : nat).

Local Abbreviation generacion :=
  (generacion items capacidad population_size mutation_rate patience_no_change).
Local Abbreviation bucle :=
  (bucle items capacidad population_size mutation_rate patience_no_change).

(** One generation: the entry added to the history is the number of
    distinct labels of the first vector of least fitness of the new
    population, and the early-stopping block runs on that number. *)
Lemma generacion_mejor st g st' romper g' :
  bien_formado items st →
  generacion st g = Ok ((st', romper), g') →
  ∃ best_gen,
    min_fitness items capacidad (population st') = Ok best_gen ∧
    history_bins st' = history_bins st ++ [num_bins best_gen] ∧
    (last_best_bins st', gens_without_change st', romper)
    = early_stopping patience_no_change (last_best_bins st)
        (gens_without_change st) (num_bins best_gen).
Proof.
  intros Hst H.
  pose proof (generacion_Ok_inv _ _ _ _ _ _ _ _ _ _ Hst H) as (_ & b & Hh & Hes).
  apply generacion_detalle in H
    as (elite & hijos & best_gen & mejora & _ & _ & Hbest & Hpop & Hh' & _).
  exists best_gen. rewrite Hpop. split_and!; [done|done|].
  rewrite Hh' in Hh. apply app_inj_tail in Hh as [_ <-]. done.
Qed.

(** A run of the loop contains the runs with a smaller budget: the state
    after generation [t + 1] is what the loop returns with that budget. *)
Lemma bucle_prefijo generations :
  ∀ st g st' g',
    bien_formado items st →
    bucle generations st g = Ok (st', g') →
    ∃ nuevas,
      history_bins st' = history_bins st ++ nuevas ∧
      ∀ t b, nuevas !! t = Some b →
        ∃ st_t g_t best_gen,
          bucle (S t) st g = Ok (st_t, g_t) ∧
          history_bins st_t = history_bins st ++ take (S t) nuevas ∧
          min_fitness items capacidad (population st_t) = Ok best_gen ∧
          b = num_bins best_gen.
Proof.
  induction generations as [|n IH]; intros st g st' g' Hst H; simpl in H.
  { apply mret_Ok_inv in H as [-> _]. exists []. rewrite app_nil_r.
    split; [done|]. intros t b Ht. by rewrite lookup_nil in Ht. }
  apply bind_Ok_inv in H as ([st1 romper] & g1 & Hgen & H).
  pose proof (generacion_Ok_inv _ _ _ _ _ _ _ _ _ _ Hst Hgen) as [Hst1 _].
  destruct (generacion_mejor _ _ _ _ _ Hst Hgen) as (best_gen & Hbest & Hh & _).
  assert (∀ t, Genetico.bucle items capacidad population_size mutation_rate
                 patience_no_change (S t) st g
               = (if romper then mret st1 else bucle t st1) g1) as Hpaso.
  { intros t. simpl. by rewrite (bind_Ok _ _ _ _ _ Hgen). }
  destruct romper.
  - apply mret_Ok_inv in H as [-> ->]. exists [num_bins best_gen].
    split; [done|]. intros [|t] b Ht; [|done].
    simpl in Ht. injection Ht as <-.
    exists st1, g1, best_gen. rewrite Hpaso. done.
  - destruct (IH _ _ _ _ Hst1 H) as (nuevas & Hh' & Hprefijo).
    exists (num_bins best_gen :: nuevas). split.
    { by rewrite Hh', Hh, <- app_assoc. }
    intros [|t] b Ht; simpl in Ht.
    + injection Ht as <-. exists st1, g1, best_gen. rewrite Hpaso.
      split_and!; [done| |done|done].
      rewrite Hh. simpl. by rewrite take_0.
    + destruct (Hprefijo t b Ht) as (st_t & g_t & best_t & Hrun & Hht & Hbt & ->).
      exists st_t, g_t, best_t. rewrite Hpaso. split_and!; [done| |done|done].
      rewrite Hht, Hh, <- app_assoc. done.
Qed.

(** The start of the solver: seeding, the initial population, its best
    vector, and the loop. *)
Lemma genetic_algorithm_bpp_inicio generations seed g k cajas best history g' :
  genetic_algorithm_bpp sembrar items capacidad population_size generations
    mutation_rate seed patience_no_change g = Ok ((k, cajas, best, history), g') →
  ∃ poblacion g0 mejor st g1,
    generate_population (length items) population_size
      (match seed with Some s => sembrar s | None => g end) = Ok (poblacion, g0) ∧
    min_fitness items capacidad poblacion = Ok mejor ∧
    bucle generations (Estado poblacion [] mejor (num_bins mejor) None 0%nat) g0
    = Ok (st, g1) ∧
    history = history_bins st.
Proof.
  intros H. unfold genetic_algorithm_bpp in H.
  apply bind_Ok_inv in H as ([] & g1 & Hseed & H).
  assert (g1 = match seed with Some s => sembrar s | None => g end) as ->.
  { destruct seed; [by injection Hseed|]. by apply mret_Ok_inv in Hseed as [_ ->]. }
  apply bind_Ok_inv in H as (poblacion & g0 & Hgen & H).
  apply bind_Ok_inv in H as (mejor & g2 & Hmejor & H).
  apply lift_Ok_inv in Hmejor as [Hmejor ->].
  apply bind_Ok_inv in H as (st & g3 & Hbucle & H).
  inv_run H. apply mret_Ok_inv in H as [[= _ _ _ Hh] _].
  by exists poblacion, g0, mejor, st, g3.
Qed.

(** Every history entry is the bin count of the best vector of its
    generation. *)
Lemma genetic_algorithm_bpp_generaciones generations seed g k cajas best history g' :
  genetic_algorithm_bpp sembrar items capacidad population_size generations
    mutation_rate seed patience_no_change g = Ok ((k, cajas, best, history), g') →
  ∃ poblacion g0 mejor,
    generate_population (length items) population_size
      (match seed with Some s => sembrar s | None => g end) = Ok (poblacion, g0) ∧
    min_fitness items capacidad poblacion = Ok mejor ∧
    ∀ t b, history !! t = Some b →
      ∃ st g1 best_gen,
        bucle (S t) (Estado poblacion [] mejor (num_bins mejor) None 0%nat) g0
        = Ok (st, g1) ∧
        history_bins st = take (S t) history ∧
        min_fitness items capacidad (population st) = Ok best_gen ∧
        b = num_bins best_gen.
Proof.
  intros H.
  destruct (genetic_algorithm_bpp_inicio _ _ _ _ _ _ _ _ H)
    as (poblacion & g0 & mejor & st & g1 & Hgen & Hmejor & Hbucle & ->).
  exists poblacion, g0, mejor. split_and!; [done|done|].
  pose proof (estado_inicial_bien_formado _ _ _ _ _ _ _ Hgen Hmejor) as Hini.
  destruct (bucle_prefijo _ _ _ _ _ Hini Hbucle) as (nuevas & Hh & Hprefijo).
  simpl in Hh. rewrite Hh. exact Hprefijo.
Qed.

End generaciones_de_una_corrida.


(** * The exact solver through the double *)

Lemma foldM_fold_left {A B} (f : B → A → result B) (h : B → A → B) l :
  (∀ b x, x ∈ l → f b x = Ok (h b x)) →
  ∀ b, foldM f l b = Ok (fold_left h l b).
Proof.
  induction l as [|x l IH]; intros Hf b; simpl; [done|].
  rewrite Hf by left. simpl. apply IH. intros. apply Hf. by right.
Qed.

Lemma minimo_teorico_doble_exacto capacidad lista_de_objetos :
  0 < capacidad < 2 ^ 53 →
  0 ≤ pysum lista_de_objetos < 2 ^ 53 →
  minimo_teorico_doble capacidad lista_de_objetos
  = minimo_teorico capacidad lista_de_objetos.
Proof.
  intros Hcap Hsuma. unfold minimo_teorico_doble, minimo_teorico.
  rewrite decide_False by lia. by apply ceil_true_div_exacto.
Qed.

(** Below [2^53] every lower bound of the search is the exact one, and
    the search through the double is the search on exact ceilings. *)
Lemma branch_and_bound_doble_exacto capacidad pendientes :
  0 < capacidad < 2 ^ 53 →
  Forall (λ x, 0 ≤ x) pendientes →
  pysum pendientes < 2 ^ 53 →
  ∀ cajas resto st,
    resto = pysum pendientes →
    branch_and_bound_doble capacidad pendientes cajas resto st
    = Ok (branch_and_bound capacidad pendientes cajas resto st).
Proof.
  intros Hcap Hpos. induction Hpos as [|x pendientes Hx Hpos IH];
    intros Hsuma cajas resto st Hresto.
  { simpl. by destruct (menor_que_cota _ _). }
  pose proof (pysum_nonneg _ Hpos) as Hcola.
  simpl in Hsuma, Hresto.
  cbn [branch_and_bound_doble branch_and_bound].
  unfold calcular_lower_bound_doble, calcular_lower_bound.
  rewrite ceil_true_div_exacto by lia. simpl mbind. simpl mret.
  destruct (alcanza_cota _ _); [done|].
  rewrite (foldM_fold_left _
             (λ st (ic : nat * list Z),
                if decide (pysum ic.2 + x ≤ capacidad)
                then branch_and_bound capacidad pendientes
                       (alter (λ c, c ++ [x]) ic.1 cajas) (resto - x) st
                else st)).
  2:{ intros st' ic _. simpl. case_decide; [|done]. apply IH; lia. }
  simpl. destruct (cabe_caja_nueva _ _); [|done]. apply IH; lia.
Qed.

Lemma resultado_optimo_doble_exacto capacidad lista_de_objetos :
  0 < capacidad < 2 ^ 53 →
  Forall (λ x, 0 ≤ x) lista_de_objetos →
  pysum lista_de_objetos < 2 ^ 53 →
  resultado_optimo_doble capacidad lista_de_objetos
  = resultado_optimo capacidad lista_de_objetos.
Proof.
  intros Hcap Hpos Hsuma. unfold resultado_optimo_doble, resultado_optimo.
  rewrite branch_and_bound_doble_exacto by done. simpl.
  destruct lista_de_objetos; [done|]. by rewrite decide_False by lia.
Qed.

(** Whatever the lower bounds, an incumbent is replaced only by a
    better one. *)
Lemma branch_and_bound_doble_mono capacidad pendientes :
  ∀ cajas resto st st',
    branch_and_bound_doble capacidad pendientes cajas resto st = Ok st' →
    cota_le (mejor_num_cajas st') (mejor_num_cajas st).
Proof.
  induction pendientes as [|x pendientes IH]; intros cajas resto st st' H;
    simpl in H.
  - destruct (mejor_num_cajas st) as [|m] eqn:Hm; simpl in H.
    + by simplify_eq.
    + case_bool_decide; simplify_eq; simpl; [lia|]. rewrite Hm. simpl. lia.
  - apply rbind_Ok_inv in H as (lb & _ & H).
    destruct (alcanza_cota _ _); [simplify_eq; apply cota_le_refl|].
    apply rbind_Ok_inv in H as (st1 & Hfold & H).
    assert (cota_le (mejor_num_cajas st1) (mejor_num_cajas st)) as H1.
    { revert Hfold.
      apply (foldM_Ok_inv (λ s, cota_le (mejor_num_cajas s) (mejor_num_cajas st)));
        [|apply cota_le_refl].
      intros s ic s' _ Hs Hstep. simpl in Hstep.
      case_decide; [|by simplify_eq].
      eapply cota_le_trans; [by eapply IH|done]. }
    destruct (cabe_caja_nueva _ _); [|by simplify_eq].
    eapply cota_le_trans; [by eapply IH|done].
Qed.

(** When the search returns, the incumbent is finite. *)
Lemma branch_and_bound_doble_finito capacidad pendientes :
  ∀ cajas resto st st',
    branch_and_bound_doble capacidad pendientes cajas resto st = Ok st' →
    mejor_num_cajas st' ≠ Inf.
Proof.
  induction pendientes as [|x pendientes IH]; intros cajas resto st st' H;
    simpl in H.
  - destruct (mejor_num_cajas st) as [|m] eqn:Hm; simpl in H.
    + by simplify_eq.
    + case_bool_decide; simplify_eq; [done|by rewrite Hm].
  - apply rbind_Ok_inv in H as (lb & _ & H).
    destruct (alcanza_cota _ _) eqn:Ha.
    { simplify_eq. destruct (mejor_num_cajas st'); done. }
    apply rbind_Ok_inv in H as (st1 & _ & H).
    destruct (mejor_num_cajas st1) as [|m] eqn:Hm; simpl in H; [by eapply IH|].
    case_bool_decide; [|simplify_eq; by rewrite Hm].
    apply branch_and_bound_doble_mono in H. rewrite Hm in H.
    by destruct (mejor_num_cajas st').
Qed.

(** Whatever holds of every leaf below a node holds of the incumbent. *)
Lemma branch_and_bound_doble_correcto capacidad (Q : list (list Z) → Prop)
    pendientes :
  ∀ cajas resto st st',
    (∀ final, completa capacidad pendientes cajas final → Q final) →
    incumbente_ok Q st →
    branch_and_bound_doble capacidad pendientes cajas resto st = Ok st' →
    incumbente_ok Q st'.
Proof.
  induction pendientes as [|x pendientes IH]; intros cajas resto st st' HQ Hst H;
    simpl in H.
  - destruct (menor_que_cota _ _); simplify_eq; [|done].
    split; [done|]. apply HQ. constructor.
  - apply rbind_Ok_inv in H as (lb & _ & H).
    destruct (alcanza_cota _ _); [by simplify_eq|].
    apply rbind_Ok_inv in H as (st1 & Hfold & H).
    assert (incumbente_ok Q st1) as H1.
    { revert Hfold. apply (foldM_Ok_inv (incumbente_ok Q)); [|done].
      intros s [i caja] s' Hin Hs Hstep. simpl in Hstep.
      case_decide; [|by simplify_eq].
      apply elem_of_lookup_imap in Hin as (j & c & ? & Hj). simplify_eq.
      eapply IH; [|done|done]. intros final Hfinal. apply HQ.
      econstructor; [|done]. by econstructor. }
    destruct (cabe_caja_nueva _ _); [|by simplify_eq].
    eapply IH; [|done|done]. intros final Hfinal. apply HQ.
    econstructor; [|done]. constructor.
Qed.

(** What the exact solver returns, when it returns: a finite count and a
    packing reached by placing the items in input order. *)
Lemma resultado_optimo_doble_Ok_inv capacidad lista_de_objetos m cajas :
  resultado_optimo_doble capacidad lista_de_objetos = Ok (m, cajas) →
  m = Fin (length cajas) ∧ completa capacidad lista_de_objetos [] cajas.
Proof.
  unfold resultado_optimo_doble. intros H.
  apply rbind_Ok_inv in H as (st & Hst & H).
  unfold mret, result_ret in H. injection H as <- <-.
  pose proof (branch_and_bound_doble_finito _ _ _ _ _ _ Hst) as Hfin.
  assert (incumbente_ok (completa capacidad lista_de_objetos []) st) as Hok.
  { eapply branch_and_bound_doble_correcto; [| |exact Hst]; done. }
  unfold incumbente_ok in Hok.
  destruct (mejor_num_cajas st) as [|n]; [done|].
  destruct Hok as [-> Hc]. done.
Qed.

(** Beyond the doubles the first lower bound of the search raises. *)
Example resultado_optimo_doble_desborda :
  resultado_optimo_doble 1 [10 ^ 400] = Err OverflowError ∧
  resultado_optimo_doble 0 [3] = Err ZeroDivisionError ∧
  resultado_optimo_doble 5 [7; 3] = Ok (Fin 2, [[7]; [3]]).
Proof. split_and!; vm_compute; reflexivity. Qed.


(** * Bins of the solvers *)

(** X7: the five heuristics return no empty bin, at most as many bins as
    there are items, and zero bins only for the empty list, whatever the
    capacity; so does the exact solver whenever it returns, and it
    returns for a positive capacity and non-negative sizes when capacity
    and total size are below [2^53]. *)
Theorem solvers_return_no_empty_bin capacidad lista_de_objetos :
  (∀ alg, alg ∈ heuristicos →
     Forall (λ c, c ≠ []) (alg capacidad lista_de_objetos).2 ∧
     ((alg capacidad lista_de_objetos).1 ≤ length lista_de_objetos)%nat ∧
     ((alg capacidad lista_de_objetos).1 = 0%nat ↔ lista_de_objetos = [])) ∧
  (∀ m cajas,
     resultado_optimo_doble capacidad lista_de_objetos = Ok (m, cajas) →
     m = Fin (length cajas) ∧
     Forall (λ c, c ≠ []) cajas ∧
     (length cajas ≤ length lista_de_objetos)%nat ∧
     (length cajas = 0%nat ↔ lista_de_objetos = [])) ∧
  (0 < capacidad < 2 ^ 53 →
   Forall (λ x, 0 ≤ x) lista_de_objetos →
   pysum lista_de_objetos < 2 ^ 53 →
   ∃ m cajas,
     resultado_optimo_doble capacidad lista_de_objetos = Ok (Fin m, cajas)).
Proof.
  split_and!.
  - intros alg Halg.
    destruct (heuristicos_completa alg capacidad lista_de_objetos Halg)
      as (-> & orden & Hperm & Hc).
    apply completa_cuenta in Hc as (Hne & Hlen & Hcero).
    rewrite <- (Permutation_length Hperm). split_and!; [done|done|].
    rewrite Hcero. split; intros ->.
    + by apply Permutation_nil in Hperm.
    + by apply Permutation_nil_r in Hperm.
  - intros m cajas [-> Hc]%resultado_optimo_doble_Ok_inv.
    split; [done|]. by apply completa_cuenta in Hc.
  - intros Hcap Hpos Hsuma.
    destruct (resultado_optimo_completa capacidad lista_de_objetos)
      as (m & cajas & Hres & _ & _); [left; lia|].
    exists m, cajas. by rewrite resultado_optimo_doble_exacto.
Qed.

(** X30: for a capacity and a total size below [2^53], with positive
    sizes that fit a bin, the exact solver run through the double, as the
    interpreter runs it, returns what the search on exact ceilings
    returns: a valid packing with the least number of bins. *)
Theorem exact_solver_through_the_double capacidad lista_de_objetos :
  0 < capacidad < 2 ^ 53 →
  Forall (λ x, 0 < x ∧ x ≤ capacidad) lista_de_objetos →
  pysum lista_de_objetos < 2 ^ 53 →
  ∃ m cajas,
    resultado_optimo_doble capacidad lista_de_objetos = Ok (Fin m, cajas) ∧
    resultado_optimo capacidad lista_de_objetos = Ok (Fin m, cajas) ∧
    length cajas = m ∧
    empaquetado_valido capacidad lista_de_objetos cajas ∧
    ∀ otras, empaquetado_valido capacidad lista_de_objetos otras →
             (m ≤ length otras)%nat.
Proof.
  intros Hcap Hobj Hsuma.
  assert (Forall (λ x, 0 ≤ x) lista_de_objetos) as Hpos
    by (eapply Forall_impl; [exact Hobj|]; simpl; intros; lia).
  destruct (resultado_optimo_spec capacidad lista_de_objetos ltac:(lia) Hobj)
    as (m & cajas & Hres & Hlen & Hval & Hopt).
  exists m, cajas. rewrite resultado_optimo_doble_exacto by done. done.
Qed.

Lemma exact_solver_through_the_double_witness :
  0 < 10 < 2 ^ 53 ∧ Forall (λ x, 0 < x ∧ x ≤ 10) [6; 5; 4; 3] ∧
  pysum [6; 5; 4; 3] < 2 ^ 53 ∧
  ∃ m cajas,
    resultado_optimo_doble 10 [6; 5; 4; 3] = Ok (Fin m, cajas) ∧
    resultado_optimo 10 [6; 5; 4; 3] = Ok (Fin m, cajas) ∧
    length cajas = m ∧
    empaquetado_valido 10 [6; 5; 4; 3] cajas ∧
    ∀ otras, empaquetado_valido 10 [6; 5; 4; 3] otras → (m ≤ length otras)%nat.
Proof.
  assert (0 < 10 < 2 ^ 53) as H1 by (simpl; lia).
  assert (Forall (λ x, 0 < x ∧ x ≤ 10) [6; 5; 4; 3]) as H2
    by (repeat constructor; lia).
  assert (pysum [6; 5; 4; 3] < 2 ^ 53) as H3 by (simpl; lia).
  exact (conj H1 (conj H2 (conj H3
    (exact_solver_through_the_double 10 [6; 5; 4; 3] H1 H2 H3)))).
Defined.

(** * Decreasing variants against the plain ones *)

(** C6 (amended): for a positive capacity and positive sizes, First Fit
    Decreasing uses at most three bins for every two bins of First Fit,
    and Best Fit Decreasing at most three for every two of Best Fit, on
    the same input; the same bound holds against the bins of any valid
    packing of the items. On input already in non-increasing order the
    decreasing variants return what First Fit and Best Fit return. *)
Theorem C6_decreasing_within_three_halves capacidad objetos :
  0 < capacidad →
  Forall (λ x, 0 < x) objetos →
  (2 * (first_fit_decreasing capacidad objetos).1
   ≤ 3 * (first_fit capacidad objetos).1)%nat ∧
  (2 * (best_fit_decreasing capacidad objetos).1
   ≤ 3 * (best_fit capacidad objetos).1)%nat ∧
  (∀ cajas, empaquetado_valido capacidad objetos cajas →
     (2 * (first_fit_decreasing capacidad objetos).1 ≤ 3 * length cajas)%nat ∧
     (2 * (best_fit_decreasing capacidad objetos).1 ≤ 3 * length cajas)%nat) ∧
  (StronglySorted Z.ge objetos →
     first_fit_decreasing capacidad objetos = first_fit capacidad objetos ∧
     best_fit_decreasing capacidad objetos = best_fit capacidad objetos).
Proof.
  intros Hcap Hobj.
  assert (first_fit ∈ heuristicos) as Hff by (unfold heuristicos; right; left).
  assert (best_fit ∈ heuristicos) as Hbf by (unfold heuristicos; do 2 right; left).
  split_and!.
  - destruct (heuristicos_completa first_fit capacidad objetos Hff) as [-> _].
    apply (decrecientes_tres_medios capacidad objetos); [done|done| |].
    + by apply heuristicos_reparte.
    + by apply heuristicos_una_o_cabe.
  - destruct (heuristicos_completa best_fit capacidad objetos Hbf) as [-> _].
    apply (decrecientes_tres_medios capacidad objetos); [done|done| |].
    + by apply heuristicos_reparte.
    + by apply heuristicos_una_o_cabe.
  - intros cajas [Hrep Hfac].
    apply decrecientes_tres_medios; [done|done|done|].
    eapply Forall_impl; [exact Hfac|]. simpl. by left.
  - intros Hsorted. unfold first_fit_decreasing, best_fit_decreasing.
    by rewrite (sorted_reverse_id _ Hsorted).
Qed.

Lemma C6_decreasing_within_three_halves_witness :
  0 < 7 ∧ Forall (λ x, 0 < x) [3; 2; 2; 3; 2; 2] ∧
  (2 * (first_fit_decreasing 7 [3; 2; 2; 3; 2; 2]%Z).1
   ≤ 3 * (first_fit 7 [3; 2; 2; 3; 2; 2]%Z).1)%nat ∧
  (2 * (best_fit_decreasing 7 [3; 2; 2; 3; 2; 2]%Z).1
   ≤ 3 * (best_fit 7 [3; 2; 2; 3; 2; 2]%Z).1)%nat ∧
  (∀ cajas, empaquetado_valido 7 [3; 2; 2; 3; 2; 2] cajas →
     (2 * (first_fit_decreasing 7 [3; 2; 2; 3; 2; 2]%Z).1 ≤ 3 * length cajas)%nat ∧
     (2 * (best_fit_decreasing 7 [3; 2; 2; 3; 2; 2]%Z).1 ≤ 3 * length cajas)%nat) ∧
  (StronglySorted Z.ge [3; 2; 2; 3; 2; 2] →
     first_fit_decreasing 7 [3; 2; 2; 3; 2; 2] = first_fit 7 [3; 2; 2; 3; 2; 2] ∧
     best_fit_decreasing 7 [3; 2; 2; 3; 2; 2] = best_fit 7 [3; 2; 2; 3; 2; 2]).
Proof.
  assert (0 < 7) as H1 by lia.
  assert (Forall (λ x, 0 < x) [3; 2; 2; 3; 2; 2]) as H2
    by (repeat constructor; lia).
  exact (conj H1 (conj H2
    (C6_decreasing_within_three_halves 7 [3; 2; 2; 3; 2; 2] H1 H2))).
Defined.

(** The bound of C6 is reached: on the input on which the decreasing
    variants are worse they use exactly three bins for two. *)
Example decreasing_three_for_two :
  (first_fit_decreasing 7 [3; 2; 2; 3; 2; 2]).1 = 3%nat ∧
  (first_fit 7 [3; 2; 2; 3; 2; 2]).1 = 2%nat ∧
  (best_fit_decreasing 7 [3; 2; 2; 3; 2; 2]).1 = 3%nat ∧
  (best_fit 7 [3; 2; 2; 3; 2; 2]).1 = 2%nat.
Proof. by vm_compute. Qed.

(** * Partition of the items *)

(** C3: for a positive capacity and positive sizes the bins returned
    hold the input items as a multiset, each item in exactly one bin:
    those of each heuristic; those of the exact solver whenever it
    returns, which it does when capacity and total size are below [2^53],
    with the result of the search on exact ceilings; and those of the
    genetic solver whenever it returns, which it does for a population of
    one vector, or of at least three vectors over one item or at least
    three items. *)
Theorem C3_every_item_in_exactly_one_bin sembrar capacidad objetos :
  0 < capacidad →
  Forall (λ x, 0 < x) objetos →
  (∀ alg, alg ∈ heuristicos → reparte objetos (alg capacidad objetos).2) ∧
  (∀ m cajas, resultado_optimo_doble capacidad objetos = Ok (m, cajas) →
              reparte objetos cajas) ∧
  (capacidad < 2 ^ 53 → pysum objetos < 2 ^ 53 →
   ∃ m cajas, resultado_optimo_doble capacidad objetos = Ok (Fin m, cajas) ∧
              resultado_optimo capacidad objetos = Ok (Fin m, cajas) ∧
              reparte objetos cajas) ∧
  (∀ population_size generations mutation_rate seed patience_no_change
     g k cajas best history g',
     genetic_algorithm_bpp sembrar objetos capacidad population_size generations
       mutation_rate seed patience_no_change g = Ok ((k, cajas, best, history), g') →
     reparte objetos cajas) ∧
  (∀ population_size generations mutation_rate seed patience_no_change g,
     population_size = 1%nat ∨
       ((3 ≤ population_size)%nat ∧
        (length objetos = 1%nat ∨ (3 ≤ length objetos)%nat)) →
     ∃ k cajas best history g',
       genetic_algorithm_bpp sembrar objetos capacidad population_size generations
         mutation_rate seed patience_no_change g = Ok ((k, cajas, best, history), g') ∧
       reparte objetos cajas).
Proof.
  intros Hcap Hobj.
  assert (Forall (λ x, 0 ≤ x) objetos) as Hpos
    by (eapply Forall_impl; [exact Hobj|]; simpl; intros; lia).
  split_and!.
  - intros alg Halg. by apply heuristicos_reparte.
  - intros m cajas [_ Hc]%resultado_optimo_doble_Ok_inv.
    apply completa_reparte in Hc. done.
  - intros Hcap53 Hsuma.
    destruct (resultado_optimo_completa capacidad objetos)
      as (m & cajas & Hres & _ & Hc); [left; lia|].
    exists m, cajas. rewrite resultado_optimo_doble_exacto by (done || lia).
    split_and!; [done|done|]. apply completa_reparte in Hc. done.
  - intros ps G rate seed p g k cajas best history g' Hrun.
    by eapply genetic_algorithm_bpp_reparte.
  - intros ps G rate seed p g Hcaso.
    destruct (genetic_algorithm_bpp_Ok sembrar objetos capacidad ps G rate seed p g
                Hcaso) as ([[[k cajas] best] history] & g' & Hrun).
    exists k, cajas, best, history, g'. split; [done|].
    by eapply genetic_algorithm_bpp_reparte.
Qed.

Lemma C3_every_item_in_exactly_one_bin_witness :
  ∃ g',
    0 < 10 ∧ Forall (λ x, 0 < x) [5; 5; 5; 5] ∧
    genetic_algorithm_bpp (λ _ i, ((N.of_nat i * 7919 + 13) `mod` 251)%N)
      [5; 5; 5; 5] 10 5 12 (1 # 2) (Some 1) 2 (λ _, 0%N)
    = Ok ((2%nat, [[5; 5]; [5; 5]], [1; 0; 0; 1], [3; 3; 2; 2; 2]%nat), g') ∧
    reparte [5; 5; 5; 5] [[5; 5]; [5; 5]] ∧
    reparte [5; 5; 5; 5] (best_fit 10 [5; 5; 5; 5]).2 ∧
    resultado_optimo_doble 10 [5; 5; 5; 5] = Ok (Fin 2, [[5; 5]; [5; 5]]) ∧
    reparte [5; 5; 5; 5] [[5; 5]; [5; 5]].
Proof.
  assert (0 < 10) as H1 by lia.
  assert (Forall (λ x, 0 < x) [5; 5; 5; 5]) as H2 by (repeat constructor; lia).
  destruct (C3_every_item_in_exactly_one_bin
              (λ _ i, ((N.of_nat i * 7919 + 13) `mod` 251)%N) 10 [5; 5; 5; 5] H1 H2)
    as (Hheur & Hexacto & _ & Hgen & _).
  eexists. split_and!; [done|done| | | | |].
  - vm_compute. reflexivity.
  - eapply (Hgen 5%nat 12%nat (1 # 2)%Q (Some 1) 2%nat (λ _, 0%N)).
    vm_compute. reflexivity.
  - apply Hheur. unfold heuristicos. do 2 right. left.
  - vm_compute. reflexivity.
  - apply (Hexacto (Fin 2)). vm_compute. reflexivity.
Defined.

(** * Early stopping *)

(** C9: in a run that returns, with a patience of at least one, the
    entry of the history for a generation is the number of distinct
    labels of the best vector of that generation, the first vector of
    least fitness of the population that the loop holds after that many
    generations. The run makes at most [generations] iterations, one
    entry each; at every iteration before the last the number of latest
    consecutive generations whose entry equals that of the generation
    before was below the patience, and a run that ends before its budget
    ends with that number at the patience. The number starts again from
    zero at any change of the entry, up or down. *)
Theorem C9_early_stopping sembrar items capacidad population_size generations
    mutation_rate seed patience_no_change g k cajas best history g' :
  (1 ≤ patience_no_change)%nat →
  genetic_algorithm_bpp sembrar items capacidad population_size generations
    mutation_rate seed patience_no_change g = Ok ((k, cajas, best, history), g') →
  (∃ poblacion g0 mejor,
     generate_population (length items) population_size
       (match seed with Some s => sembrar s | None => g end) = Ok (poblacion, g0) ∧
     min_fitness items capacidad poblacion = Ok mejor ∧
     ∀ t b, history !! t = Some b →
       ∃ st g1 best_gen,
         bucle items capacidad population_size mutation_rate patience_no_change
           (S t) (Estado poblacion [] mejor (num_bins mejor) None 0%nat) g0
         = Ok (st, g1) ∧
         history_bins st = take (S t) history ∧
         min_fitness items capacidad (population st) = Ok best_gen ∧
         b = num_bins best_gen) ∧
  (length history ≤ generations)%nat ∧
  (∀ t, (t < length history)%nat →
        (generaciones_sin_cambio (take t history) < patience_no_change)%nat) ∧
  ((length history < generations)%nat →
   (patience_no_change ≤ generaciones_sin_cambio history)%nat).
Proof.
  intros Hp H. split.
  - by apply genetic_algorithm_bpp_generaciones in H.
  - apply genetic_algorithm_bpp_Ok_inv in H as (_ & _ & _ & H). by apply H.
Qed.

Lemma C9_early_stopping_witness :
  ∃ g',
    (1 ≤ 2)%nat ∧
    genetic_algorithm_bpp (λ _ i, ((N.of_nat i * 7919 + 13) `mod` 251)%N)
      [5; 5; 5; 5] 10 5 12 (1 # 2) (Some 1) 2 (λ _, 0%N)
    = Ok ((2%nat, [[5; 5]; [5; 5]], [1; 0; 0; 1], [3; 3; 2; 2; 2]%nat), g') ∧
    (∃ poblacion g0 mejor,
       generate_population (length [5; 5; 5; 5]) 5
         (λ i, ((N.of_nat i * 7919 + 13) `mod` 251)%N) = Ok (poblacion, g0) ∧
       min_fitness [5; 5; 5; 5] 10 poblacion = Ok mejor ∧
       ∀ t b, [3; 3; 2; 2; 2]%nat !! t = Some b →
         ∃ st g1 best_gen,
           bucle [5; 5; 5; 5] 10 5 (1 # 2) 2
             (S t) (Estado poblacion [] mejor (num_bins mejor) None 0%nat) g0
           = Ok (st, g1) ∧
           history_bins st = take (S t) [3; 3; 2; 2; 2]%nat ∧
           min_fitness [5; 5; 5; 5] 10 (population st) = Ok best_gen ∧
           b = num_bins best_gen) ∧
    (length [3; 3; 2; 2; 2]%nat ≤ 12)%nat ∧
    (∀ t, (t < length [3; 3; 2; 2; 2]%nat)%nat →
          (generaciones_sin_cambio (take t [3; 3; 2; 2; 2]%nat) < 2)%nat) ∧
    ((length [3; 3; 2; 2; 2]%nat < 12)%nat →
     (2 ≤ generaciones_sin_cambio [3; 3; 2; 2; 2]%nat)%nat).
Proof.
  assert (1 ≤ 2)%nat as H1 by lia.
  eexists. refine (let H2 := _ in conj H1 (conj H2
    (C9_early_stopping (λ _ i, ((N.of_nat i * 7919 + 13) `mod` 251)%N)
       [5; 5; 5; 5] 10 5%nat 12%nat (1 # 2) (Some 1) 2%nat (λ _, 0%N) _ _ _ _ _
       H1 H2))).
  vm_compute. reflexivity.
Defined.
